(** * numba2.compiler.inference: the Cartesian Product Algorithm

    A shallow embedding of [numba2/compiler/inference.py] and the
    properties of its constraint solver.  Python objects that are mutated
    in place and may be shared (the [set] objects bound in a context) live
    in an explicit heap; exceptions are an outcome of every operation. *)

From stdpp Require Import base list strings pretty.

Set Default Proof Using "Type".
Set Warnings "-register-all".
Open Scope string_scope.
Open Scope list_scope.
Open Scope nat_scope.

(** ** Type representation *)

(** Identity of a pykit [ir.Function] object. *)
Abbreviation fid := nat (only parsing).

(** Modelled from the spec: the [Type] class of [numba2.typing], which is
    imported by inference.py but not part of the sources.  A [Type] is a
    nominal constructor applied to parameters ([Type(name, *params)],
    read back through [.name], [.params] and indexing).  The members of a
    type set that the code distinguishes from a [Type] are kept apart:
    [FuncRef] is an [ir.Function] object stored as a parameter (the first
    parameter of [Method(func, self)]) and [Overloaded] is a [frozenset]
    of candidate overloads. *)
Inductive Ty : Type :=
| Type_ (name : string) (params : list Ty)
| FuncRef (f : fid)
| Overloaded (cands : list Ty).

Definition Ty_eq_dec : ∀ x y : Ty, {x = y} + {x ≠ y}.
Proof.
  fix IH 1. intros [n1 p1|f1|c1] [n2 p2|f2|c2]; try (right; discriminate).
  - destruct (decide (n1 = n2)) as [->|Hn]; [|right; congruence].
    destruct (list_eq_dec (dec := IH) p1 p2) as [->|Hp]; [left; reflexivity|right; congruence].
  - destruct (decide (f1 = f2)) as [->|Hf]; [left; reflexivity|right; congruence].
  - destruct (list_eq_dec (dec := IH) c1 c2) as [->|Hc]; [left; reflexivity|right; congruence].
Defined.

#[global] Instance Ty_eq_decision : EqDecision Ty := Ty_eq_dec.

Definition Pointer (t : Ty) : Ty := Type_ "Pointer" [t].
Definition Function (restype : Ty) (argtypes : list Ty) : Ty :=
  Type_ "Function" (restype :: argtypes).
Definition Method (func self : Ty) : Ty := Type_ "Method" [func; self].
Definition Void : Ty := Type_ "Void" [].
Definition Bool : Ty := Type_ "Bool" [].

(** ** Graph nodes *)

(** A pykit type, the declared [op.type] of an operation. *)
Inductive PkType : Type :=
| PkOpaque
| PkType_ (k : nat).

#[global] Instance PkType_eq_decision : EqDecision PkType.
Proof. solve_decision. Defined.

(** Everything that inference.py uses as a node of the constraint graph or
    as a key of a context.  Operations, constants, globals, arguments and
    functions are IR objects compared by identity; strings (['return'],
    ['var%d']) and [Type] literals are compared by value. *)
Inductive Node : Type :=
| NOp (id : nat)
| NConst (c : nat)
| NGlobal (g : nat)
| NFuncArg (a : nat)
| NFunction (f : fid)
| NStr (s : string)
| NType (t : Ty)
| NPkType (t : PkType)
| NNone.

#[global] Instance Node_eq_decision : EqDecision Node.
Proof. solve_decision. Defined.

(** ** Python dictionaries as association lists (first match wins) *)

Fixpoint dict_get {K V} `{EqDecision K} (d : list (K * V)) (k : K) : option V :=
  match d with
  | [] => None
  | (k', v) :: d' => if decide (k' = k) then Some v else dict_get d' k
  end.

Fixpoint dict_set {K V} `{EqDecision K} (d : list (K * V)) (k : K) (v : V) : list (K * V) :=
  match d with
  | [] => [(k, v)]
  | (k', v') :: d' =>
      if decide (k' = k) then (k, v) :: d' else (k', v') :: dict_set d' k v
  end.

(** ** networkx.DiGraph *)

(** The graph keeps its nodes and edges in insertion order, which is the
    order in which they are iterated here; networkx itself promises no
    particular order. *)

Record DiGraph : Type := mkGraph {
  g_nodes : list Node;
  g_edges : list (Node * Node)
}.

Definition empty_graph : DiGraph := mkGraph [] [].

Definition add_node (G : DiGraph) (n : Node) : DiGraph :=
  if decide (n ∈ g_nodes G) then G else mkGraph (g_nodes G ++ [n]) (g_edges G).

Definition add_edge (G : DiGraph) (u v : Node) : DiGraph :=
  let G1 := add_node (add_node G u) v in
  if decide ((u, v) ∈ g_edges G1) then G1
  else mkGraph (g_nodes G1) (g_edges G1 ++ [(u, v)]).

Definition predecessors (G : DiGraph) (n : Node) : list Node :=
  (filter (λ e, e.2 = n) (g_edges G)).*1.

Definition neighbors (G : DiGraph) (n : Node) : list Node :=
  (filter (λ e, e.1 = n) (g_edges G)).*2.

(** ** Exceptions and outcomes *)

Inductive exn : Type :=
| KeyError (k : Node)
| KeyErrorStr (k : string)
| AttributeError (attr : string)
| IndexError
| TypeError (msg : string)
| ValueError (msg : string)
| RuntimeError (msg : string)
| AssertionError
| CompileError (opcode : string)
| NetworkXError (n : Node)
| InferError (ty : Ty) (attr : Node).

(** [Diverge] is the outcome of a run that has not returned within the
    fuel it was given. *)
Inductive outcome (A : Type) : Type :=
| Done (a : A)
| Raise (e : exn)
| Diverge.
Arguments Done {A} a.
Arguments Raise {A} e.
Arguments Diverge {A}.

(** ** Inference structures *)

Abbreviation addr := nat (only parsing).
Abbreviation TypeSet := (list Ty) (only parsing).

(** An operand of an operation: one value or a list of values. *)
Inductive Arg : Type :=
| ANode (n : Node)
| AList (l : list Node).

(** Metadata of a node: [{'attr': attr}] or [{'func': func, 'args': args}]. *)
Inductive Meta : Type :=
| MetaAttr (attr : Arg)
| MetaCall (func args : Arg).

(** [class Context].  The values of the [context] dictionary are
    references to [set] objects on the heap. *)
Record InferContext : Type := mkContext {
  ctx_func : fid;
  ctx_context : list (Node * addr);
  ctx_constraints : list (Node * string);
  ctx_graph : DiGraph;
  ctx_metadata : list (Node * Meta)
}.

(** The two kinds of value that [infer] puts in the pair it returns. *)
Inductive PyVal : Type :=
| VContext (c : InferContext)
| VType (t : Ty).

(** Modelled from the spec: the inference cache, whose class is not part
    of the sources: "two mappings - function -> Context-template, and
    (function, argument-types tuple) -> (final Context, Signature)".
    inference.py reads it through [lookup] and [lookup_ctx] and writes
    the attributes [ctxs] and [typings] directly. *)
Record Cache : Type := mkCache {
  ctxs : list (fid * InferContext);
  typings : list ((fid * list Ty) * (PyVal * PyVal))
}.

(** Modelled from the spec: [cache.lookup(func, argtypes)], the entry
    cached under (function, argument-types tuple), or [None]. *)
Definition lookup (c : Cache) (func : fid) (argtypes : list Ty) : option (PyVal * PyVal) :=
  dict_get (typings c) (func, argtypes).

(** Modelled from the spec: [cache.lookup_ctx(func)], the function's
    template, or [None]. *)
Definition lookup_ctx (c : Cache) (func : fid) : option InferContext :=
  dict_get (ctxs c) func.

(** The mutable world: the heap of [set] objects and the cache.  A
    dictionary of bindings is a value of its context: [Context.copy] and
    [build_graph] are the only places that make one, each a new one, and
    only [seed_context] assigns into one. *)
Record State : Type := mkState {
  heap : list TypeSet;
  cache : Cache
}.

Definition deref (h : list TypeSet) (a : addr) : TypeSet := default [] (h !! a).

(** ** State and exception monad *)

Definition M (A : Type) : Type := State → outcome (A * State).

Definition ret {A} (a : A) : M A := λ st, Done (a, st).
Definition raise {A} (e : exn) : M A := λ _, Raise e.
Definition bind {A B} (m : M A) (k : A → M B) : M B :=
  λ st, match m st with
        | Done (a, st') => k a st'
        | Raise e => Raise e
        | Diverge => Diverge
        end.

Notation "'let!' x := m 'in' k" := (bind m (λ x, k))
  (at level 10, x name, m at level 200, k at level 200).
Notation "'let!' ' p := m 'in' k" := (bind m (λ x, match x with p => k end))
  (at level 10, p pattern, m at level 200, k at level 200).
Notation "'do!' m 'in' k" := (bind m (λ _, k))
  (at level 10, m at level 200, k at level 200).

Definition lift {A} (o : option A) (e : exn) : M A :=
  match o with Some a => ret a | None => raise e end.

(** [for x in xs: acc = body(x, acc)] over a Python list. *)
Fixpoint for_list {A Acc} (xs : list A) (body : A → Acc → M Acc) (acc : Acc) : M Acc :=
  match xs with
  | [] => ret acc
  | x :: xs' => let! acc' := body x acc in for_list xs' body acc'
  end.

(** ** Operations on [set] objects *)

(** A set object is the list of its members without repetition, in the
    order in which it is iterated; a new member goes to the end.  CPython
    iterates a set in an order that follows the hashes of its members,
    which the model does not have: the list is in insertion order.  What
    is proved about the members of a set does not depend on that order;
    where a theorem speaks of the order of an iteration, it is the order
    of the list. *)

Definition set_add (t : Ty) (s : TypeSet) : TypeSet :=
  if decide (t ∈ s) then s else s ++ [t].

(** [set(iterable)]: a new set object. *)
Definition new_set (s : TypeSet) : M addr :=
  λ st, Done (length (heap st), mkState (heap st ++ [s]) (cache st)).

Definition read_set (a : addr) : M TypeSet :=
  λ st, Done (deref (heap st) a, st).

(** [result not in typeset] *)
Definition not_in (a : addr) (t : Ty) : M bool :=
  λ st, Done (negb (bool_decide (t ∈ deref (heap st) a)), st).

(** [typeset.add(result)] *)
Definition typeset_add (a : addr) (t : Ty) : M unit :=
  λ st, Done (tt, mkState (<[a := set_add t (deref (heap st) a)]> (heap st)) (cache st)).

(** The set iterator's check at each [next()]:
    "Set changed size during iteration". *)
Definition check_size (b : addr) (n : nat) : M unit :=
  λ st, if decide (length (deref (heap st) b) = n) then Done (tt, st)
        else Raise (RuntimeError "Set changed size during iteration").

Fixpoint iter_set {Acc} (b : addr) (n : nat) (xs : TypeSet)
    (body : Ty → Acc → M Acc) (acc : Acc) : M Acc :=
  match xs with
  | [] => ret acc
  | x :: xs' =>
      let! acc' := body x acc in
      do! check_size b n in
      iter_set b n xs' body acc'
  end.

(** [for x in s: acc = body(x, acc)] over the set object at [b]. *)
Definition for_set {Acc} (b : addr) (body : Ty → Acc → M Acc) (acc : Acc) : M Acc :=
  let! s := read_set b in iter_set b (length s) s body acc.

(** [itertools.product] of the pools: the rightmost pool advances fastest. *)
Fixpoint product {A} (pools : list (list A)) : list (list A) :=
  match pools with
  | [] => [[]]
  | p :: ps => x ← p; (x ::.) <$> product ps
  end.

(** ** The IR consumed by the builder *)

(** A pykit operation: identity, opcode, declared type and operands. *)
Record Op : Type := mkOp {
  op_id : nat;
  op_opcode : string;
  op_type : PkType;
  op_args : list Arg
}.

(** A pykit [ir.Function]: its name, formal arguments and operations. *)
Record IRFunction : Type := mkFunction {
  f_name : string;
  f_args : list Node;
  f_ops : list Op
}.

Definition flatten (args : list Arg) : list Node :=
  a ← args; match a with ANode n => [n] | AList l => l end.

(** [isinstance(arg, (ir.Const, ir.GlobalValue, ir.FuncArg))] *)
Definition is_leaf_value (n : Node) : bool :=
  match n with
  | NConst _ | NGlobal _ | NFuncArg _ => true
  | _ => false
  end.

(** Python truthiness of an operand, for [op.args[0] or Void()]. *)
Definition truthy (a : Arg) : bool :=
  match a with
  | ANode NNone | ANode (NStr "") | AList [] => false
  | _ => true
  end.

(** ** Exceptions without state: the constraint generator *)

Definition obind {A B} (o : outcome A) (k : A → outcome B) : outcome B :=
  match o with
  | Done a => k a
  | Raise e => Raise e
  | Diverge => Diverge
  end.

Notation "'try!' x := o 'in' k" := (obind o (λ x, k))
  (at level 10, x name, o at level 200, k at level 200).

Definition olift {A} (o : option A) (e : exn) : outcome A :=
  match o with Some a => Done a | None => Raise e end.

(** An operand used as a dictionary key or graph node must be hashable. *)
Definition as_key (a : Arg) : outcome Node :=
  match a with
  | ANode n => Done n
  | AList _ => Raise (TypeError "unhashable type: 'list'")
  end.

Definition as_iter (a : Arg) : outcome (list Node) :=
  match a with
  | AList l => Done l
  | ANode _ => Raise (TypeError "object is not iterable")
  end.

(** [a, b = op.args] *)
Definition unpack2 (args : list Arg) : outcome (Arg * Arg) :=
  match args with
  | [a; b] => Done (a, b)
  | _ => Raise (ValueError "wrong number of values to unpack")
  end.

Definition index {A} (l : list A) (i : nat) : outcome A := olift (l !! i) IndexError.

(** [class ConstraintGenerator] *)
Record ConstraintGenerator : Type := mkGen {
  gen_G : DiGraph;
  gen_constraints : list (Node * string);
  gen_metadata : list (Node * Meta);
  gen_allocas : list (Node * Node)
}.

Definition return_node : Node := NStr "return".

Definition with_G (g : ConstraintGenerator) (G : DiGraph) : ConstraintGenerator :=
  mkGen G (gen_constraints g) (gen_metadata g) (gen_allocas g).

Definition op_alloca (g : ConstraintGenerator) (op : Op) : outcome ConstraintGenerator :=
  let o := NOp (op_id op) in
  let g1 :=
    match dict_get (gen_allocas g) o with
    | Some _ => g
    | None =>
        let node := NStr ("var" +:+ pretty (length (gen_allocas g))) in
        mkGen (add_node (gen_G g) node) (gen_constraints g) (gen_metadata g)
              (dict_set (gen_allocas g) o node)
    end in
  try! var := olift (dict_get (gen_allocas g1) o) (KeyError o) in
  Done (mkGen (add_edge (gen_G g1) var o) (dict_set (gen_constraints g1) o "pointer")
              (gen_metadata g1) (gen_allocas g1)).

Definition op_load (g : ConstraintGenerator) (op : Op) : outcome ConstraintGenerator :=
  try! a := index (op_args op) 0 in
  try! k := as_key a in
  try! var := olift (dict_get (gen_allocas g) k) (KeyError k) in
  Done (with_G g (add_edge (gen_G g) var (NOp (op_id op)))).

Definition op_store (g : ConstraintGenerator) (op : Op) : outcome ConstraintGenerator :=
  try! vv := unpack2 (op_args op) in
  try! k := as_key vv.2 in
  try! var := olift (dict_get (gen_allocas g) k) (KeyError k) in
  try! value := as_key vv.1 in
  Done (with_G g (add_edge (gen_G g) value var)).

Definition op_phi (g : ConstraintGenerator) (op : Op) : outcome ConstraintGenerator :=
  try! a := index (op_args op) 1 in
  try! incoming := as_iter a in
  Done (with_G g (foldl (λ G i, add_edge G i (NOp (op_id op))) (gen_G g) incoming)).

Definition op_getfield (g : ConstraintGenerator) (op : Op) : outcome ConstraintGenerator :=
  let o := NOp (op_id op) in
  try! aa := unpack2 (op_args op) in
  try! arg := as_key aa.1 in
  Done (mkGen (add_edge (gen_G g) arg o) (dict_set (gen_constraints g) o "attr")
              (dict_set (gen_metadata g) o (MetaAttr aa.2)) (gen_allocas g)).

Definition op_call (g : ConstraintGenerator) (op : Op) : outcome ConstraintGenerator :=
  let o := NOp (op_id op) in
  let G := foldl (λ G a, add_edge G a o) (gen_G g) (flatten (op_args op)) in
  try! fa := unpack2 (op_args op) in
  Done (mkGen G (dict_set (gen_constraints g) o "call")
              (dict_set (gen_metadata g) o (MetaCall fa.1 fa.2)) (gen_allocas g)).

Definition op_convert (g : ConstraintGenerator) (op : Op) : outcome ConstraintGenerator :=
  let o := NOp (op_id op) in
  if decide (op_type op ≠ PkOpaque) then
    Done (with_G g (add_edge (gen_G g) (NPkType (op_type op)) o))
  else
    try! a := index (op_args op) 0 in
    try! src := as_key a in
    Done (with_G g (add_edge (gen_G g) src o)).

Definition op_cbranch (g : ConstraintGenerator) (op : Op) : outcome ConstraintGenerator :=
  try! a := index (op_args op) 0 in
  try! cond := as_key a in
  Done (with_G g (add_edge (gen_G g) (NType Bool) cond)).

Definition op_ret (g : ConstraintGenerator) (op : Op) : outcome ConstraintGenerator :=
  try! a := index (op_args op) 0 in
  try! value := (if truthy a then as_key a else Done (NType Void)) in
  Done (with_G g (add_edge (gen_G g) value return_node)).

(** Modelled from the spec: pykit's [ir.visit], which is not part of the
    sources: "Traversal visits every operation exactly once, dispatching
    on operation kind"; the exception operations have no graph effect and
    an operation kind without a handler is fatal ([errmissing=True]). *)
Definition dispatch (g : ConstraintGenerator) (op : Op) : outcome ConstraintGenerator :=
  let oc := op_opcode op in
  if decide (oc = "alloca") then op_alloca g op
  else if decide (oc = "load") then op_load g op
  else if decide (oc = "store") then op_store g op
  else if decide (oc = "phi") then op_phi g op
  else if decide (oc = "getfield") then op_getfield g op
  else if decide (oc = "call") then op_call g op
  else if decide (oc = "convert") then op_convert g op
  else if decide (oc = "cbranch") then op_cbranch g op
  else if decide (oc = "ret") then op_ret g op
  else if decide (oc ∈ ["jump"; "exc_setup"; "exc_throw"; "exc_catch"]) then Done g
  else Raise (CompileError oc).

Fixpoint visit (g : ConstraintGenerator) (ops : list Op) : outcome ConstraintGenerator :=
  match ops with
  | [] => Done g
  | op :: ops' => try! g' := dispatch g op in visit g' ops'
  end.

Definition generate_constraints (func : IRFunction) (G : DiGraph)
    : outcome (list (Node * string) * list (Node * Meta) * DiGraph) :=
  try! gen := visit (mkGen G [] [] []) (f_ops func) in
  Done (gen_constraints gen, gen_metadata gen, gen_G gen).

(** [build_graph]: the template starts with the empty context
    ([context = {}]). *)
Definition build_graph (f : fid) (func : IRFunction) : outcome InferContext :=
  let G :=
    foldl (λ G op,
             foldl (λ G arg, if is_leaf_value arg then add_node G arg else G)
                   (add_node G (NOp (op_id op))) (flatten (op_args op)))
          empty_graph (f_ops func) in
  let context : list (Node * addr) := [] in
  try! r := generate_constraints func G in
  let '(constraints, metadata, G') := r in
  Done (mkContext f context constraints G' metadata).

(** ** Inference *)

Definition with_context (ctx : InferContext) (context : list (Node * addr)) : InferContext :=
  mkContext (ctx_func ctx) context (ctx_constraints ctx) (ctx_graph ctx) (ctx_metadata ctx).

Definition liftO {A} (o : outcome A) : M A :=
  λ st, match o with
        | Done a => Done (a, st)
        | Raise e => Raise e
        | Diverge => Diverge
        end.

Definition get_cache : M Cache := λ st, Done (cache st, st).

(** [cache.ctxs[func] = ctx] *)
Definition set_ctxs (func : fid) (ctx : InferContext) : M unit :=
  λ st, Done (tt, mkState (heap st)
                          (mkCache (dict_set (ctxs (cache st)) func ctx) (typings (cache st)))).

(** [cache.typings[func, argtypes] = entry] *)
Definition set_typings (func : fid) (argtypes : list Ty) (entry : PyVal * PyVal) : M unit :=
  λ st, Done (tt, mkState (heap st)
                          (mkCache (ctxs (cache st))
                                   (dict_set (typings (cache st)) (func, argtypes) entry))).

(** [copy_context]: a new dictionary whose values are new set objects. *)
Definition copy_context (context : list (Node * addr)) : M (list (Node * addr)) :=
  for_list context
    (λ '(binding, type) acc,
       let! s := read_set type in
       let! a := new_set s in
       ret (acc ++ [(binding, a)]))
    [].

(** [Context.copy] *)
Definition Context_copy (ctx : InferContext) : M InferContext :=
  let! context := copy_context (ctx_context ctx) in
  ret (mkContext (ctx_func ctx) context
                 (ctx_constraints ctx) (ctx_graph ctx) (ctx_metadata ctx)).

(** [reduce(promote, typeset)] *)
Definition reduce (f : Ty → Ty → Ty) (typeset : TypeSet) : outcome Ty :=
  match typeset with
  | [] => Raise (TypeError "reduce() of empty sequence with no initial value")
  | t :: ts => Done (foldl f t ts)
  end.

Section Inference.

(** The program: the function object behind each function identity. *)
Variable prog : fid → IRFunction.

(** The field layout of a type ([type.fields]): field name to
    (value, declared type). *)
Variable fields : Ty → list (string * (Ty * Ty)).

(** The caller-supplied join of two types. *)
Variable promote : Ty → Ty → Ty.

Definition seed_context (ctx : InferContext) (argtypes : list Ty) : M InferContext :=
  for_list (zip (f_args (prog (ctx_func ctx))) argtypes)
    (λ '(arg, argtype) ctx,
       let! a := new_set [argtype] in
       ret (with_context ctx (dict_set (ctx_context ctx) arg a)))
    ctx.

(** Attribute access on a member of a type set. *)
Definition get_name (v : Ty) : outcome string :=
  match v with
  | Type_ name _ => Done name
  | FuncRef f => Done (f_name (prog f))
  | Overloaded _ => Raise (AttributeError "name")
  end.

Definition get_params (v : Ty) : outcome (list Ty) :=
  match v with
  | Type_ _ params => Done params
  | _ => Raise (AttributeError "params")
  end.

Definition get_fields (v : Ty) : outcome (list (string * (Ty * Ty))) :=
  match v with
  | Type_ _ _ => Done (fields v)
  | _ => Raise (AttributeError "fields")
  end.

(** [func_type[i]] *)
Definition getitem (v : Ty) (i : nat) : outcome Ty :=
  match v with
  | Type_ _ params => index params i
  | _ => Raise (TypeError "object is not subscriptable")
  end.

(** [attr in type.fields] and [type.fields[attr]] *)
Definition field_get (fs : list (string * (Ty * Ty))) (attr : Node) : option (Ty * Ty) :=
  match attr with
  | NStr s => dict_get fs s
  | _ => None
  end.

(** The type has the field, and the field's declared type is a type. *)
Definition has_field (attr : Node) (t : Ty) : bool :=
  match get_fields t with
  | Done fs =>
      match field_get fs attr with
      | Some (_, result) => match get_name result with Done _ => true | _ => false end
      | None => false
      end
  | _ => false
  end.

(** The type has a field layout, without the field. *)
Definition lacks_field (attr : Node) (t : Ty) : bool :=
  match get_fields t with
  | Done fs => match field_get fs attr with None => true | Some _ => false end
  | _ => false
  end.

(** The function object that [infer] is handed, if it is one. *)
Definition callee_of_type (v : Ty) : option fid :=
  match v with
  | FuncRef f => Some f
  | _ => None
  end.

Section Resolver.

(** The recursive call [infer(cache, func, arg_types)]. *)
Variable infer_rec : fid → list Ty → M (PyVal * PyVal).

(** The tail of [infer_call], from the [frozenset] test on. *)
Definition infer_call_function (callee : option fid) (func_type : Ty)
    (arg_types : list Ty) : M Ty :=
  match func_type with
  | Overloaded _ => raise (TypeError "'NotImplementedType' object is not callable")
  | _ =>
      let! f := lift callee (AttributeError "ops") in
      let! r := infer_rec f arg_types in
      let '(ctx, signature) := r in
      match signature with
      | VType t =>
          let! params := liftO (get_params t) in
          liftO (index params 0)
      | VContext _ => raise (AttributeError "params")
      end
  end.

(** [infer_call].  In the higher-order case the [assert restype] is taken to
    hold: a [Type] object is true. *)
Definition infer_call (func : Node) (func_type : Ty) (arg_types : list Ty) : M Ty :=
  let! name := liftO (get_name func_type) in
  if decide (name = "Method") then
    let! func' := liftO (getitem func_type 0) in
    let! self := liftO (getitem func_type 1) in
    infer_call_function (callee_of_type func') func_type arg_types
  else
    match func with
    | NFunction f => infer_call_function (Some f) func_type arg_types
    | _ =>
        let! params := liftO (get_params func_type) in
        let! restype := liftO (index params 0) in
        ret restype
    end.

(** [changed |= result not in typeset; typeset.add(result)] *)
Definition add_result (typeset : addr) (result : Ty) (changed : bool) : M bool :=
  let! fresh := not_in typeset result in
  do! typeset_add typeset result in
  ret (changed || fresh).

Definition context_get (ctx : InferContext) (n : Node) : M addr :=
  lift (dict_get (ctx_context ctx) n) (KeyError n).

(** The body of the loop of the ['attr'] transfer, for one candidate
    [type] of the predecessor. *)
Definition infer_attr (typeset : addr) (attr : Arg) (type : Ty) (changed : bool) : M bool :=
  let! fs := liftO (get_fields type) in
  let! key := liftO (as_key attr) in
  match field_get fs key with
  | None => raise (InferError type key)
  | Some (value, result) =>
      let! rname := liftO (get_name result) in
      let result :=
        if decide (rname = "Function") then Method value type else result in
      add_result typeset result changed
  end.

(** [ctx.graph.predecessors(node)]: asked about a node that is not in the
    graph, networkx raises.  (The unused [outgoing] of [infer_node] is
    computed right after it and fails on the same nodes.) *)
Definition graph_predecessors (G : DiGraph) (node : Node) : M (list Node) :=
  if decide (node ∈ g_nodes G) then ret (predecessors G node)
  else raise (NetworkXError node).

Definition infer_node (ctx : InferContext) (node : Node) : M bool :=
  let C := default "flow" (dict_get (ctx_constraints ctx) node) in
  let! typeset :=
    match node with
    | NType t => new_set [t]
    | _ => context_get ctx node
    end in
  let! incoming := graph_predecessors (ctx_graph ctx) node in
  if decide (C = "pointer") then
    for_list incoming
      (λ neighbor changed,
         let! b := context_get ctx neighbor in
         for_set b (λ type changed, add_result typeset (Pointer type) changed) changed)
      false
  else if decide (C = "flow") then
    for_list incoming
      (λ neighbor changed,
         let! b := context_get ctx neighbor in
         for_set b (λ type changed, add_result typeset type changed) changed)
      false
  else if decide (C = "attr") then
    match incoming with
    | [neighbor] =>
        let! md := lift (dict_get (ctx_metadata ctx) node) (KeyError node) in
        let! attr :=
          match md with
          | MetaAttr attr => ret attr
          | MetaCall _ _ => raise (KeyErrorStr "attr")
          end in
        let! b := context_get ctx neighbor in
        for_set b (infer_attr typeset attr) false
    | _ => raise (ValueError "wrong number of values to unpack")
    end
  else if decide (C = "call") then
    let! md := lift (dict_get (ctx_metadata ctx) node) (KeyError node) in
    match md with
    | MetaAttr _ => raise (KeyErrorStr "func")
    | MetaCall func args =>
        let! func := liftO (as_key func) in
        let! func_types := context_get ctx func in
        let! args := liftO (as_iter args) in
        let! arg_typess :=
          for_list args (λ arg acc, let! a := context_get ctx arg in ret (acc ++ [a])) [] in
        let! r :=
          for_set func_types
            (λ func_type acc,
               let! pools :=
                 for_list arg_typess
                   (λ a acc, let! s := read_set a in ret (acc ++ [s])) [] in
               for_list (product pools)
                 (λ arg_types '(changed, processed),
                    let key := (node, func_type, arg_types) in
                    if decide (key ∈ processed) then ret (changed, processed)
                    else
                      let processed := processed ++ [key] in
                      let! result := infer_call func func_type arg_types in
                      let! changed := add_result typeset result changed in
                      ret (changed, processed))
                 acc)
            (false, []) in
        ret r.1
    end
  else raise AssertionError.

(** The worklist loop of [infer_graph]: [popleft], and [appendleft] of
    every successor when the node changed. *)
Fixpoint worklist (fuel : nat) (ctx : InferContext) (W : list Node) : M unit :=
  match W with
  | [] => ret tt
  | node :: W' =>
      match fuel with
      | 0 => λ _, Diverge
      | S fuel' =>
          let! changed := infer_node ctx node in
          if (changed : bool) then
            worklist fuel' ctx
              (foldl (λ W neighbor, neighbor :: W) W' (neighbors (ctx_graph ctx) node))
          else worklist fuel' ctx W'
      end
  end.

Definition infer_graph (fuel : nat) (ctx : InferContext) : M unit :=
  worklist fuel ctx (g_nodes (ctx_graph ctx)).

(** The body of [infer]; [fuel] bounds the iterations of the solver. *)
Definition infer_body (fuel : nat) (func : fid) (argtypes : list Ty) : M (PyVal * PyVal) :=
  let! c := get_cache in
  match lookup c func argtypes with
  | Some cached => ret cached
  | None =>
      let! ctx :=
        match lookup_ctx c func with
        | Some ctx => ret ctx
        | None =>
            let! ctx := liftO (build_graph func (prog func)) in
            do! set_ctxs func ctx in
            ret ctx
        end in
      let! ctx := Context_copy ctx in
      let! ctx := seed_context ctx argtypes in
      do! infer_graph fuel ctx in
      let! a := context_get ctx return_node in
      let! typeset := read_set a in
      let! restype := liftO (reduce promote typeset) in
      let signature := Function restype argtypes in
      do! set_typings func argtypes (VType signature, VContext ctx) in
      ret (VContext ctx, VType signature)
  end.

End Resolver.

(** [infer]: [fuel] bounds both the depth of the recursion through
    [infer_call] and the iterations of each solver run. *)
Fixpoint infer (fuel : nat) (func : fid) (argtypes : list Ty) : M (PyVal * PyVal) :=
  match fuel with
  | 0 => λ _, Diverge
  | S fuel' => infer_body (infer fuel') fuel func argtypes
  end.

End Inference.

(** * Specification vocabulary *)

(** Partial-correctness triples for the monad. *)
Definition hoare {A} (P : State → Prop) (m : M A) (Q : A → State → Prop) : Prop :=
  ∀ st a st', P st → m st = Done (a, st') → Q a st'.

(** A step that only reads the state. *)
Definition pure_step {A} (m : M A) : Prop :=
  ∀ st a st', m st = Done (a, st') → st' = st.

(** The set object at [a] only gains members, every other existing set
    object is left as it was, and objects may be allocated. *)
Definition grows_at (a : addr) (h h' : list TypeSet) : Prop :=
  length h ≤ length h' ∧
  (∀ b, b < length h → b ≠ a → h' !! b = h !! b) ∧
  deref h a `prefix_of` deref h' a.

(** The templates of a cache are never replaced: every function that has a
    template keeps that very template. *)
Definition cache_le (c c' : Cache) : Prop :=
  ∀ g t, lookup_ctx c g = Some t → lookup_ctx c' g = Some t.

(** The invariant of one visit of a node whose type set is at [a], started
    in state [st0]: the heap has grown at [a] only, the templates are
    kept, and [changed] is set only if the type set has a member it did
    not have. *)
Definition visit_inv (a : addr) (st0 : State) (changed : bool) (st : State) : Prop :=
  grows_at a (heap st0) (heap st) ∧
  cache_le (cache st0) (cache st) ∧
  (a < length (heap st0) → changed = true →
   ∃ t, t ∈ deref (heap st) a ∧ t ∉ deref (heap st0) a).


(** The state [st'] extends [st]: every existing set object is as it was
    (objects may have been allocated) and the templates are kept. *)
Definition state_le (st st' : State) : Prop :=
  heap st `prefix_of` heap st' ∧ cache_le (cache st) (cache st').

(** A step that only extends the state. *)
Definition extends {A} (m : M A) : Prop :=
  ∀ st r st', m st = Done (r, st') → state_le st st'.

(** The address of the type set that a visit of [node] works on, in a heap
    [h0]: the node's binding, or the fresh [set([node])] of a Type literal. *)
Definition typeset_of (ctx : InferContext) (node : Node) (h0 : list TypeSet) : option addr :=
  match node with
  | NType _ => Some (length h0)
  | _ => dict_get (ctx_context ctx) node
  end.

(** What a solver run on [ctx] may do to the heap: allocate, and add
    members to the set objects bound in [ctx]; every other existing set
    object is left as it was and no set object loses a member. *)
Definition solver_step (ctx : InferContext) (st st' : State) : Prop :=
  length (heap st) ≤ length (heap st') ∧
  (∀ b, b < length (heap st) → b ∉ (ctx_context ctx).*2 → heap st' !! b = heap st !! b) ∧
  (∀ b, deref (heap st) b `prefix_of` deref (heap st') b) ∧
  cache_le (cache st) (cache st').

(** A specialized context is layered on its template: same function, graph,
    constraints and metadata. *)
Definition shares_template (tmpl ctx : InferContext) : Prop :=
  ctx_func ctx = ctx_func tmpl ∧
  ctx_graph ctx = ctx_graph tmpl ∧
  ctx_constraints ctx = ctx_constraints tmpl ∧
  ctx_metadata ctx = ctx_metadata tmpl.

(** Every set object bound in [ctx] was allocated after [st0]. *)
Definition private_bindings (st0 : State) (ctx : InferContext) : Prop :=
  Forall (λ a, length (heap st0) ≤ a) (ctx_context ctx).*2.

(** What the cold path of [infer] leaves behind, started in [st]: the
    function's template is in the cache, the returned pair is the
    specialized context and the signature, the context is layered on the
    template with bindings of its own, and the pair cached under
    (function, argument types) is (signature, context). *)
Definition cold_result (st st' : State) (func : fid) (argtypes : list Ty)
    (r : PyVal * PyVal) : Prop :=
  ∃ tmpl ctx signature,
    lookup_ctx (cache st') func = Some tmpl ∧
    r = (VContext ctx, VType signature) ∧
    shares_template tmpl ctx ∧
    private_bindings st ctx ∧
    lookup (cache st') func argtypes = Some (VType signature, VContext ctx).

(** The number of types of the universe [U] that the set [s] lacks. *)
Definition missing (U s : list Ty) : nat := length (filter (λ u, u ∉ s) U).

(** The room left in the type sets bound in [ctx]: how many members they
    can still gain within [U]. *)
Definition capacity (U : list Ty) (ctx : InferContext) (h : list TypeSet) : nat :=
  sum_list ((λ a, missing U (deref h a)) <$> (ctx_context ctx).*2).

(** Every type set bound in [ctx] is within the universe [U]. *)
Definition bounded (U : list Ty) (ctx : InferContext) (st : State) : Prop :=
  ∀ n a, dict_get (ctx_context ctx) n = Some a → deref (heap st) a ⊆ U.

(** Every binding of [ctx] refers to a set object that exists. *)
Definition allocated (ctx : InferContext) (st : State) : Prop :=
  Forall (λ a, a < length (heap st)) (ctx_context ctx).*2.

(** Type literals have no constraint of their own and no predecessor. *)
Definition literals_are_sources (ctx : InferContext) : Prop :=
  ∀ t, dict_get (ctx_constraints ctx) (NType t) = None ∧
       predecessors (ctx_graph ctx) (NType t) = [].

(** The outcome of a run that came to an end: it returned or raised. *)
Definition finished {A} (o : outcome A) : Prop :=
  match o with
  | Diverge => False
  | _ => True
  end.

(** A computation that returns or raises, in every state. *)
Definition returns {A} (m : M A) : Prop := ∀ st, m st ≠ Diverge.

(** The states that a solver run on [ctx] goes through: any number of
    successive visits of nodes, each one a call of [infer_node] that
    returned. *)
Inductive visits (prog : fid → IRFunction) (fields : Ty → list (string * (Ty * Ty)))
    (R : fid → list Ty → M (PyVal * PyVal)) (ctx : InferContext) : State → State → Prop :=
| visits_refl st : visits prog fields R ctx st st
| visits_step st1 st2 node changed st3 :
    visits prog fields R ctx st1 st2 →
    infer_node prog fields R ctx node st2 = Done (changed, st3) →
    visits prog fields R ctx st1 st3.

(** The addresses on which two heaps are compared: those of the list [A]
    and every address from [n0] on. *)
Definition agreed (A : list addr) (n0 : nat) (a : addr) : Prop := a ∈ A ∨ n0 ≤ a.

(** Two states that can differ only in set objects that are neither in [A]
    nor allocated from [n0] on: the caches are equal, the heaps have the
    same size, with at least [n0] objects, and the same objects at the
    agreed addresses, and the templates of the cache bind agreed addresses
    only. *)
Definition sim (A : list addr) (n0 : nat) (st1 st2 : State) : Prop :=
  cache st1 = cache st2 ∧
  length (heap st1) = length (heap st2) ∧
  n0 ≤ length (heap st1) ∧
  (∀ g t, lookup_ctx (cache st1) g = Some t → Forall (agreed A n0) (ctx_context t).*2) ∧
  (∀ a, agreed A n0 a → heap st1 !! a = heap st2 !! a).

(** Two runs with the same outcome: the same exception, or the same value
    in states that differ as before. *)
Definition same_outcome {X} (A : list addr) (n0 : nat) (o1 o2 : outcome (X * State)) : Prop :=
  match o1, o2 with
  | Done (x1, s1), Done (x2, s2) => x1 = x2 ∧ sim A n0 s1 s2
  | Raise e1, Raise e2 => e1 = e2
  | Diverge, Diverge => True
  | _, _ => False
  end.

(** A computation that cannot tell such states apart. *)
Definition lockstep {X} (A : list addr) (n0 : nat) (m : M X) : Prop :=
  ∀ st1 st2, sim A n0 st1 st2 → same_outcome A n0 (m st1) (m st2).

(** * Example programs and states *)

Module Examples.

Definition Int32 : Ty := Type_ "Int32" [].
Definition Float64 : Ty := Type_ "Float64" [].

(** [def identity(a): return a], as IR: one [ret] of the argument. *)
Definition identity : IRFunction :=
  mkFunction "identity" [NFuncArg 0] [mkOp 0 "ret" PkOpaque [ANode (NFuncArg 0)]].

(** The program: every function identity denotes [identity]. *)
Definition prog (f : fid) : IRFunction := identity.

(** A user-defined type [Point] with the fields [x] and [y]. *)
Definition Point : Ty := Type_ "Point" [].

(** A user-defined type [Tagged] with the fields [q] and [x]. *)
Definition Tagged : Ty := Type_ "Tagged" [].

Definition fields (t : Ty) : list (string * (Ty * Ty)) :=
  if decide (t = Point) then [("x", (Void, Int32)); ("y", (Void, Int32))]
  else if decide (t = Tagged) then [("q", (Void, Float64)); ("x", (Void, Int32))]
  else [].

Definition promote (a b : Ty) : Ty := a.

Definition empty_cache : Cache := mkCache [] [].

(** A fresh session: nothing allocated, nothing cached. *)
Definition fresh : State := mkState [] empty_cache.

(** A session whose cache holds, for function 0, a template that binds
    the return node to the set [{Int32}] over an empty graph. *)
Definition returns_int32 : InferContext :=
  mkContext 0 [(return_node, 0)] [] empty_graph [].

Definition seeded : State := mkState [[Int32]] (mkCache [(0, returns_int32)] []).

(** The same session with one more set object, [other], which stands for
    a type set bound by another specialization. *)
Definition seeded_with (other : TypeSet) : State :=
  mkState [[Int32]; other] (mkCache [(0, returns_int32)] []).

(** A resolver that records each invocation by allocating an object that
    holds the argument types it was called with, and answers with the
    signature [Function(Int32, args...)]. *)
Definition recording (f : fid) (args : list Ty) : M (PyVal * PyVal) :=
  λ st, Done ((VContext returns_int32, VType (Function Int32 args)),
              mkState (heap st ++ [FuncRef f :: args]) (cache st)).

(** A call [r = g(a)]: the call operation 0 with the static callee
    [g] (function 1) and the argument [a]. *)
Definition call_ctx : InferContext :=
  mkContext 0
    [(NOp 0, 0); (NFunction 1, 1); (NFuncArg 0, 2)]
    [(NOp 0, "call")]
    (mkGraph [NOp 0; NFunction 1; NFuncArg 0]
             [(NFunction 1, NOp 0); (NFuncArg 0, NOp 0)])
    [(NOp 0, MetaCall (ANode (NFunction 1)) (AList [NFuncArg 0]))].

Definition call_state : State :=
  mkState [[]; [Function Int32 [Int32]]; [Int32]] empty_cache.

(** A call [r = g(x)] whose argument [x] merges [a] and a value [y]
    that is itself fed by [b]: operation 0 is the call, operation 1 is
    [x], operation 2 is [y].  Every node is bound. *)
Definition revisit_ctx : InferContext :=
  mkContext 0
    [(NOp 0, 0); (NFunction 1, 1); (NOp 1, 2); (NFuncArg 0, 3); (NOp 2, 4);
     (NFuncArg 1, 5)]
    [(NOp 0, "call")]
    (mkGraph [NOp 0; NFunction 1; NOp 1; NFuncArg 0; NOp 2; NFuncArg 1]
             [(NFunction 1, NOp 0); (NOp 1, NOp 0); (NFuncArg 0, NOp 1);
              (NOp 2, NOp 1); (NFuncArg 1, NOp 2)])
    [(NOp 0, MetaCall (ANode (NFunction 1)) (AList [NOp 1]))].

Definition revisit_state : State :=
  mkState [[]; [Function Int32 [Int32]]; []; [Int32]; []; [Float64]] empty_cache.

(** A field access [p.q] on an argument [p] that is a [Tagged] or a
    [Point]. *)
Definition attr_ctx : InferContext :=
  mkContext 0
    [(NOp 0, 0); (NFuncArg 0, 1)]
    [(NOp 0, "attr")]
    (mkGraph [NOp 0; NFuncArg 0] [(NFuncArg 0, NOp 0)])
    [(NOp 0, MetaAttr (ANode (NStr "q")))].

Definition attr_state : State := mkState [[]; [Tagged; Point]] empty_cache.

(** The graph of [identity] with every node bound: the argument to
    [{Int32}], the operation and the return node to empty sets. *)
Definition flow_ctx : InferContext :=
  mkContext 0
    [(NOp 0, 0); (NFuncArg 0, 1); (return_node, 2)]
    []
    (mkGraph [NOp 0; NFuncArg 0; return_node] [(NFuncArg 0, return_node)])
    [].

Definition flow_state : State := mkState [[]; [Int32]; []] empty_cache.

End Examples.

(** * The model, continued: the pass entry point and the solutions of a graph *)

(** ** [run] *)

(** What the pass environment holds under the keys that [run] reads and
    writes: the session's cache object, a sequence of argument types, a
    value that [infer] returned, or anything else. *)
Inductive EnvVal : Type :=
| EnvCache
| EnvTypes (argtypes : list Ty)
| EnvPy (v : PyVal)
| EnvOther.

(** [a, b, c = pair]: a pair is one value short. *)
Definition unpack3 {A} (pair : A * A) : outcome (A * A * A) :=
  Raise (ValueError "need more than 2 values to unpack").

Section Run.

Variable prog : fid → IRFunction.
Variable fields : Ty → list (string * (Ty * Ty)).
Variable promote : Ty → Ty → Ty.

(** [run]: the two reads of [env], the call of [infer] (whose first
    statement is [tuple(argtypes)] and whose second is [cache.lookup]),
    the unpacking of its result into three names and the three writes. *)
Definition run (fuel : nat) (func : fid) (env : list (string * EnvVal))
    : M (list (string * EnvVal)) :=
  let! cache := lift (dict_get env "numba.typing.cache")
                     (KeyErrorStr "numba.typing.cache") in
  let! argtypes := lift (dict_get env "numba.typing.argtypes")
                        (KeyErrorStr "numba.typing.argtypes") in
  let! argtypes :=
    match argtypes with
    | EnvTypes l => ret l
    | _ => raise (TypeError "object is not iterable")
    end in
  do! match cache with
      | EnvCache => ret tt
      | _ => raise (AttributeError "lookup")
      end in
  let! r := infer prog fields promote fuel func argtypes in
  let! ' (signature, context, constraints) := liftO (unpack3 r) in
  let env := dict_set env "numba.typing.signature" (EnvPy signature) in
  let env := dict_set env "numba.typing.context" (EnvPy context) in
  let env := dict_set env "numba.typing.constraints" (EnvPy constraints) in
  ret env.

(** ** What a transfer derives *)

(** The result of the ['attr'] transfer for one candidate [type]: the
    field's declared type, or the bound method when that type is a
    [Function]. *)
Definition attr_result (attr : Arg) (type : Ty) : outcome Ty :=
  try! fs := get_fields fields type in
  try! key := as_key attr in
  match field_get fs key with
  | None => Raise (InferError type key)
  | Some (value, result) =>
      try! rname := get_name prog result in
      Done (if decide (rname = "Function") then Method value type else result)
  end.

(** The member that the transfer of [node] adds to the node's type set
    for the member [t] of a predecessor's type set, for the three kinds of
    node whose transfer reads its predecessors. *)
Definition derived (ctx : InferContext) (node : Node) (t : Ty) : option Ty :=
  let C := default "flow" (dict_get (ctx_constraints ctx) node) in
  if decide (C = "pointer") then Some (Pointer t)
  else if decide (C = "flow") then Some t
  else if decide (C = "attr") then
    match dict_get (ctx_metadata ctx) node with
    | Some (MetaAttr attr) =>
        match attr_result attr t with
        | Done r => Some r
        | _ => None
        end
    | _ => None
    end
  else None.

(** The constraint of [node] holds in the heap [h]: the node is bound,
    and its type set has what the transfer derives from every member of
    the type set of every predecessor. *)
Definition satisfied (ctx : InferContext) (h : list TypeSet) (node : Node) : Prop :=
  ∃ a, dict_get (ctx_context ctx) node = Some a ∧
  ∀ u b t r,
    u ∈ predecessors (ctx_graph ctx) node →
    dict_get (ctx_context ctx) u = Some b →
    t ∈ deref h b →
    derived ctx node t = Some r →
    r ∈ deref h a.

(** Every member of a type set bound in [ctx], in the heap [h], has a
    reason: it was there in the heap [h0], or the set is that of a ['call']
    node, or the transfer of the node derives it from a member of the
    type set of a predecessor. *)
Definition justified (ctx : InferContext) (h0 h : list TypeSet) : Prop :=
  ∀ node a r,
    dict_get (ctx_context ctx) node = Some a → r ∈ deref h a →
    r ∈ deref h0 a ∨
    default "flow" (dict_get (ctx_constraints ctx) node) = "call" ∨
    ∃ u b t, u ∈ predecessors (ctx_graph ctx) node ∧
             dict_get (ctx_context ctx) u = Some b ∧
             t ∈ deref h b ∧ derived ctx node t = Some r.

End Run.

(** The exception is the typed inference failure. *)
Definition is_InferError (e : exn) : bool :=
  match e with
  | InferError _ _ => true
  | _ => false
  end.

(** A computation that raises no exception outside [P]. *)
Definition raises_only {A} (P : exn → Prop) (m : M A) : Prop :=
  ∀ st e, m st = Raise e → P e.

(** [isinstance(node, Type)] *)
Definition is_literal (n : Node) : bool :=
  match n with
  | NType _ => true
  | _ => false
  end.

(** No two bindings of the context refer to the same set object. *)
Definition unaliased (ctx : InferContext) : Prop := NoDup (ctx_context ctx).*2.

(** Every node of the graph is bound. *)
Definition nodes_bound (ctx : InferContext) : Prop :=
  ∀ n, n ∈ g_nodes (ctx_graph ctx) → is_Some (dict_get (ctx_context ctx) n).

(** ** Graphs *)

(** The ends of every edge are nodes of the graph. *)
Definition graph_closed (G : DiGraph) : Prop :=
  ∀ u v, (u, v) ∈ g_edges G → u ∈ g_nodes G ∧ v ∈ g_nodes G.

(** The graph lists no node and no edge twice, and the ends of its edges
    are nodes. *)
Definition graph_wf (G : DiGraph) : Prop :=
  NoDup (g_nodes G) ∧ NoDup (g_edges G) ∧ graph_closed G.

(** The graph [G'] is [G] after any number of [add_node] and of [add_edge]
    between nodes that [ok] relates. *)
Inductive graph_grown (ok : Node → Node → Prop) (G : DiGraph) : DiGraph → Prop :=
| grown_refl : graph_grown ok G G
| grown_node G' n : graph_grown ok G G' → graph_grown ok G (add_node G' n)
| grown_edge G' u v :
    graph_grown ok G G' → ok u v → graph_grown ok G (add_edge G' u v).

(** There is a path of edges from [u] to [v] (of any length, also none). *)
Inductive reaches (G : DiGraph) (u : Node) : Node → Prop :=
| reaches_refl : reaches G u u
| reaches_step v w : reaches G u v → (v, w) ∈ g_edges G → reaches G u w.

(** Every member of a type set bound in [ctx], in the heap [h], was in the
    heap [h0] a member of the type set of a node from which the binding's
    node can be reached. *)
Definition traced (ctx : InferContext) (h0 h : list TypeSet) : Prop :=
  ∀ v a t,
    dict_get (ctx_context ctx) v = Some a → t ∈ deref h a →
    ∃ u b, reaches (ctx_graph ctx) u v ∧
           dict_get (ctx_context ctx) u = Some b ∧ t ∈ deref h0 b.

(** Every member of every type set bound in [ctx], in the heap [h]. *)
Definition bound_types (ctx : InferContext) (h : list TypeSet) : list Ty :=
  a ← (ctx_context ctx).*2; deref h a.

(** The values that an operation names as operands. *)
Definition operands (func : IRFunction) : list Node :=
  op ← f_ops func; flatten (op_args op).

(** ** The state of the constraint generator *)

(** The variable node of the [i]-th stack slot: ['var%d' % i]. *)
Definition var_node (i : nat) : Node := NStr ("var" +:+ pretty i).

(** The slots of [_allocas]: no two of them have the same variable node,
    and the variable nodes are numbered below the number of slots. *)
Definition allocas_ok (allocas : list (Node * Node)) : Prop :=
  NoDup allocas.*2 ∧
  ∀ k v, (k, v) ∈ allocas → ∃ i, v = var_node i ∧ i < length allocas.

(** What the constraint [C] of the node of the operation [op] says about
    the operation and about the node's metadata. *)
Definition tag_of (metadata : list (Node * Meta)) (op : Op) (C : string) : Prop :=
  (C = "pointer" ∧ op_opcode op = "alloca") ∨
  (C = "attr" ∧ op_opcode op = "getfield" ∧
   ∃ x attr, op_args op = [x; attr] ∧
             dict_get metadata (NOp (op_id op)) = Some (MetaAttr attr)) ∨
  (C = "call" ∧ op_opcode op = "call" ∧
   ∃ func args, op_args op = [func; args] ∧
                dict_get metadata (NOp (op_id op)) = Some (MetaCall func args)).

(** Every constraint is the constraint of the node of one of the
    operations [ops], with the tag and the metadata of its kind. *)
Definition tags_ok (ops : list Op) (constraints : list (Node * string))
    (metadata : list (Node * Meta)) : Prop :=
  ∀ n C, dict_get constraints n = Some C →
         ∃ op, op ∈ ops ∧ n = NOp (op_id op) ∧ tag_of metadata op C.

(** The edges that the handlers add for the operations [ops]: into a node
    that is not a Type literal, or into an operand. *)
Definition edge_ok (ops : list Op) (u v : Node) : Prop :=
  is_literal v = false ∨ ∃ op, op ∈ ops ∧ v ∈ flatten (op_args op).

(** The steps of a handler that returned, one by one. *)
Ltac handler_steps H :=
  repeat match type of H with
         | obind ?o _ = Done _ =>
             let E := fresh "E" in
             destruct o eqn:E; cbn [obind] in H; [|discriminate..]
         end.

(** A decidable proposition about closed terms, by evaluation. *)
Ltac by_compute := refine (bool_decide_unpack _ _); vm_compute; exact I.

(** ** More example programs and states *)

Module MoreExamples.

Import Examples.

(** [x = alloca; store a, x; y = load x; p = y.q; ret p]: operation 0
    is the slot, 1 the store, 2 the load, 3 the field access and 4 the
    return. *)
Definition slot_function : IRFunction :=
  mkFunction "slot" [NFuncArg 0]
    [mkOp 0 "alloca" PkOpaque [];
     mkOp 1 "store" PkOpaque [ANode (NFuncArg 0); ANode (NOp 0)];
     mkOp 2 "load" PkOpaque [ANode (NOp 0)];
     mkOp 3 "getfield" PkOpaque [ANode (NOp 2); ANode (NStr "q")];
     mkOp 4 "ret" PkOpaque [ANode (NOp 3)]].

(** The graph of [slot_function] with every node bound to a set object of
    its own; the argument holds [Tagged]. *)
Definition slot_ctx : InferContext :=
  match build_graph 0 slot_function with
  | Done tmpl =>
      with_context tmpl (zip (g_nodes (ctx_graph tmpl)) (seq 0 (length (g_nodes (ctx_graph tmpl)))))
  | _ => returns_int32
  end.

Definition slot_state : State :=
  mkState ((λ n, if decide (n = NFuncArg 0) then [Tagged] else [])
             <$> g_nodes (ctx_graph slot_ctx)) empty_cache.

(** A session whose cache holds, for function 0 ([identity]), the
    template [flow_ctx] with its three set objects. *)
Definition flow_session : State :=
  mkState [[]; [Int32]; []] (mkCache [(0, flow_ctx)] []).

(** The template of [slot_function]. *)
Definition slot_template : InferContext :=
  match build_graph 0 slot_function with
  | Done tmpl => tmpl
  | _ => returns_int32
  end.

(** Two stack slots. *)
Definition two_slots : list Op :=
  [mkOp 0 "alloca" PkOpaque []; mkOp 1 "alloca" PkOpaque []].

(** [if p.q: ...]: a field access whose result is the condition of a
    branch. *)
Definition branch_on_field : IRFunction :=
  mkFunction "branch_on_field" [NFuncArg 0]
    [mkOp 0 "getfield" PkOpaque [ANode (NFuncArg 0); ANode (NStr "q")];
     mkOp 1 "cbranch" PkOpaque [ANode (NOp 0); ANode (NStr "then"); ANode (NStr "else")];
     mkOp 2 "ret" PkOpaque [ANode NNone]].

Definition branch_template : InferContext :=
  match build_graph 0 branch_on_field with
  | Done tmpl => tmpl
  | _ => returns_int32
  end.

(** The session [flow_session] with one more set object, [other], which
    stands for a type set bound by another specialization. *)
Definition flow_session_with (other : TypeSet) : State :=
  mkState [[]; [Int32]; []; other] (mkCache [(0, flow_ctx)] []).

(** A session without templates in which another specialization has a
    set object. *)
Definition other_session : State := mkState [[Float64]] empty_cache.

(** A session like [flow_session] whose template already has [Int32] in
    the type set of the return node. *)
Definition mixed_session : State :=
  mkState [[]; [Int32]; [Int32]] (mkCache [(0, flow_ctx)] []).

(** A join of two types that does not depend on the order of its
    arguments: equal types are kept, different ones widen to [Float64]. *)
Definition widest (a b : Ty) : Ty := if decide (a = b) then a else Float64.

(** [def getq(p): return p.q], as IR: operation 0 is the field access,
    operation 1 the return. *)
Definition getq : IRFunction :=
  mkFunction "getq" [NFuncArg 0]
    [mkOp 0 "getfield" PkOpaque [ANode (NFuncArg 0); ANode (NStr "q")];
     mkOp 1 "ret" PkOpaque [ANode (NOp 0)]].

(** The program in which every function identity denotes [getq]. *)
Definition getq_prog (f : fid) : IRFunction := getq.

(** A resolver that is never of use: it raises. *)
Definition no_resolver (f : fid) (args : list Ty) : M (PyVal * PyVal) :=
  raise AssertionError.

(** An environment with the cache and the argument types of a call. *)
Definition env0 : list (string * EnvVal) :=
  [("numba.typing.cache", EnvCache); ("numba.typing.argtypes", EnvTypes [Float64])].

End MoreExamples.

(** * Runs that raise: the state at the exception *)

(** In Python the changes that a call has made before it raises stay
    made: the set objects and the cache are as the call left them when
    the exception propagates.  [M] forgets the state of a run that
    raises.  Here the same code is run in a monad whose exceptions carry
    the state in which they were raised. *)

Module Keep.

Inductive result (A : Type) : Type :=
| Returned (a : A) (st : State)
| Raised (e : exn) (st : State)
| OutOfFuel.
Arguments Returned {A} a st.
Arguments Raised {A} e st.
Arguments OutOfFuel {A}.

Definition K (A : Type) : Type := State → result A.

(** The outcome in [M]: the state of a run that raised is dropped. *)
Definition forget {A} (r : result A) : outcome (A * State) :=
  match r with
  | Returned a st => Done (a, st)
  | Raised e _ => Raise e
  | OutOfFuel => Diverge
  end.

Definition ret {A} (a : A) : K A := λ st, Returned a st.
Definition raise {A} (e : exn) : K A := λ st, Raised e st.
Definition bind {A B} (m : K A) (k : A → K B) : K B :=
  λ st, match m st with
        | Returned a st' => k a st'
        | Raised e st' => Raised e st'
        | OutOfFuel => OutOfFuel
        end.

(** One step of [M] that raises, if it does, before it has changed
    anything: a lookup, a test, an operation on one set object or on the
    cache.  The exception carries the state in which the step began. *)
Definition atom {A} (m : M A) : K A :=
  λ st, match m st with
        | Done (a, st') => Returned a st'
        | Raise e => Raised e st
        | Diverge => OutOfFuel
        end.

Declare Scope keep_scope.
Notation "'let!' x := m 'in' k" := (bind m (λ x, k))
  (at level 10, x name, m at level 200, k at level 200) : keep_scope.
Notation "'let!' ' p := m 'in' k" := (bind m (λ x, match x with p => k end))
  (at level 10, p pattern, m at level 200, k at level 200) : keep_scope.
Notation "'do!' m 'in' k" := (bind m (λ _, k))
  (at level 10, m at level 200, k at level 200) : keep_scope.
Local Open Scope keep_scope.

Fixpoint for_list {A Acc} (xs : list A) (body : A → Acc → K Acc) (acc : Acc) : K Acc :=
  match xs with
  | [] => ret acc
  | x :: xs' => let! acc' := body x acc in for_list xs' body acc'
  end.

Fixpoint iter_set {Acc} (b : addr) (n : nat) (xs : TypeSet)
    (body : Ty → Acc → K Acc) (acc : Acc) : K Acc :=
  match xs with
  | [] => ret acc
  | x :: xs' =>
      let! acc' := body x acc in
      do! atom (check_size b n) in
      iter_set b n xs' body acc'
  end.

Definition for_set {Acc} (b : addr) (body : Ty → Acc → K Acc) (acc : Acc) : K Acc :=
  let! s := atom (read_set b) in iter_set b (length s) s body acc.

Definition copy_context (context : list (Node * addr)) : K (list (Node * addr)) :=
  for_list context
    (λ '(binding, type) acc,
       let! s := atom (read_set type) in
       let! a := atom (new_set s) in
       ret (acc ++ [(binding, a)]))
    [].

Definition Context_copy (ctx : InferContext) : K InferContext :=
  let! context := copy_context (ctx_context ctx) in
  ret (mkContext (ctx_func ctx) context
                 (ctx_constraints ctx) (ctx_graph ctx) (ctx_metadata ctx)).

Section Inference.

Variable prog : fid → IRFunction.
Variable fields : Ty → list (string * (Ty * Ty)).
Variable promote : Ty → Ty → Ty.

Definition seed_context (ctx : InferContext) (argtypes : list Ty) : K InferContext :=
  for_list (zip (f_args (prog (ctx_func ctx))) argtypes)
    (λ '(arg, argtype) ctx,
       let! a := atom (new_set [argtype]) in
       ret (with_context ctx (dict_set (ctx_context ctx) arg a)))
    ctx.

Section Resolver.

Variable infer_rec : fid → list Ty → K (PyVal * PyVal).

Definition infer_call_function (callee : option fid) (func_type : Ty)
    (arg_types : list Ty) : K Ty :=
  match func_type with
  | Overloaded _ => raise (TypeError "'NotImplementedType' object is not callable")
  | _ =>
      let! f := atom (lift callee (AttributeError "ops")) in
      let! r := infer_rec f arg_types in
      let '(ctx, signature) := r in
      match signature with
      | VType t =>
          let! params := atom (liftO (get_params t)) in
          atom (liftO (index params 0))
      | VContext _ => raise (AttributeError "params")
      end
  end.

Definition infer_call (func : Node) (func_type : Ty) (arg_types : list Ty) : K Ty :=
  let! name := atom (liftO (get_name prog func_type)) in
  if decide (name = "Method") then
    let! func' := atom (liftO (getitem func_type 0)) in
    let! self := atom (liftO (getitem func_type 1)) in
    infer_call_function (callee_of_type func') func_type arg_types
  else
    match func with
    | NFunction f => infer_call_function (Some f) func_type arg_types
    | _ =>
        let! params := atom (liftO (get_params func_type)) in
        let! restype := atom (liftO (index params 0)) in
        ret restype
    end.

Definition add_result (typeset : addr) (result : Ty) (changed : bool) : K bool :=
  let! fresh := atom (not_in typeset result) in
  do! atom (typeset_add typeset result) in
  ret (changed || fresh).

Definition infer_attr (typeset : addr) (attr : Arg) (type : Ty) (changed : bool) : K bool :=
  let! fs := atom (liftO (get_fields fields type)) in
  let! key := atom (liftO (as_key attr)) in
  match field_get fs key with
  | None => raise (InferError type key)
  | Some (value, result) =>
      let! rname := atom (liftO (get_name prog result)) in
      let result :=
        if decide (rname = "Function") then Method value type else result in
      add_result typeset result changed
  end.

Definition infer_node (ctx : InferContext) (node : Node) : K bool :=
  let C := default "flow" (dict_get (ctx_constraints ctx) node) in
  let! typeset :=
    match node with
    | NType t => atom (new_set [t])
    | _ => atom (context_get ctx node)
    end in
  let! incoming := atom (graph_predecessors (ctx_graph ctx) node) in
  if decide (C = "pointer") then
    for_list incoming
      (λ neighbor changed,
         let! b := atom (context_get ctx neighbor) in
         for_set b (λ type changed, add_result typeset (Pointer type) changed) changed)
      false
  else if decide (C = "flow") then
    for_list incoming
      (λ neighbor changed,
         let! b := atom (context_get ctx neighbor) in
         for_set b (λ type changed, add_result typeset type changed) changed)
      false
  else if decide (C = "attr") then
    match incoming with
    | [neighbor] =>
        let! md := atom (lift (dict_get (ctx_metadata ctx) node) (KeyError node)) in
        let! attr :=
          match md with
          | MetaAttr attr => ret attr
          | MetaCall _ _ => raise (KeyErrorStr "attr")
          end in
        let! b := atom (context_get ctx neighbor) in
        for_set b (infer_attr typeset attr) false
    | _ => raise (ValueError "wrong number of values to unpack")
    end
  else if decide (C = "call") then
    let! md := atom (lift (dict_get (ctx_metadata ctx) node) (KeyError node)) in
    match md with
    | MetaAttr _ => raise (KeyErrorStr "func")
    | MetaCall func args =>
        let! func := atom (liftO (as_key func)) in
        let! func_types := atom (context_get ctx func) in
        let! args := atom (liftO (as_iter args)) in
        let! arg_typess :=
          for_list args
            (λ arg acc, let! a := atom (context_get ctx arg) in ret (acc ++ [a])) [] in
        let! r :=
          for_set func_types
            (λ func_type acc,
               let! pools :=
                 for_list arg_typess
                   (λ a acc, let! s := atom (read_set a) in ret (acc ++ [s])) [] in
               for_list (product pools)
                 (λ arg_types '(changed, processed),
                    let key := (node, func_type, arg_types) in
                    if decide (key ∈ processed) then ret (changed, processed)
                    else
                      let processed := processed ++ [key] in
                      let! result := infer_call func func_type arg_types in
                      let! changed := add_result typeset result changed in
                      ret (changed, processed))
                 acc)
            (false, []) in
        ret r.1
    end
  else raise AssertionError.

Fixpoint worklist (fuel : nat) (ctx : InferContext) (W : list Node) : K unit :=
  match W with
  | [] => ret tt
  | node :: W' =>
      match fuel with
      | 0 => λ _, OutOfFuel
      | S fuel' =>
          let! changed := infer_node ctx node in
          if (changed : bool) then
            worklist fuel' ctx
              (foldl (λ W neighbor, neighbor :: W) W' (neighbors (ctx_graph ctx) node))
          else worklist fuel' ctx W'
      end
  end.

Definition infer_graph (fuel : nat) (ctx : InferContext) : K unit :=
  worklist fuel ctx (g_nodes (ctx_graph ctx)).

Definition infer_body (fuel : nat) (func : fid) (argtypes : list Ty) : K (PyVal * PyVal) :=
  let! c := atom get_cache in
  match lookup c func argtypes with
  | Some cached => ret cached
  | None =>
      let! ctx :=
        match lookup_ctx c func with
        | Some ctx => ret ctx
        | None =>
            let! ctx := atom (liftO (build_graph func (prog func))) in
            do! atom (set_ctxs func ctx) in
            ret ctx
        end in
      let! ctx := Context_copy ctx in
      let! ctx := seed_context ctx argtypes in
      do! infer_graph fuel ctx in
      let! a := atom (context_get ctx return_node) in
      let! typeset := atom (read_set a) in
      let! restype := atom (liftO (reduce promote typeset)) in
      let signature := Function restype argtypes in
      do! atom (set_typings func argtypes (VType signature, VContext ctx)) in
      ret (VContext ctx, VType signature)
  end.

End Resolver.

Fixpoint infer (fuel : nat) (func : fid) (argtypes : list Ty) : K (PyVal * PyVal) :=
  match fuel with
  | 0 => λ _, OutOfFuel
  | S fuel' => infer_body (infer fuel') fuel func argtypes
  end.

End Inference.

End Keep.

(** The run in [Keep.K] is the run in [M], with the state kept. *)
Definition agree {A} (mK : Keep.K A) (m : M A) : Prop :=
  ∀ st, Keep.forget (mK st) = m st.

(** Triples for [Keep.K]: [Q] holds when the run returns, and [E] holds of
    the state in which it raises. *)
Definition triple {A} (P : State → Prop) (m : Keep.K A)
    (Q : A → State → Prop) (E : State → Prop) : Prop :=
  ∀ st, P st →
    match m st with
    | Keep.Returned a st' => Q a st'
    | Keep.Raised _ st' => E st'
    | Keep.OutOfFuel => True
    end.

(** A run that only extends the state, also when it raises. *)
Definition keep_extends {A} (m : Keep.K A) : Prop :=
  ∀ st, triple (λ s, s = st) m (λ _, state_le st) (state_le st).
(** * Properties *)

(** ** Partial-correctness triples for the monad *)

Lemma bind_Done {A B} (m : M A) (k : A → M B) st r :
  bind m k st = Done r ↔ ∃ a st1, m st = Done (a, st1) ∧ k a st1 = Done r.
Proof.
  unfold bind. split.
  - destruct (m st) as [[a st1]| |]; try discriminate. eauto.
  - intros (a & st1 & -> & Hk). exact Hk.
Qed.

Lemma bind_Raise {A B} (m : M A) (k : A → M B) st e :
  m st = Raise e → bind m k st = Raise e.
Proof. unfold bind. intros ->. reflexivity. Qed.

Lemma bind_step {A B} (m : M A) (k : A → M B) st a st1 :
  m st = Done (a, st1) → bind m k st = k a st1.
Proof. unfold bind. intros ->. reflexivity. Qed.

Lemma hoare_bind {A B} (P : State → Prop) (Q : A → State → Prop) (R : B → State → Prop)
    (m : M A) (k : A → M B) :
  hoare P m Q → (∀ a, hoare (Q a) (k a) R) → hoare P (bind m k) R.
Proof.
  intros Hm Hk st b st' HP Hrun. apply bind_Done in Hrun as (a & st1 & Ha & Hb).
  eapply Hk; [eapply Hm|]; eauto.
Qed.

Lemma hoare_ret {A} (P : State → Prop) (Q : A → State → Prop) (a : A) :
  (∀ st, P st → Q a st) → hoare P (ret a) Q.
Proof. intros H st b st' HP [= <- <-]. auto. Qed.

Lemma hoare_raise {A} (P : State → Prop) (Q : A → State → Prop) e :
  hoare P (raise e) Q.
Proof. intros st b st' _ [=]. Qed.

Lemma hoare_conseq {A} (P P' : State → Prop) (Q Q' : A → State → Prop) (m : M A) :
  hoare P' m Q' → (∀ st, P st → P' st) → (∀ a st, Q' a st → Q a st) → hoare P m Q.
Proof. intros Hm HP HQ st a st' Hpre Hrun. eauto. Qed.

Lemma hoare_lift {A} (P : State → Prop) (Q : A → State → Prop) (o : option A) e :
  (∀ a st, o = Some a → P st → Q a st) → hoare P (lift o e) Q.
Proof. intros H. destruct o; [apply hoare_ret; eauto|apply hoare_raise]. Qed.

Lemma hoare_liftO {A} (P : State → Prop) (Q : A → State → Prop) (o : outcome A) :
  (∀ a st, o = Done a → P st → Q a st) → hoare P (liftO o) Q.
Proof. intros H st a st' HP. unfold liftO. destruct o; intros [= <- <-]; eauto. Qed.

Lemma hoare_pure {A} (P : State → Prop) (m : M A) :
  pure_step m → hoare P m (λ _, P).
Proof. intros Hm st a st' HP Hrun. apply Hm in Hrun as ->. exact HP. Qed.

Lemma for_list_hoare {A Acc} (I : Acc → State → Prop) (xs : list A)
    (body : A → Acc → M Acc) :
  (∀ x acc, x ∈ xs → hoare (I acc) (body x acc) I) →
  ∀ acc, hoare (I acc) (for_list xs body acc) I.
Proof.
  induction xs as [|x xs IH]; intros Hbody acc; simpl.
  - apply hoare_ret. auto.
  - eapply hoare_bind; [apply Hbody; left|].
    intros acc'. apply IH. intros y acc'' Hy. apply Hbody. by right.
Qed.

Lemma check_size_pure b n : pure_step (check_size b n).
Proof. intros st a st'. unfold check_size. case_decide; intros [=]. done. Qed.

Lemma iter_set_hoare {Acc} (I : Acc → State → Prop) b n (xs : TypeSet)
    (body : Ty → Acc → M Acc) :
  (∀ x acc, x ∈ xs → hoare (I acc) (body x acc) I) →
  ∀ acc, hoare (I acc) (iter_set b n xs body acc) I.
Proof.
  induction xs as [|x xs IH]; intros Hbody acc; simpl.
  - apply hoare_ret. auto.
  - eapply hoare_bind; [apply Hbody; left|]. intros acc'.
    eapply hoare_bind; [apply hoare_pure, check_size_pure|].
    intros ?. apply IH. intros y acc'' Hy. apply Hbody. by right.
Qed.

Lemma for_set_hoare {Acc} (I : Acc → State → Prop) b (body : Ty → Acc → M Acc) :
  (∀ x acc, hoare (I acc) (body x acc) I) →
  ∀ acc, hoare (I acc) (for_set b body acc) I.
Proof.
  intros Hbody acc st r st' HI Hrun. unfold for_set in Hrun.
  apply bind_Done in Hrun as (s & st1 & Hs & Hrun).
  unfold read_set in Hs. simplify_eq. eapply iter_set_hoare; eauto.
Qed.

(** ** How a run may change the heap *)

Lemma deref_ge h a : length h ≤ a → deref h a = [].
Proof. intros H. unfold deref. by rewrite lookup_ge_None_2. Qed.

Lemma prefix_lookup_lt (h h' : list TypeSet) b :
  h `prefix_of` h' → b < length h → h' !! b = h !! b.
Proof. intros [k ->] Hb. by rewrite lookup_app_l. Qed.

Lemma grows_at_refl a h : grows_at a h h.
Proof. repeat split; auto. Qed.

Lemma grows_at_trans a h1 h2 h3 :
  grows_at a h1 h2 → grows_at a h2 h3 → grows_at a h1 h3.
Proof.
  intros (L1 & F1 & G1) (L2 & F2 & G2). repeat split.
  - lia.
  - intros b Hb Hne. rewrite F2, F1; auto. lia.
  - by etrans.
Qed.

Lemma prefix_grows_at a (h h' : list TypeSet) : h `prefix_of` h' → grows_at a h h'.
Proof.
  intros Hp. repeat split.
  - by apply prefix_length.
  - intros b Hb _. by apply prefix_lookup_lt.
  - destruct (decide (a < length h)) as [Ha|Ha].
    + unfold deref. by rewrite (prefix_lookup_lt h h' a).
    + rewrite (deref_ge h a) by lia. apply prefix_nil.
Qed.

Lemma set_add_prefix t s : s `prefix_of` set_add t s.
Proof. unfold set_add. case_decide; [done|]. by apply prefix_app_r. Qed.

Lemma set_add_elem t s : t ∈ set_add t s.
Proof. unfold set_add. case_decide; [done|]. apply elem_of_app. right. by left. Qed.

Lemma deref_insert_eq h a s : a < length h → deref (<[a:=s]> h) a = s.
Proof. intros H. unfold deref. by rewrite list_lookup_insert_eq. Qed.

Lemma grows_at_add a t h : grows_at a h (<[a := set_add t (deref h a)]> h).
Proof.
  repeat split.
  - by rewrite length_insert.
  - intros b _ Hne. by rewrite list_lookup_insert_ne.
  - destruct (decide (a < length h)) as [Ha|Ha].
    + rewrite deref_insert_eq by done. apply set_add_prefix.
    + rewrite list_insert_ge by lia. done.
Qed.

(** Every set object, at whatever address, only gains members. *)
Lemma grows_at_mono a h h' b : grows_at a h h' → deref h b `prefix_of` deref h' b.
Proof.
  intros (L & F & G). destruct (decide (b = a)) as [->|Hne]; [done|].
  destruct (decide (b < length h)) as [Hb|Hb].
  - unfold deref. by rewrite F.
  - rewrite (deref_ge h b) by lia. apply prefix_nil.
Qed.

Lemma cache_le_refl c : cache_le c c.
Proof. by intros g t. Qed.

Lemma cache_le_trans c1 c2 c3 : cache_le c1 c2 → cache_le c2 c3 → cache_le c1 c3.
Proof. intros H1 H2 g t Hg. auto. Qed.

Lemma state_le_refl st : state_le st st.
Proof. split; [done|apply cache_le_refl]. Qed.

Lemma state_le_trans st1 st2 st3 : state_le st1 st2 → state_le st2 st3 → state_le st1 st3.
Proof.
  intros [H1 C1] [H2 C2]. split; [by etrans|by eapply cache_le_trans].
Qed.

Lemma visit_inv_le a st0 changed st st' :
  visit_inv a st0 changed st → state_le st st' → visit_inv a st0 changed st'.
Proof.
  intros (Hg & Hcache & Hc) [Hp Hle]. split; [|split].
  - eapply grows_at_trans; [done|by apply prefix_grows_at].
  - by eapply cache_le_trans.
  - intros Ha Hch. destruct (Hc Ha Hch) as (t & Ht & Hn). exists t. split; [|done].
    destruct Hg as (L & _). unfold deref in *.
    rewrite (prefix_lookup_lt (heap st) (heap st') a); [done|done|lia].
Qed.

Lemma add_result_inv a st0 t changed :
  hoare (visit_inv a st0 changed) (add_result a t changed) (visit_inv a st0).
Proof.
  intros st ch st' (Hg & Hcache & Hc) Hrun.
  unfold add_result, not_in, typeset_add, bind, ret in Hrun.
  injection Hrun as <- <-. split; [|split; [done|]].
  - eapply grows_at_trans; [done|apply grows_at_add].
  - intros Ha Hch. pose proof Hg as (L & _ & G). simpl.
    rewrite deref_insert_eq by lia.
    apply orb_true_iff in Hch as [->|Hfresh].
    + destruct (Hc Ha eq_refl) as (u & Hu & Hn). exists u. split; [|done].
      eapply elem_of_prefix; [exact Hu|apply set_add_prefix].
    + exists t. split; [apply set_add_elem|].
      apply negb_true_iff, bool_decide_eq_false in Hfresh.
      intros Hin. apply Hfresh. eapply elem_of_prefix; [exact Hin|exact G].
Qed.

(** ** Steps that only allocate *)

Lemma extends_bind {A B} (m : M A) (k : A → M B) :
  extends m → (∀ a, extends (k a)) → extends (bind m k).
Proof.
  intros Hm Hk st r st' Hrun. apply bind_Done in Hrun as (a & st1 & Ha & Hb).
  eapply state_le_trans; [eapply Hm|eapply Hk]; eauto.
Qed.

Lemma pure_extends {A} (m : M A) : pure_step m → extends m.
Proof. intros Hm st r st' Hrun. rewrite (Hm _ _ _ Hrun). apply state_le_refl. Qed.

Lemma ret_pure {A} (a : A) : pure_step (ret a).
Proof. by intros st r st' [= <- <-]. Qed.

Lemma raise_pure {A} e : pure_step (@raise A e).
Proof. by intros st r st' [=]. Qed.

Lemma lift_pure {A} (o : option A) e : pure_step (lift o e).
Proof. destruct o; [apply ret_pure|apply raise_pure]. Qed.

Lemma liftO_pure {A} (o : outcome A) : pure_step (liftO o).
Proof. intros st r st'. unfold liftO. destruct o; intros [=]; by subst. Qed.

Lemma read_set_pure a : pure_step (read_set a).
Proof. intros st r st' [=]; by subst. Qed.

Lemma not_in_pure a t : pure_step (not_in a t).
Proof. intros st r st' [=]; by subst. Qed.

Lemma get_cache_pure : pure_step get_cache.
Proof. intros st r st' [=]; by subst. Qed.

Lemma pure_bind {A B} (m : M A) (k : A → M B) :
  pure_step m → (∀ a, pure_step (k a)) → pure_step (bind m k).
Proof.
  intros Hm Hk st r st' Hrun. apply bind_Done in Hrun as (a & st1 & Ha & Hb).
  apply Hm in Ha as ->. by apply Hk in Hb.
Qed.

Lemma new_set_extends s : extends (new_set s).
Proof.
  intros st r st' [= <- <-]. split; simpl; [by apply prefix_app_r|apply cache_le_refl].
Qed.

Lemma set_typings_extends f args e : extends (set_typings f args e).
Proof. intros st r st' [= <- <-]. split; [done|]. by intros g t. Qed.

Lemma for_list_extends {A Acc} (xs : list A) (body : A → Acc → M Acc) acc :
  (∀ x acc, extends (body x acc)) → extends (for_list xs body acc).
Proof.
  intros Hbody. revert acc. induction xs as [|x xs IH]; intros acc; simpl.
  - apply pure_extends, ret_pure.
  - apply extends_bind; auto.
Qed.

Lemma hoare_extends {A} (m : M A) a st0 changed :
  extends m → hoare (visit_inv a st0 changed) m (λ _, visit_inv a st0 changed).
Proof. intros Hm st r st' Hinv Hrun. eapply visit_inv_le; [done|]. eapply Hm, Hrun. Qed.

Section Solver.

Variable prog : fid → IRFunction.
Variable fields : Ty → list (string * (Ty * Ty)).
Variable R : fid → list Ty → M (PyVal * PyVal).

(** The recursive inference of a callee leaves the caller's set objects
    alone. *)
Hypothesis R_extends : ∀ f args, extends (R f args).

Lemma infer_call_function_extends callee func_type arg_types :
  extends (infer_call_function R callee func_type arg_types).
Proof using R_extends.
  unfold infer_call_function.
  destruct func_type; try apply pure_extends, raise_pure;
    (apply extends_bind; [apply pure_extends, lift_pure|]; intros f';
     apply extends_bind; [apply R_extends|]; intros [ctx [c|t]];
     [apply pure_extends, raise_pure|];
     apply pure_extends, pure_bind; [apply liftO_pure|intros; apply liftO_pure]).
Qed.

Lemma infer_call_extends func func_type arg_types :
  extends (infer_call prog R func func_type arg_types).
Proof using R_extends.
  unfold infer_call. apply extends_bind; [apply pure_extends, liftO_pure|]. intros name.
  case_decide.
  - apply extends_bind; [apply pure_extends, liftO_pure|]. intros f'.
    apply extends_bind; [apply pure_extends, liftO_pure|]. intros self.
    apply infer_call_function_extends.
  - destruct func; try apply infer_call_function_extends;
      (apply pure_extends, pure_bind; [apply liftO_pure|]; intros;
       apply pure_bind; [apply liftO_pure|intros; apply ret_pure]).
Qed.

Lemma context_get_pure ctx n : pure_step (context_get ctx n).
Proof. apply lift_pure. Qed.

Lemma graph_predecessors_pure G n : pure_step (graph_predecessors G n).
Proof. unfold graph_predecessors. case_decide; [apply ret_pure|apply raise_pure]. Qed.


Lemma for_list_pure {A Acc} (xs : list A) (body : A → Acc → M Acc) acc :
  (∀ x acc, pure_step (body x acc)) → pure_step (for_list xs body acc).
Proof.
  intros Hbody. revert acc. induction xs as [|x xs IH]; intros acc; simpl.
  - apply ret_pure.
  - apply pure_bind; auto.
Qed.

Lemma visit_inv_refl a st : visit_inv a st false st.
Proof. split; [apply grows_at_refl|split; [apply cache_le_refl|done]]. Qed.

(** One visit of a node: the heap grows at the node's type set only, and
    [changed] reports a new member. *)
Lemma infer_node_inv ctx node st0 :
  hoare (λ st, st = st0) (infer_node prog fields R ctx node)
    (λ changed st,
       ∃ a, typeset_of ctx node (heap st0) = Some a ∧ visit_inv a st0 changed st).
Proof using R_extends.
  unfold infer_node.
  eapply hoare_bind with
    (Q := λ a st, typeset_of ctx node (heap st0) = Some a ∧ visit_inv a st0 false st).
  { intros st a st' -> Hrun.
    assert (Hctx : context_get ctx node st0 = Done (a, st') →
                   dict_get (ctx_context ctx) node = Some a ∧ visit_inv a st0 false st').
    { unfold context_get, lift. destruct (dict_get _ node); intros [=]; subst.
      split; [done|by apply visit_inv_refl]. }
    destruct node; try (by apply Hctx).
    injection Hrun as <- <-. split; [done|].
    eapply visit_inv_le; [apply visit_inv_refl|].
    split; simpl; [by apply prefix_app_r|apply cache_le_refl]. }
  intros a st changed st' [Ha Hinv] Hrun. exists a. split; [done|].
  revert st changed st' Hinv Hrun.
  match goal with
  | |- ∀ st changed st', _ → ?m st = _ → _ =>
      change (hoare (visit_inv a st0 false) m (visit_inv a st0))
  end.
  eapply hoare_bind; [apply hoare_pure, graph_predecessors_pure|]. intros incoming.
  repeat case_decide.
  - apply (for_list_hoare (visit_inv a st0)). intros neighbor changed _.
    eapply hoare_bind; [apply hoare_pure, context_get_pure|]. intros b.
    apply (for_set_hoare (visit_inv a st0)). intros t ch. apply add_result_inv.
  - apply (for_list_hoare (visit_inv a st0)). intros neighbor changed _.
    eapply hoare_bind; [apply hoare_pure, context_get_pure|]. intros b.
    apply (for_set_hoare (visit_inv a st0)). intros t ch. apply add_result_inv.
  - destruct incoming as [|neighbor [|]]; try apply hoare_raise.
    eapply hoare_bind; [apply hoare_pure, lift_pure|]. intros md.
    eapply hoare_bind;
      [apply hoare_pure; destruct md; [apply ret_pure|apply raise_pure]|]. intros attr.
    eapply hoare_bind; [apply hoare_pure, context_get_pure|]. intros b.
    apply (for_set_hoare (visit_inv a st0)). intros t ch. unfold infer_attr.
    eapply hoare_bind; [apply hoare_pure, liftO_pure|]. intros fs.
    eapply hoare_bind; [apply hoare_pure, liftO_pure|]. intros key.
    destruct (field_get fs key) as [[value result]|]; [|apply hoare_raise].
    eapply hoare_bind; [apply hoare_pure, liftO_pure|]. intros rname.
    apply add_result_inv.
  - eapply hoare_bind; [apply hoare_pure, lift_pure|]. intros md.
    destruct md as [attr|func args]; [apply hoare_raise|].
    eapply hoare_bind; [apply hoare_pure, liftO_pure|]. intros func'.
    eapply hoare_bind; [apply hoare_pure, context_get_pure|]. intros func_types.
    eapply hoare_bind; [apply hoare_pure, liftO_pure|]. intros args'.
    eapply hoare_bind.
    { apply hoare_pure, for_list_pure. intros x acc.
      apply pure_bind; [apply context_get_pure|intros; apply ret_pure]. }
    intros arg_typess.
    eapply hoare_bind with (Q := λ r st, visit_inv a st0 r.1 st);
      [|intros r; apply hoare_ret; auto].
    refine (for_set_hoare (λ (r : bool * list (Node * Ty * list Ty)) st,
                             visit_inv a st0 r.1 st) _ _ _ (false, [])).
    intros func_type acc.
    eapply hoare_bind.
    { apply hoare_pure, for_list_pure. intros x acc'.
      apply pure_bind; [apply read_set_pure|intros; apply ret_pure]. }
    intros pools.
    refine (for_list_hoare (λ (r : bool * list (Node * Ty * list Ty)) st,
                              visit_inv a st0 r.1 st) _ _ _ acc).
    intros arg_types [changed processed] _. case_decide; [apply hoare_ret; auto|].
    eapply hoare_bind; [apply hoare_extends, infer_call_extends|]. intros result.
    eapply hoare_bind; [apply add_result_inv|]. intros changed'.
    apply hoare_ret. auto.
  - apply hoare_raise.
Qed.

Lemma dict_get_values {K V} `{EqDecision K} (d : list (K * V)) k v :
  dict_get d k = Some v → v ∈ d.*2.
Proof.
  induction d as [|[k' v'] d IH]; simpl; [done|]. case_decide.
  - intros [= ->]. by left.
  - intros Hd. right. auto.
Qed.

Lemma solver_step_refl ctx st : solver_step ctx st st.
Proof. repeat split; auto. apply cache_le_refl. Qed.

Lemma solver_step_trans ctx st1 st2 st3 :
  solver_step ctx st1 st2 → solver_step ctx st2 st3 → solver_step ctx st1 st3.
Proof.
  intros (L1 & F1 & G1 & C1) (L2 & F2 & G2 & C2). repeat split.
  - lia.
  - intros b Hb Hn. rewrite F2, F1; auto. lia.
  - intros b. etrans; [apply G1|apply G2].
  - by eapply cache_le_trans.
Qed.

Lemma infer_node_step ctx node st changed st' :
  infer_node prog fields R ctx node st = Done (changed, st') →
  solver_step ctx st st'.
Proof using R_extends.
  intros Hrun.
  destruct (infer_node_inv ctx node st st changed st' eq_refl Hrun)
    as (a & Ha & (L & F & G) & Hcache & _).
  repeat split; [done| | |done].
  - intros b Hb Hn. apply F; [done|]. intros ->.
    destruct node; simpl in Ha;
      try (apply dict_get_values in Ha; contradiction).
    injection Ha as Ha. lia.
  - intros b. eapply grows_at_mono. repeat split; eauto.
Qed.

Lemma worklist_step fuel ctx W st r st' :
  worklist prog fields R fuel ctx W st = Done (r, st') →
  solver_step ctx st st'.
Proof using R_extends.
  revert W st. induction fuel as [|fuel IH]; intros [|node W] st; simpl;
    try (intros [=]; subst; apply solver_step_refl); try discriminate.
  intros Hrun. apply bind_Done in Hrun as (changed & st1 & Hn & Hrun).
  apply infer_node_step in Hn. eapply solver_step_trans; [exact Hn|].
  destruct changed; eapply IH; exact Hrun.
Qed.

End Solver.

(** ** Dictionaries *)

Lemma dict_get_set_eq {K V} `{EqDecision K} (d : list (K * V)) k v :
  dict_get (dict_set d k v) k = Some v.
Proof.
  induction d as [|[k' v'] d IH]; simpl.
  - by rewrite decide_True.
  - case_decide; simpl; [by rewrite decide_True|by rewrite decide_False].
Qed.

Lemma dict_get_set_ne {K V} `{EqDecision K} (d : list (K * V)) k k' v :
  k ≠ k' → dict_get (dict_set d k v) k' = dict_get d k'.
Proof.
  intros Hne. induction d as [|[k0 v0] d IH]; simpl.
  - by rewrite decide_False.
  - case_decide; simpl.
    + subst k0. by rewrite !decide_False.
    + case_decide; [done|exact IH].
Qed.

Lemma dict_set_values {K V} `{EqDecision K} (P : V → Prop) (d : list (K * V)) k v :
  Forall P d.*2 → P v → Forall P (dict_set d k v).*2.
Proof.
  intros Hd Hv. induction d as [|[k0 v0] d IH]; simpl.
  - by constructor.
  - apply Forall_cons in Hd as [H0 Hd]. case_decide; simpl; constructor; auto.
Qed.

Lemma prefix_of_lookup (h h' : list TypeSet) :
  length h ≤ length h' → (∀ b, b < length h → h' !! b = h !! b) → h `prefix_of` h'.
Proof.
  intros L F. exists (drop (length h) h'). apply list_eq. intros i.
  destruct (decide (i < length h)) as [Hi|Hi].
  - rewrite lookup_app_l by done. auto.
  - rewrite lookup_app_r by lia. rewrite lookup_drop. f_equal. lia.
Qed.

(** ** The frame of a whole inference *)

Section Frame.

Variable prog : fid → IRFunction.
Variable fields : Ty → list (string * (Ty * Ty)).
Variable promote : Ty → Ty → Ty.

Lemma set_ctxs_extends f ctx st r st' :
  lookup_ctx (cache st) f = None →
  set_ctxs f ctx st = Done (r, st') →
  state_le st st' ∧ lookup_ctx (cache st') f = Some ctx.
Proof.
  intros Hnone [= <- <-]. unfold lookup_ctx in *. simpl. split; [split; [done|]|].
  - intros g t Hg. unfold lookup_ctx in *. simpl.
    rewrite dict_get_set_ne; [done|]. intros ->. congruence.
  - apply dict_get_set_eq.
Qed.

Lemma copy_context_private st0 context :
  hoare (λ st, state_le st0 st) (copy_context context)
    (λ context' st, state_le st0 st ∧ Forall (λ a, length (heap st0) ≤ a) context'.*2).
Proof.
  unfold copy_context. intros st context' st' Hpre Hrun.
  refine (for_list_hoare
            (λ (acc : list (Node * nat)) st,
               state_le st0 st ∧ Forall (λ a, length (heap st0) ≤ a) acc.*2)
            _ _ _ [] st context' st' _ Hrun); [|split; [exact Hpre|constructor]].
  clear.     intros [binding type] acc _ st r st' [Hle Hacc] Hrun.
  unfold bind, read_set, new_set, ret in Hrun. injection Hrun as <- <-. split.
  - eapply state_le_trans; [exact Hle|].
    split; simpl; [by apply prefix_app_r|apply cache_le_refl].
  - rewrite fmap_app. apply Forall_app. split; [done|]. repeat constructor. simpl.
    destruct Hle as [Hp _]. by apply prefix_length.
Qed.

Lemma Context_copy_private st0 tmpl :
  hoare (λ st, state_le st0 st) (Context_copy tmpl)
    (λ ctx st, state_le st0 st ∧ private_bindings st0 ctx ∧ shares_template tmpl ctx).
Proof.
  unfold Context_copy. eapply hoare_bind; [apply copy_context_private|].
  intros context. apply hoare_ret. intros st [Hle Hp].
  split; [exact Hle|split; [exact Hp|by repeat split]].
Qed.

Lemma seed_context_private st0 tmpl ctx argtypes :
  hoare (λ st, state_le st0 st ∧ private_bindings st0 ctx ∧ shares_template tmpl ctx)
    (seed_context prog ctx argtypes)
    (λ ctx' st, state_le st0 st ∧ private_bindings st0 ctx' ∧ shares_template tmpl ctx').
Proof.
  unfold seed_context.
  refine (for_list_hoare
            (λ ctx' st,
               state_le st0 st ∧ private_bindings st0 ctx' ∧ shares_template tmpl ctx')
            _ _ _ ctx).
  intros [arg argtype] acc _ st r st' (Hle & Hp & Hs) Hrun.
  unfold bind, new_set, ret in Hrun. injection Hrun as <- <-. split; [|split].
  - eapply state_le_trans; [exact Hle|].
    split; simpl; [by apply prefix_app_r|apply cache_le_refl].
  - unfold private_bindings. simpl. apply dict_set_values; [exact Hp|].
    destruct Hle as [Hpre _]. by apply prefix_length.
  - exact Hs.
Qed.

Lemma solver_step_private st0 ctx st st' :
  state_le st0 st → private_bindings st0 ctx → solver_step ctx st st' → state_le st0 st'.
Proof.
  intros [Hp Hc] Hpriv (L & F & _ & C). split; [|by eapply cache_le_trans].
  pose proof (prefix_length _ _ Hp) as L0.
  apply prefix_of_lookup; [lia|]. intros b Hb.
  rewrite F; [by apply prefix_lookup_lt|lia|].
  intros Hin. unfold private_bindings in Hpriv. rewrite Forall_forall in Hpriv.
  apply Hpriv in Hin. lia.
Qed.

Lemma private_bindings_le st0 st1 ctx :
  state_le st0 st1 → private_bindings st1 ctx → private_bindings st0 ctx.
Proof.
  intros [Hp _] H. unfold private_bindings in *. eapply Forall_impl; [exact H|].
  simpl. intros a Ha. apply prefix_length in Hp. lia.
Qed.

Lemma infer_body_frame R fuel func argtypes st r st' :
  (∀ f args, extends (R f args)) →
  infer_body prog fields promote R fuel func argtypes st = Done (r, st') →
  state_le st st' ∧
  (lookup (cache st) func argtypes = None → cold_result st st' func argtypes r).
Proof.
  intros HR Hrun. unfold infer_body in Hrun.
  apply bind_Done in Hrun as (c & st1 & Hc & Hrun). injection Hc as <- <-.
  destruct (lookup (cache st) func argtypes) as [cached|] eqn:Hl.
  { injection Hrun as <- <-. split; [apply state_le_refl|discriminate]. }
  apply bind_Done in Hrun as (tmpl & st2 & Htmpl & Hrun).
  assert (state_le st st2 ∧ lookup_ctx (cache st2) func = Some tmpl) as [Hle2 Hlk2].
  { destruct (lookup_ctx (cache st) func) eqn:E.
    - injection Htmpl as <- <-. split; [apply state_le_refl|done].
    - apply bind_Done in Htmpl as (t & st1 & Hb & Htmpl).
      apply liftO_pure in Hb as ->.
      apply bind_Done in Htmpl as ([] & st1' & Hset & Hret).
      injection Hret as <- <-. eapply set_ctxs_extends; [exact E|exact Hset]. }
  apply bind_Done in Hrun as (ctx1 & st3 & Hcopy & Hrun).
  apply (Context_copy_private st2 tmpl) in Hcopy as (Hle3 & Hp3 & Hs3);
    [|apply state_le_refl].
  apply bind_Done in Hrun as (ctx2 & st4 & Hseed & Hrun).
  apply (seed_context_private st2 tmpl ctx1) in Hseed as (Hle4 & Hp4 & Hs4); [|done].
  apply bind_Done in Hrun as ([] & st5 & Hg & Hrun).
  unfold infer_graph in Hg. apply (worklist_step prog fields R HR) in Hg.
  pose proof (solver_step_private _ _ _ _ Hle4 Hp4 Hg) as Hle5.
  apply bind_Done in Hrun as (a & st6 & Ha & Hrun). apply context_get_pure in Ha as ->.
  apply bind_Done in Hrun as (typeset & st6 & Ha & Hrun). apply read_set_pure in Ha as ->.
  apply bind_Done in Hrun as (restype & st6 & Ha & Hrun). apply liftO_pure in Ha as ->.
  apply bind_Done in Hrun as ([] & st6 & Hset & Hret). injection Hret as <- <-.
  pose proof (set_typings_extends _ _ _ _ _ _ Hset) as Hle6.
  assert (Hle : state_le st2 st6) by (by eapply state_le_trans).
  split; [by eapply state_le_trans|]. intros _.
  exists tmpl, ctx2, (Function restype argtypes). split; [apply Hle, Hlk2|].
  split; [done|]. split; [done|]. split; [by eapply private_bindings_le|].
  injection Hset as <-. unfold lookup. simpl. apply dict_get_set_eq.
Qed.

Lemma infer_extends fuel func argtypes :
  extends (infer prog fields promote fuel func argtypes).
Proof.
  revert func argtypes. induction fuel as [|fuel IH]; intros func argtypes st r st' Hrun.
  - discriminate.
  - simpl in Hrun. by apply infer_body_frame in Hrun as [Hle _].
Qed.

(** [copy_context] on bindings that are allocated: the same keys, bound
    to new set objects holding the members of the originals. *)
Lemma copy_context_loop (context : list (Node * nat)) :
  ∀ (acc : list (Node * nat)) st,
  Forall (λ a, a < length (heap st)) context.*2 →
  for_list context
    (λ '(binding, type) (acc : list (Node * nat)),
       let! s := read_set type in
       let! a := new_set s in
       ret (acc ++ [(binding, a)]))
    acc st =
  Done (acc ++ zip context.*1 (seq (length (heap st)) (length context)),
        mkState (heap st ++ (deref (heap st) <$> context.*2)) (cache st)).
Proof.
  induction context as [|[n a] context IH]; intros acc st Hwf.
  - simpl. unfold ret. rewrite !app_nil_r. by destruct st.
  - rewrite !fmap_cons in *. apply Forall_cons in Hwf as [Ha Hwf].
    cbn [for_list length seq zip zip_with fst snd].
    rewrite (bind_step _ _ st (acc ++ [(n, length (heap st))])
               (mkState (heap st ++ [deref (heap st) a]) (cache st))) by reflexivity.
    rewrite IH.
    + cbn [heap cache]. rewrite length_app, Nat.add_1_r, <- !app_assoc.
      cbn [app]. do 5 f_equal. apply list_fmap_ext. intros i b Hb.
      apply list_elem_of_lookup_2 in Hb. rewrite Forall_forall in Hwf.
      apply Hwf in Hb. unfold deref. by rewrite lookup_app_l.
    + cbn [heap]. eapply Forall_impl; [exact Hwf|]. cbn beta.
      intros b Hb. rewrite length_app. lia.
Qed.

Lemma Context_copy_spec tmpl st :
  Forall (λ a, a < length (heap st)) (ctx_context tmpl).*2 →
  Context_copy tmpl st =
    Done (mkContext (ctx_func tmpl)
            (zip (ctx_context tmpl).*1
                 (seq (length (heap st)) (length (ctx_context tmpl))))
            (ctx_constraints tmpl) (ctx_graph tmpl) (ctx_metadata tmpl),
          mkState (heap st ++ (deref (heap st) <$> (ctx_context tmpl).*2)) (cache st)).
Proof.
  intros Hwf. unfold Context_copy.
  erewrite bind_step; [|unfold copy_context; apply (copy_context_loop _ [] st Hwf)].
  reflexivity.
Qed.

End Frame.

(** ** Seeding *)

Lemma zip_fst_take {A B} (l : list A) (k : list B) : (zip l k).*1 = take (length k) l.
Proof.
  revert k. induction l as [|x l IH]; intros [|y k]; simpl; try done. f_equal. apply IH.
Qed.

Lemma zip_snd_take {A B} (l : list A) (k : list B) : (zip l k).*2 = take (length l) k.
Proof.
  revert k. induction l as [|x l IH]; intros [|y k]; simpl; try done. f_equal. apply IH.
Qed.

Lemma zip_take_r {A B} (l : list A) (k : list B) : zip l (take (length l) k) = zip l k.
Proof.
  revert k. induction l as [|x l IH]; intros [|y k]; simpl; try done. f_equal. apply IH.
Qed.

Section Seeding.

Variable prog : fid → IRFunction.

(** The loop of [seed_context] over the pairs [ps] of a formal argument
    and a type: it cannot fail, allocates one singleton per pair in order,
    rebinds the formals of [ps] and touches nothing else. *)
Lemma seed_loop (ps : list (Node * Ty)) : ∀ ctx st,
  ∃ ctx',
    for_list ps
      (λ '(arg, argtype) ctx,
         let! a := new_set [argtype] in
         ret (with_context ctx (dict_set (ctx_context ctx) arg a)))
      ctx st =
    Done (ctx', mkState (heap st ++ ((λ p, [p.2]) <$> ps)) (cache st)) ∧
    shares_template ctx ctx' ∧
    (∀ n, n ∉ ps.*1 → dict_get (ctx_context ctx') n = dict_get (ctx_context ctx) n) ∧
    (∀ i arg t, ps !! i = Some (arg, t) → arg ∉ (drop (S i) ps).*1 →
                dict_get (ctx_context ctx') arg = Some (length (heap st) + i)).
Proof.
  induction ps as [|[arg0 t0] ps IH]; intros ctx st.
  - exists ctx. simpl. unfold ret. rewrite app_nil_r. split; [by destruct st|].
    split; [done|]. split; [done|]. intros i arg t Hi. by rewrite lookup_nil in Hi.
  - set (ctx1 := with_context ctx (dict_set (ctx_context ctx) arg0 (length (heap st)))).
    set (st1 := mkState (heap st ++ [[t0]]) (cache st)).
    destruct (IH ctx1 st1) as (ctx' & Hrun & Hs & Hother & Hseed).
    exists ctx'. split; [|split; [|split]].
    + cbn [for_list]. rewrite (bind_step _ _ st ctx1 st1) by reflexivity.
      rewrite Hrun. subst st1. cbn [heap cache]. rewrite fmap_cons, <- app_assoc. done.
    + destruct Hs as (H1 & H2 & H3 & H4). by repeat split.
    + intros n Hn. rewrite fmap_cons in Hn. apply not_elem_of_cons in Hn as [Hne Hn].
      rewrite (Hother n Hn). subst ctx1. simpl. by apply dict_get_set_ne.
    + intros [|i] arg t Hi Hlast.
      * injection Hi as <- <-. rewrite Nat.add_0_r. simpl in Hlast.
        rewrite (Hother arg0 Hlast). subst ctx1. simpl. apply dict_get_set_eq.
      * rewrite (Hseed i arg t Hi Hlast). subst st1. cbn [heap].
        rewrite length_app. simpl. f_equal. lia.
Qed.

End Seeding.

(** ** The attribute error *)

Section AttributeError.

Variable prog : fid → IRFunction.
Variable fields : Ty → list (string * (Ty * Ty)).
Variable R : fid → list Ty → M (PyVal * PyVal).

(** A candidate that has the field is processed: its result is added to
    the type set at [a], and nothing else changes. *)
Lemma infer_attr_has_field a attr type changed st :
  has_field prog fields attr type = true →
  ∃ result changed',
    infer_attr prog fields a (ANode attr) type changed st =
    Done (changed',
          mkState (<[a := set_add result (deref (heap st) a)]> (heap st)) (cache st)).
Proof.
  unfold has_field, infer_attr. intros H.
  destruct (get_fields fields type) as [fs| |] eqn:Hfs; try discriminate.
  destruct (field_get fs attr) as [[value result]|] eqn:Hf; try discriminate.
  destruct (get_name prog result) as [rname| |] eqn:Hn; try discriminate.
  unfold bind, liftO. simpl. rewrite Hf. rewrite Hn. eauto.
Qed.

Lemma infer_attr_lacks_field a attr type changed st :
  lacks_field fields attr type = true →
  infer_attr prog fields a (ANode attr) type changed st = Raise (InferError type attr).
Proof.
  unfold lacks_field, infer_attr. intros H.
  destruct (get_fields fields type) as [fs| |] eqn:Hfs; try discriminate.
  destruct (field_get fs attr) as [[value result]|] eqn:Hf; try discriminate.
  unfold bind, liftO. simpl. by rewrite Hf.
Qed.

(** The loop over the candidates stops at the first one that lacks the
    field. *)
Lemma iter_set_attr_raises a b n attr ty post (pre : list Ty) : ∀ changed st,
  a ≠ b →
  length (deref (heap st) b) = n →
  Forall (λ t, has_field prog fields attr t = true) pre →
  lacks_field fields attr ty = true →
  iter_set b n (pre ++ ty :: post) (infer_attr prog fields a (ANode attr)) changed st
  = Raise (InferError ty attr).
Proof.
  induction pre as [|x pre IH]; intros changed st Hne Hn Hpre Hty.
  - cbn [app iter_set]. apply bind_Raise. by apply infer_attr_lacks_field.
  - apply Forall_cons in Hpre as [Hx Hpre]. cbn [app iter_set].
    destruct (infer_attr_has_field a attr x changed st Hx) as (result & changed' & Hrun).
    rewrite (bind_step _ _ _ _ _ Hrun).
    assert (Hb : ∀ h : list (list Ty),
              deref (<[a := set_add result (deref h a)]> h) b = deref h b).
    { intros h. unfold deref. by rewrite list_lookup_insert_ne. }
    set (st1 := mkState (<[a := set_add result (deref (heap st) a)]> (heap st)) (cache st)).
    assert (Hb1 : deref (heap st1) b = deref (heap st) b) by apply Hb.
    rewrite (bind_step _ _ st1 tt st1)
      by (unfold check_size; rewrite Hb1; by rewrite decide_True).
    apply IH; [done| |done|done]. by rewrite Hb1.
Qed.

Lemma infer_node_attr_raises ctx node neighbor attr a b st pre ty post :
  dict_get (ctx_constraints ctx) node = Some "attr" →
  node ∈ g_nodes (ctx_graph ctx) →
  predecessors (ctx_graph ctx) node = [neighbor] →
  dict_get (ctx_metadata ctx) node = Some (MetaAttr (ANode attr)) →
  typeset_of ctx node (heap st) = Some a →
  dict_get (ctx_context ctx) neighbor = Some b →
  a ≠ b →
  deref (heap st) b = pre ++ ty :: post →
  Forall (λ t, has_field prog fields attr t = true) pre →
  lacks_field fields attr ty = true →
  infer_node prog fields R ctx node st = Raise (InferError ty attr).
Proof.
    intros HC Hnode Hin Hmd Ha Hb Hne Hset Hpre Hty.
  assert (Hlt : b < length (heap st)).
  { destruct (decide (b < length (heap st))) as [|Hge]; [done|].
    rewrite deref_ge in Hset by lia. by destruct pre. }
  assert (Hloop : ∀ st1, deref (heap st1) b = deref (heap st) b →
            for_set b (infer_attr prog fields a (ANode attr)) false st1
            = Raise (InferError ty attr)).
  { intros st1 Hsame. unfold for_set.
    rewrite (bind_step _ _ st1 (pre ++ ty :: post) st1)
      by (unfold read_set; by rewrite Hsame, Hset).
    apply iter_set_attr_raises; [done| |done|done].
    by rewrite Hsame, Hset. }
    unfold infer_node. rewrite HC, Hmd. cbn [from_option id].
  assert (Hfirst : ∃ st1,
            match node with
            | NType t => new_set [t]
            | _ => context_get ctx node
            end st = Done (a, st1) ∧ deref (heap st1) b = deref (heap st) b).
  { destruct node; simpl in Ha;
      try (exists st; unfold context_get; by rewrite Ha).
    injection Ha as <-. eexists. split; [reflexivity|].
    cbn [heap]. unfold deref. by rewrite lookup_app_l. }
  destruct Hfirst as (st1 & Hfirst & Hsame).
    rewrite (bind_step _ _ _ _ _ Hfirst). cbv beta.
  rewrite (bind_step _ _ st1 [neighbor] st1)
    by (unfold graph_predecessors; rewrite decide_True by done; by rewrite Hin).
  cbv beta.
  rewrite (decide_False (P := "attr" = "pointer")) by done.
  rewrite (decide_False (P := "attr" = "flow")) by done.
  rewrite (decide_True (P := "attr" = "attr")) by done.
  rewrite (bind_step _ _ st1 (MetaAttr (ANode attr)) st1) by reflexivity. cbv beta iota.
  rewrite (bind_step _ _ st1 (ANode attr) st1) by reflexivity.
  rewrite (bind_step _ _ st1 b st1) by (unfold context_get; by rewrite Hb).
  by apply Hloop.
Qed.

End AttributeError.

(** ** Computations that return *)

Lemma returns_bind {A B} (m : M A) (k : A → M B) :
  returns m → (∀ a, returns (k a)) → returns (bind m k).
Proof.
  intros Hm Hk st. unfold bind. destruct (m st) as [[a st1]| |] eqn:E; [apply Hk|done|].
  by apply Hm in E.
Qed.

Lemma returns_ret {A} (a : A) : returns (ret a).
Proof. by intros st. Qed.

Lemma returns_raise {A} e : returns (@raise A e).
Proof. by intros st. Qed.

Lemma returns_lift {A} (o : option A) e : returns (lift o e).
Proof. destruct o; [apply returns_ret|apply returns_raise]. Qed.

Lemma returns_liftO {A} (o : outcome A) : o ≠ Diverge → returns (liftO o).
Proof. intros Ho st. unfold liftO. by destruct o. Qed.

Lemma returns_add_result a t changed : returns (add_result a t changed).
Proof. by intros st. Qed.

Lemma returns_for_list {A Acc} (xs : list A) (body : A → Acc → M Acc) acc :
  (∀ x acc, returns (body x acc)) → returns (for_list xs body acc).
Proof.
  intros Hbody. revert acc. induction xs as [|x xs IH]; intros acc; simpl.
  - apply returns_ret.
  - apply returns_bind; auto.
Qed.

Lemma returns_check_size b n : returns (check_size b n).
Proof. intros st. unfold check_size. by case_decide. Qed.

Lemma returns_iter_set {Acc} b n (xs : list Ty) (body : Ty → Acc → M Acc) acc :
  (∀ x acc, returns (body x acc)) → returns (iter_set b n xs body acc).
Proof.
  intros Hbody. revert acc. induction xs as [|x xs IH]; intros acc; simpl.
  - apply returns_ret.
  - apply returns_bind; [auto|]. intros acc'.
    apply returns_bind; [apply returns_check_size|auto].
Qed.

Lemma returns_for_set {Acc} b (body : Ty → Acc → M Acc) acc :
  (∀ x acc, returns (body x acc)) → returns (for_set b body acc).
Proof.
  intros Hbody. unfold for_set. apply returns_bind; [by intros st|].
  intros s. by apply returns_iter_set.
Qed.

Lemma index_returns {A} (l : list A) i : index l i ≠ Diverge.
Proof. unfold index, olift. by destruct (l !! i). Qed.

Lemma as_key_returns a : as_key a ≠ Diverge.
Proof. by destruct a. Qed.

Lemma as_iter_returns a : as_iter a ≠ Diverge.
Proof. by destruct a. Qed.

(** ** Counting what a type set can still gain *)

Lemma missing_mono U s s' : s ⊆ s' → missing U s' ≤ missing U s.
Proof.
  intros Hs. unfold missing. induction U as [|u U IH]; [done|].
  rewrite !filter_cons. cbv beta.
  destruct (decide (u ∉ s')) as [Hu'|Hu'], (decide (u ∉ s)) as [Hu|Hu]; simpl; try lia.
  exfalso. apply Hu'. apply Hs. destruct (decide (u ∈ s)); [done|contradiction].
Qed.

Lemma missing_strict U s s' t :
  s ⊆ s' → t ∈ U → t ∈ s' → t ∉ s → missing U s' < missing U s.
Proof.
  intros Hs HU Ht' Ht. unfold missing. induction U as [|u U IH]; [by apply elem_of_nil in HU|].
  pose proof (missing_mono U s s' Hs) as Hmono. unfold missing in Hmono.
  rewrite !filter_cons. cbv beta.
  destruct (decide (u ∉ s')) as [Hu'|Hu'], (decide (u ∉ s)) as [Hu|Hu]; simpl.
  - apply elem_of_cons in HU as [->|HU]; [contradiction|]. specialize (IH HU). lia.
  - exfalso. apply Hu'. apply Hs. destruct (decide (u ∈ s)); [done|contradiction].
  - lia.
  - apply elem_of_cons in HU as [->|HU]; [contradiction|]. specialize (IH HU). lia.
Qed.

Lemma sum_list_fmap_le {A} (f g : A → nat) (l : list A) :
  (∀ a, g a ≤ f a) → sum_list (g <$> l) ≤ sum_list (f <$> l).
Proof.
  intros Hle. induction l as [|x l IH]; csimpl; [done|]. specialize (Hle x). lia.
Qed.

Lemma sum_list_fmap_lt {A} (f g : A → nat) (l : list A) x :
  (∀ a, g a ≤ f a) → x ∈ l → g x < f x → sum_list (g <$> l) < sum_list (f <$> l).
Proof.
  intros Hle Hx Hlt. induction l as [|y l IH]; [by apply elem_of_nil in Hx|].
  csimpl. pose proof (sum_list_fmap_le f g l Hle) as Hl.
  apply elem_of_cons in Hx as [<-|Hx].
  - lia.
  - specialize (IH Hx). specialize (Hle y). lia.
Qed.

Lemma prefix_subseteq (s s' : list Ty) : s `prefix_of` s' → s ⊆ s'.
Proof. intros Hp t Ht. eapply elem_of_prefix; [exact Ht|exact Hp]. Qed.

(** ** Termination of the worklist loop *)

Section Termination.

Variable prog : fid → IRFunction.
Variable fields : Ty → list (string * (Ty * Ty)).
Variable R : fid → list Ty → M (PyVal * PyVal).

Hypothesis R_extends : ∀ f args, extends (R f args).

(** The recursive inference of a callee returns. *)
Hypothesis R_returns : ∀ f args, returns (R f args).

Lemma get_name_returns v : get_name prog v ≠ Diverge.
Proof. by destruct v. Qed.

Lemma get_params_returns v : get_params v ≠ Diverge.
Proof. by destruct v. Qed.

Lemma get_fields_returns v : get_fields fields v ≠ Diverge.
Proof. by destruct v. Qed.

Lemma getitem_returns v i : getitem v i ≠ Diverge.
Proof. destruct v; try done. apply index_returns. Qed.

Lemma infer_call_function_returns callee func_type arg_types :
  returns (infer_call_function R callee func_type arg_types).
Proof using R_returns.
  unfold infer_call_function.
  destruct func_type; try apply returns_raise;
    (apply returns_bind; [apply returns_lift|]; intros f';
     apply returns_bind; [apply R_returns|]; intros [ctx [c|t]];
     [apply returns_raise|];
     apply returns_bind; [apply returns_liftO, get_params_returns|]; intros;
     apply returns_liftO, index_returns).
Qed.

Lemma infer_call_returns func func_type arg_types :
  returns (infer_call prog R func func_type arg_types).
Proof using R_returns.
  unfold infer_call. apply returns_bind; [apply returns_liftO, get_name_returns|].
  intros name. case_decide.
  - apply returns_bind; [apply returns_liftO, getitem_returns|]. intros f'.
    apply returns_bind; [apply returns_liftO, getitem_returns|]. intros self.
    apply infer_call_function_returns.
  - destruct func; try apply infer_call_function_returns;
      (apply returns_bind; [apply returns_liftO, get_params_returns|]; intros;
       apply returns_bind; [apply returns_liftO, index_returns|intros; apply returns_ret]).
Qed.

Lemma infer_attr_returns a attr type changed :
  returns (infer_attr prog fields a attr type changed).
Proof.
  unfold infer_attr. apply returns_bind; [apply returns_liftO, get_fields_returns|].
  intros fs. apply returns_bind; [apply returns_liftO, as_key_returns|]. intros key.
  destruct (field_get fs key) as [[value result]|]; [|apply returns_raise].
  apply returns_bind; [apply returns_liftO, get_name_returns|]. intros rname.
  apply returns_add_result.
Qed.

(** A visit of a node returns or raises. *)
Lemma infer_node_returns ctx node : returns (infer_node prog fields R ctx node).
Proof using R_returns.
  unfold infer_node. apply returns_bind.
    { destruct node; try apply returns_lift. by intros st. }
  intros a. apply returns_bind.
  { unfold graph_predecessors. case_decide; [apply returns_ret|apply returns_raise]. }
  intros incoming. repeat case_decide.
  - apply returns_for_list. intros neighbor changed.
    apply returns_bind; [apply returns_lift|]. intros b.
    apply returns_for_set. intros t ch. apply returns_add_result.
  - apply returns_for_list. intros neighbor changed.
    apply returns_bind; [apply returns_lift|]. intros b.
    apply returns_for_set. intros t ch. apply returns_add_result.
  - destruct incoming as [|neighbor [|]]; try apply returns_raise.
    apply returns_bind; [apply returns_lift|]. intros md.
    apply returns_bind; [destruct md; [apply returns_ret|apply returns_raise]|].
    intros attr. apply returns_bind; [apply returns_lift|]. intros b.
    apply returns_for_set. intros t ch. apply infer_attr_returns.
  - apply returns_bind; [apply returns_lift|]. intros md.
    destruct md as [attr|func args]; [apply returns_raise|].
    apply returns_bind; [apply returns_liftO, as_key_returns|]. intros func'.
    apply returns_bind; [apply returns_lift|]. intros func_types.
    apply returns_bind; [apply returns_liftO, as_iter_returns|]. intros args'.
    apply returns_bind.
    { apply returns_for_list. intros x acc.
      apply returns_bind; [apply returns_lift|intros; apply returns_ret]. }
    intros arg_typess. apply returns_bind; [|intros; apply returns_ret].
    apply returns_for_set. intros func_type acc. apply returns_bind.
    { apply returns_for_list. intros x acc'.
      apply returns_bind; [by intros st|intros; apply returns_ret]. }
    intros pools. apply returns_for_list. intros arg_types [changed processed].
    case_decide; [apply returns_ret|].
    apply returns_bind; [apply infer_call_returns|]. intros result.
    apply returns_bind; [apply returns_add_result|]. intros; apply returns_ret.
  - apply returns_raise.
Qed.

(** A Type literal that is a source never reports a change. *)
Lemma infer_node_literal ctx t st changed st' :
  literals_are_sources ctx →
  infer_node prog fields R ctx (NType t) st = Done (changed, st') →
  changed = false.
Proof.
    intros Hlit Hrun. destruct (Hlit t) as [Hc Hp].
  unfold infer_node in Hrun. rewrite Hc in Hrun. cbn [from_option id] in Hrun.
  apply bind_Done in Hrun as (a & st1 & _ & Hrun).
  apply bind_Done in Hrun as (incoming & st2 & Hg & Hrun).
      unfold graph_predecessors, raise in Hg.
  destruct (decide (NType t ∈ g_nodes (ctx_graph ctx))); [|discriminate].
    rewrite Hp in Hg. unfold ret in Hg. injection Hg as <- <-.
  rewrite (decide_False (P := "flow" = "pointer")) in Hrun by done.
  rewrite (decide_True (P := "flow" = "flow")) in Hrun by done.
  by injection Hrun as <- _.
Qed.

Lemma allocated_le ctx st st' :
  length (heap st) ≤ length (heap st') → allocated ctx st → allocated ctx st'.
Proof.
  intros L H. unfold allocated in *. eapply Forall_impl; [exact H|]. simpl. intros; lia.
Qed.

(** A visit never gives room back, and a visit that reports a change
    uses up some of it. *)
Lemma visit_capacity U ctx node st changed st' :
  allocated ctx st →
  literals_are_sources ctx →
  bounded U ctx st' →
  infer_node prog fields R ctx node st = Done (changed, st') →
  capacity U ctx (heap st') + (if changed then 1 else 0) ≤ capacity U ctx (heap st).
Proof using R_extends.
  intros Halloc Hlit Hb Hrun.
  destruct (infer_node_inv prog fields R R_extends ctx node st st changed st' eq_refl Hrun)
    as (a & Ha & Hg & _ & Hch).
  assert (Hmono : ∀ b, missing U (deref (heap st') b) ≤ missing U (deref (heap st) b)).
  { intros b. apply missing_mono, prefix_subseteq. by eapply grows_at_mono. }
  unfold capacity. destruct changed.
  - assert (Hnode : dict_get (ctx_context ctx) node = Some a).
    { destruct node; try exact Ha. by apply infer_node_literal in Hrun. }
    pose proof (dict_get_values _ _ _ Hnode) as Hin.
    assert (Hlt : a < length (heap st)).
    { unfold allocated in Halloc. rewrite Forall_forall in Halloc. by apply Halloc. }
    destruct (Hch Hlt eq_refl) as (t & Ht' & Ht).
    pose proof (sum_list_fmap_lt
                  (λ b, missing U (deref (heap st) b))
                  (λ b, missing U (deref (heap st') b))
                  (ctx_context ctx).*2 a Hmono Hin) as Hlt'.
    cbv beta in Hlt'. rewrite Nat.add_1_r. apply Hlt'.
    apply (missing_strict U _ _ t); [|by eapply Hb|done|done].
    apply prefix_subseteq. by eapply grows_at_mono.
  - rewrite Nat.add_0_r. by apply sum_list_fmap_le.
Qed.

Lemma visits_allocated ctx st0 st :
  visits prog fields R ctx st0 st → allocated ctx st0 → allocated ctx st.
Proof using R_extends.
  induction 1 as [st|st1 st2 node changed st3 _ IH Hn]; [done|]. intros H.
  apply (infer_node_step prog fields R R_extends) in Hn as (L & _).
  eapply allocated_le; [exact L|auto].
Qed.

Lemma neighbors_length G n : length (neighbors G n) ≤ length (g_edges G).
Proof. unfold neighbors. rewrite length_fmap. apply length_filter. Qed.

Lemma appendleft_length (W : list Node) ns :
  length (foldl (λ W neighbor, neighbor :: W) W ns) = length ns + length W.
Proof.
  revert W. induction ns as [|n ns IH]; intros W; simpl; [done|]. rewrite IH. simpl. lia.
Qed.

(** The worklist loop stops within [length W + (edges + 1) * capacity]
    iterations. *)
Lemma worklist_returns U ctx st0 fuel : ∀ W st,
  literals_are_sources ctx →
  (∀ st, visits prog fields R ctx st0 st → bounded U ctx st) →
  visits prog fields R ctx st0 st →
  allocated ctx st →
  length W + (length (g_edges (ctx_graph ctx)) + 1) * capacity U ctx (heap st) < fuel →
  worklist prog fields R fuel ctx W st ≠ Diverge.
Proof using R_extends R_returns.
  induction fuel as [|fuel IH]; intros W st Hlit Hbound Hv Halloc Hfuel; [lia|].
  destruct W as [|node W]; [done|]. cbn [worklist]. unfold bind.
  destruct (infer_node prog fields R ctx node st) as [[changed st']| |] eqn:Hn; [|done|].
  - assert (Hv' : visits prog fields R ctx st0 st') by (eapply visits_step; eauto).
    pose proof (visit_capacity U ctx node st changed st' Halloc Hlit (Hbound _ Hv') Hn)
      as Hcap.
    assert (Halloc' : allocated ctx st').
    { apply (infer_node_step prog fields R R_extends) in Hn as (L & _).
      by eapply allocated_le. }
    pose proof (neighbors_length (ctx_graph ctx) node) as Hdeg.
    set (E := length (g_edges (ctx_graph ctx))) in *.
    destruct changed; apply IH; try done.
    + rewrite appendleft_length. cbn [length] in Hfuel.
      assert ((E + 1) * (capacity U ctx (heap st') + 1) ≤ (E + 1) * capacity U ctx (heap st))
        by (apply Nat.mul_le_mono_l; lia).
      lia.
    + cbn [length] in Hfuel.
      assert ((E + 1) * capacity U ctx (heap st') ≤ (E + 1) * capacity U ctx (heap st))
        by (apply Nat.mul_le_mono_l; lia).
      lia.
  - by apply infer_node_returns in Hn.
Qed.

End Termination.

(** ** Flow-only graphs stay within the types they start with *)

Lemma for_set_hoare_elem {Acc} (I : Acc → State → Prop) (Φ : Ty → Prop) b
    (body : Ty → Acc → M Acc) :
  (∀ acc st x, I acc st → x ∈ deref (heap st) b → Φ x) →
  (∀ x acc, Φ x → hoare (I acc) (body x acc) I) →
  ∀ acc, hoare (I acc) (for_set b body acc) I.
Proof.
  intros HΦ Hbody acc st r st' HI Hrun. unfold for_set in Hrun.
  apply bind_Done in Hrun as (s & st1 & Hs & Hrun).
  unfold read_set in Hs. simplify_eq.
  eapply iter_set_hoare; [|exact HI|exact Hrun].
  intros x acc' Hx. apply Hbody. eapply HΦ; [exact HI|exact Hx].
Qed.

Section FlowGraphs.

Variable prog : fid → IRFunction.
Variable fields : Ty → list (string * (Ty * Ty)).
Variable R : fid → list Ty → M (PyVal * PyVal).
Variable U : list Ty.
Variable ctx : InferContext.

(** No node has a constraint of its own: every node is a ['flow'] node. *)
Hypothesis flow_only : ∀ n, dict_get (ctx_constraints ctx) n = None.

Lemma flow_add_bounded a t changed :
  t ∈ U →
  hoare (λ st, allocated ctx st ∧ bounded U ctx st) (add_result a t changed)
        (λ _ st, allocated ctx st ∧ bounded U ctx st).
Proof.
  intros Ht st ch st' [Halloc Hb] Hrun.
  unfold add_result, not_in, typeset_add, bind, ret in Hrun. injection Hrun as _ <-.
  split.
  - unfold allocated in *. cbn [heap]. by rewrite length_insert.
  - intros n a' Hn. cbn [heap]. destruct (decide (a' = a)) as [->|Hne].
    + destruct (decide (a < length (heap st))) as [Hlt|Hge].
      * rewrite deref_insert_eq by done. unfold set_add. case_decide; [by eapply Hb|].
        intros x Hx. apply elem_of_app in Hx as [Hx|Hx]; [by eapply Hb|].
        apply list_elem_of_singleton in Hx as ->. done.
      * rewrite list_insert_ge by lia. by eapply Hb.
    + unfold deref. rewrite list_lookup_insert_ne by done. by eapply Hb.
Qed.

Lemma flow_visit_bounded node st changed st' :
  allocated ctx st → bounded U ctx st →
  infer_node prog fields R ctx node st = Done (changed, st') →
  allocated ctx st' ∧ bounded U ctx st'.
Proof using flow_only.
  intros Halloc Hb Hrun. unfold infer_node in Hrun. rewrite flow_only in Hrun.
  cbn [from_option id] in Hrun.
    apply bind_Done in Hrun as (a & st1 & Hfirst & Hrun).
  apply bind_Done in Hrun as (incoming & st2 & Hg & Hrun).
  apply graph_predecessors_pure in Hg as ->.
  rewrite (decide_False (P := "flow" = "pointer")) in Hrun by done.
  rewrite (decide_True (P := "flow" = "flow")) in Hrun by done.
  assert (H1 : allocated ctx st1 ∧ bounded U ctx st1).
  { destruct node;
      try (unfold context_get in Hfirst; apply lift_pure in Hfirst as ->; by split).
    injection Hfirst as _ <-. split.
    - eapply allocated_le; [|exact Halloc]. cbn [heap]. rewrite length_app. lia.
    - intros n b Hn. cbn [heap]. unfold deref. rewrite lookup_app_l; [by eapply Hb|].
      apply dict_get_values in Hn. unfold allocated in Halloc.
      rewrite Forall_forall in Halloc. by apply Halloc. }
  revert Hrun.
  refine (for_list_hoare (λ (_ : bool) st, allocated ctx st ∧ bounded U ctx st)
            _ _ _ false st1 changed st' H1).
  intros neighbor ch _.
  eapply hoare_bind with
    (Q := λ b st, (allocated ctx st ∧ bounded U ctx st)
                  ∧ dict_get (ctx_context ctx) neighbor = Some b).
  { apply hoare_lift. intros b st2 Hb2 H2. by split. }
  intros b st2 r st3 [H2 Hb2] Hloop. revert Hloop.
  refine (for_set_hoare_elem (λ (_ : bool) st, allocated ctx st ∧ bounded U ctx st)
            (λ t, t ∈ U) b _ _ _ ch st2 r st3 H2).
  - intros acc st4 x [_ Hb4] Hx. by eapply Hb4.
  - intros x acc Hx. by apply flow_add_bounded.
Qed.

(** The types of a flow-only graph never leave the universe they start
    in. *)
Lemma flow_visits_bounded st0 st :
  allocated ctx st0 → bounded U ctx st0 →
  visits prog fields R ctx st0 st →
  allocated ctx st ∧ bounded U ctx st.
Proof using flow_only.
  intros Halloc Hb Hv.
  induction Hv as [st|st1 st2 node changed st3 _ IH Hn]; [done|].
  destruct (IH Halloc Hb) as [H1 H2]. by eapply flow_visit_bounded.
Qed.

End FlowGraphs.

(** ** Small facts for the statements below *)

Lemma finished_returns {A} (o : outcome A) : o ≠ Diverge → finished o.
Proof. by destruct o. Qed.

(** The first candidate, in iteration order, that lacks the field. *)
Lemma first_lacking (P Q : Ty → bool) (l : list Ty) ty :
  Forall (λ t, P t || Q t = true) l → ty ∈ l → Q ty = true →
  ∃ pre ty' post, l = pre ++ ty' :: post ∧ Forall (λ t, P t = true) pre ∧ Q ty' = true.
Proof.
  induction l as [|x l IH]; intros Hall Hin Hty; [by apply elem_of_nil in Hin|].
  apply Forall_cons in Hall as [Hx Hall].
  destruct (Q x) eqn:HQ.
  - exists [], x, l. by repeat split.
  - rewrite orb_false_r in Hx. apply elem_of_cons in Hin as [->|Hin]; [congruence|].
    destruct (IH Hall Hin Hty) as (pre & ty' & post & -> & Hpre & Hty').
    exists (x :: pre), ty', post. split; [done|]. split; [by constructor|done].
Qed.

Lemma bounded_Forall U ctx st :
  Forall (λ a, deref (heap st) a ⊆ U) (ctx_context ctx).*2 → bounded U ctx st.
Proof.
  intros H n a Hn. rewrite Forall_forall in H. apply H. by eapply dict_get_values.
Qed.

(** ** What a run can observe *)

Section Lockstep.

Variable A : list nat.
Variable n0 : nat.

Lemma lockstep_bind {X Y} (Φ : X → Prop) (m : M X) (k : X → M Y) :
  lockstep A n0 m →
  (∀ st1 st2 x st', sim A n0 st1 st2 → m st1 = Done (x, st') → Φ x) →
  (∀ x, Φ x → lockstep A n0 (k x)) →
  lockstep A n0 (bind m k).
Proof.
  intros Hm HΦ Hk st1 st2 Hs. unfold bind. pose proof (Hm st1 st2 Hs) as H.
    destruct (m st1) as [[x1 s1]| |] eqn:E1, (m st2) as [[x2 s2]| |] eqn:E2;
    simpl in *; try done.
  destruct H as [<- Hs']. apply Hk; [exact (HΦ st1 st2 x1 s1 Hs E1)|done].
Qed.

Lemma lockstep_seq {X Y} (m : M X) (k : X → M Y) :
  lockstep A n0 m → (∀ x, lockstep A n0 (k x)) → lockstep A n0 (bind m k).
Proof. intros Hm Hk. apply (lockstep_bind (λ _, True)); auto. Qed.

Lemma lockstep_liftO {X} (o : outcome X) : lockstep A n0 (liftO o).
Proof. intros st1 st2 Hs. unfold liftO. by destruct o. Qed.

Lemma lockstep_ret {X} (x : X) : lockstep A n0 (ret x).
Proof. by intros st1 st2 Hs. Qed.

Lemma lockstep_raise {X} e : lockstep A n0 (@raise X e).
Proof. by intros st1 st2 Hs. Qed.

Lemma lockstep_lift {X} (o : option X) e : lockstep A n0 (lift o e).
Proof. destruct o; [apply lockstep_ret|apply lockstep_raise]. Qed.

Lemma sim_deref st1 st2 a :
  sim A n0 st1 st2 → agreed A n0 a → deref (heap st1) a = deref (heap st2) a.
Proof. intros (_ & _ & _ & _ & H) Ha. unfold deref. by rewrite H. Qed.

Lemma lockstep_read_set a : agreed A n0 a → lockstep A n0 (read_set a).
Proof. intros Ha st1 st2 Hs. split; [by apply sim_deref|done]. Qed.

Lemma lockstep_not_in a t : agreed A n0 a → lockstep A n0 (not_in a t).
Proof.
  intros Ha st1 st2 Hs. unfold not_in. rewrite (sim_deref st1 st2 a Hs Ha). by split.
Qed.

Lemma lockstep_check_size b n : agreed A n0 b → lockstep A n0 (check_size b n).
Proof.
  intros Hb st1 st2 Hs. unfold check_size. rewrite (sim_deref st1 st2 b Hs Hb).
  by case_decide.
Qed.

Lemma lockstep_get_cache : lockstep A n0 get_cache.
Proof. intros st1 st2 Hs. split; [apply Hs|done]. Qed.

Lemma lockstep_typeset_add a t : agreed A n0 a → lockstep A n0 (typeset_add a t).
Proof.
  intros Ha st1 st2 Hs. pose proof (sim_deref st1 st2 a Hs Ha) as Hd.
  destruct Hs as (Hc & Hl & Hn & Ht & Hh). split; [done|].
  split; [done|]. cbn [heap cache]. rewrite !length_insert.
  split; [done|]. split; [done|]. split; [done|].
  intros a' Ha'. rewrite Hd. destruct (decide (a' = a)) as [->|Hne].
  - destruct (decide (a < length (heap st1))) as [Hlt|Hge].
    + rewrite !list_lookup_insert_eq by lia. done.
    + rewrite !list_insert_ge by lia. by apply Hh.
  - rewrite !list_lookup_insert_ne by done. by apply Hh.
Qed.

Lemma lockstep_new_set s : lockstep A n0 (new_set s).
Proof.
  intros st1 st2 (Hc & Hl & Hn & Ht & Hh). split; [done|].
  split; [done|]. cbn [heap cache]. rewrite !length_app.
  split; [lia|]. split; [lia|]. split; [done|].
  intros a Ha. destruct (decide (a < length (heap st1))) as [Hlt|Hge].
  - rewrite !lookup_app_l by lia. by apply Hh.
  - rewrite !lookup_app_r by lia. by rewrite Hl.
Qed.

Lemma new_set_agreed s st1 st2 a st' :
  sim A n0 st1 st2 → new_set s st1 = Done (a, st') → agreed A n0 a.
Proof. intros (_ & _ & Hn & _) [= <- _]. by right. Qed.

Lemma lockstep_add_result a t changed :
  agreed A n0 a → lockstep A n0 (add_result a t changed).
Proof.
  intros Ha. unfold add_result. apply lockstep_seq; [by apply lockstep_not_in|].
  intros fresh. apply lockstep_seq; [by apply lockstep_typeset_add|].
  intros _. apply lockstep_ret.
Qed.

Lemma lockstep_set_typings f args e : lockstep A n0 (set_typings f args e).
Proof.
  intros st1 st2 (Hc & Hl & Hn & Ht & Hh). split; [done|].
  split; [cbn [cache]; by rewrite Hc|]. by repeat split.
Qed.

Lemma lockstep_set_ctxs f ctx :
  Forall (agreed A n0) (ctx_context ctx).*2 → lockstep A n0 (set_ctxs f ctx).
Proof.
  intros Hctx st1 st2 (Hc & Hl & Hn & Ht & Hh). split; [done|].
  split; [cbn [cache]; by rewrite Hc|]. split; [done|]. split; [done|]. split; [|done].
  intros g t. unfold lookup_ctx. cbn [cache ctxs].
  destruct (decide (f = g)) as [->|Hne].
  - rewrite dict_get_set_eq. by intros [= <-].
  - rewrite dict_get_set_ne by done. apply Ht.
Qed.

Lemma lockstep_for_list {X Acc} (xs : list X) (body : X → Acc → M Acc) :
  (∀ x acc, x ∈ xs → lockstep A n0 (body x acc)) →
  ∀ acc, lockstep A n0 (for_list xs body acc).
Proof.
  induction xs as [|x xs IH]; intros Hbody acc; simpl.
  - apply lockstep_ret.
  - apply lockstep_seq; [apply Hbody; left|]. intros acc'. apply IH.
    intros y acc'' Hy. apply Hbody. by right.
Qed.

Lemma lockstep_iter_set {Acc} b n (xs : list Ty) (body : Ty → Acc → M Acc) :
  agreed A n0 b →
  (∀ x acc, lockstep A n0 (body x acc)) →
  ∀ acc, lockstep A n0 (iter_set b n xs body acc).
Proof.
  intros Hb Hbody. induction xs as [|x xs IH]; intros acc; simpl.
  - apply lockstep_ret.
  - apply lockstep_seq; [apply Hbody|]. intros acc'.
    apply lockstep_seq; [by apply lockstep_check_size|]. intros _. apply IH.
Qed.

Lemma lockstep_for_set {Acc} b (body : Ty → Acc → M Acc) acc :
  agreed A n0 b →
  (∀ x acc, lockstep A n0 (body x acc)) →
  lockstep A n0 (for_set b body acc).
Proof.
  intros Hb Hbody. unfold for_set. apply lockstep_seq; [by apply lockstep_read_set|].
  intros s. by apply lockstep_iter_set.
Qed.

End Lockstep.

Lemma build_graph_context f func tmpl :
  build_graph f func = Done tmpl → ctx_context tmpl = [].
Proof.
  unfold build_graph.
  destruct (generate_constraints _ _) as [[[constraints metadata] G]| |]; simpl; [|done..].
  by intros [= <-].
Qed.

Section LockstepInference.

Variable prog : fid → IRFunction.
Variable fields : Ty → list (string * (Ty * Ty)).
Variable promote : Ty → Ty → Ty.
Variable A : list nat.
Variable n0 : nat.

Lemma context_get_agreed ctx n st a st' :
  Forall (agreed A n0) (ctx_context ctx).*2 →
  context_get ctx n st = Done (a, st') → agreed A n0 a.
Proof.
  intros Hctx Hrun. unfold context_get, lift in Hrun.
  destruct (dict_get (ctx_context ctx) n) as [b|] eqn:E; [|done].
  injection Hrun as <- _. rewrite Forall_forall in Hctx. apply Hctx.
  by eapply dict_get_values.
Qed.

Section Resolver.

Variable R : fid → list Ty → M (PyVal * PyVal).

(** The recursive inference of a callee cannot tell the states apart. *)
Hypothesis R_lockstep : ∀ f args, lockstep A n0 (R f args).

Lemma infer_call_function_lockstep callee func_type arg_types :
  lockstep A n0 (infer_call_function R callee func_type arg_types).
Proof using R_lockstep.
  unfold infer_call_function.
  destruct func_type; try apply lockstep_raise;
    (apply lockstep_seq; [apply lockstep_lift|]; intros f';
     apply lockstep_seq; [apply R_lockstep|]; intros [ctx [c|t]];
     [apply lockstep_raise|];
     apply lockstep_seq; [apply lockstep_liftO|]; intros; apply lockstep_liftO).
Qed.

Lemma infer_call_lockstep func func_type arg_types :
  lockstep A n0 (infer_call prog R func func_type arg_types).
Proof using R_lockstep.
  unfold infer_call. apply lockstep_seq; [apply lockstep_liftO|]. intros name.
  case_decide.
  - apply lockstep_seq; [apply lockstep_liftO|]. intros f'.
    apply lockstep_seq; [apply lockstep_liftO|]. intros self.
    apply infer_call_function_lockstep.
  - destruct func; try apply infer_call_function_lockstep;
      (apply lockstep_seq; [apply lockstep_liftO|]; intros;
       apply lockstep_seq; [apply lockstep_liftO|intros; apply lockstep_ret]).
Qed.

Lemma infer_attr_lockstep a attr type changed :
  agreed A n0 a → lockstep A n0 (infer_attr prog fields a attr type changed).
Proof.
  intros Ha. unfold infer_attr. apply lockstep_seq; [apply lockstep_liftO|].
  intros fs. apply lockstep_seq; [apply lockstep_liftO|]. intros key.
  destruct (field_get fs key) as [[value result]|]; [|apply lockstep_raise].
  apply lockstep_seq; [apply lockstep_liftO|]. intros rname.
  by apply lockstep_add_result.
Qed.

(** A visit reads and writes set objects through the bindings of its
    context only. *)
Lemma infer_node_lockstep ctx node :
  Forall (agreed A n0) (ctx_context ctx).*2 →
  lockstep A n0 (infer_node prog fields R ctx node).
Proof using R_lockstep.
  intros Hctx. unfold infer_node. apply (lockstep_bind A n0 (agreed A n0)).
  { destruct node; try apply lockstep_lift. apply lockstep_new_set. }
  { intros st1 st2 a st' Hs Hrun.
    destruct node; try (by eapply context_get_agreed). by eapply new_set_agreed. }
  intros a Ha. apply lockstep_seq.
  { unfold graph_predecessors. case_decide; [apply lockstep_ret|apply lockstep_raise]. }
  intros incoming.
  assert (Hget : ∀ {Y} n (k : nat → M Y),
            (∀ b, agreed A n0 b → lockstep A n0 (k b)) →
            lockstep A n0 (bind (context_get ctx n) k)).
  { intros Y n k Hk. apply (lockstep_bind A n0 (agreed A n0)); [apply lockstep_lift| |done].
    intros st1 st2 b st' _ Hrun. by eapply context_get_agreed. }
  repeat case_decide.
  - apply lockstep_for_list. intros neighbor changed _. apply Hget. intros b Hb.
    apply lockstep_for_set; [done|]. intros t ch. by apply lockstep_add_result.
  - apply lockstep_for_list. intros neighbor changed _. apply Hget. intros b Hb.
    apply lockstep_for_set; [done|]. intros t ch. by apply lockstep_add_result.
  - destruct incoming as [|neighbor [|]]; try apply lockstep_raise.
    apply lockstep_seq; [apply lockstep_lift|]. intros md.
    apply lockstep_seq; [destruct md; [apply lockstep_ret|apply lockstep_raise]|].
    intros attr. apply Hget. intros b Hb.
    apply lockstep_for_set; [done|]. intros t ch. by apply infer_attr_lockstep.
  - apply lockstep_seq; [apply lockstep_lift|]. intros md.
    destruct md as [attr|func args]; [apply lockstep_raise|].
    apply lockstep_seq; [apply lockstep_liftO|]. intros func'.
    apply Hget. intros func_types Hft.
    apply lockstep_seq; [apply lockstep_liftO|]. intros args'.
    apply (lockstep_bind A n0 (Forall (agreed A n0))).
    { apply lockstep_for_list. intros x acc _. apply Hget. intros b Hb. apply lockstep_ret. }
    { intros st1 st2 r st' _ Hrun. revert Hrun.
      refine (for_list_hoare (λ (acc : list nat) (_ : State), Forall (agreed A n0) acc)
                _ _ _ [] st1 r st' _); [|constructor].
      intros x acc _ st b st'' Hacc Hrun.
      apply bind_Done in Hrun as (b' & st3 & Hb' & Hret). injection Hret as <- _.
            apply Forall_app. split; [done|]. apply Forall_singleton.
      by eapply context_get_agreed. }
    intros arg_typess Hargs. apply lockstep_seq; [|intros; apply lockstep_ret].
    apply lockstep_for_set; [done|]. intros func_type acc. apply lockstep_seq.
    { apply lockstep_for_list. intros x acc' Hx.
      apply lockstep_seq; [|intros; apply lockstep_ret].
      apply lockstep_read_set. rewrite Forall_forall in Hargs. by apply Hargs. }
    intros pools. apply lockstep_for_list. intros arg_types [changed processed] _.
    case_decide; [apply lockstep_ret|].
    apply lockstep_seq; [apply infer_call_lockstep|]. intros result.
    apply lockstep_seq; [by apply lockstep_add_result|]. intros; apply lockstep_ret.
  - apply lockstep_raise.
Qed.

Lemma worklist_lockstep fuel ctx : ∀ W,
  Forall (agreed A n0) (ctx_context ctx).*2 →
  lockstep A n0 (worklist prog fields R fuel ctx W).
Proof using R_lockstep.
  induction fuel as [|fuel IH]; intros [|node W] Hctx; cbn [worklist];
    try apply lockstep_ret.
  - by intros st1 st2 Hs.
  - apply lockstep_seq; [by apply infer_node_lockstep|]. intros [|]; by apply IH.
Qed.

End Resolver.

Lemma copy_context_lockstep context :
  Forall (agreed A n0) context.*2 → lockstep A n0 (copy_context context).
Proof.
  intros Hctx. unfold copy_context. apply lockstep_for_list.
  intros [binding type] acc Hin. apply lockstep_seq.
  - apply lockstep_read_set. rewrite Forall_forall in Hctx. apply Hctx.
    apply list_elem_of_fmap. by exists (binding, type).
  - intros s. apply lockstep_seq; [apply lockstep_new_set|]. intros; apply lockstep_ret.
Qed.

Lemma copy_context_agreed context st context' st' :
  n0 ≤ length (heap st) →
  copy_context context st = Done (context', st') →
  Forall (agreed A n0) context'.*2.
Proof.
  intros Hn Hrun.
  assert (H : n0 ≤ length (heap st') ∧ Forall (agreed A n0) context'.*2); [|apply H].
  revert Hrun. unfold copy_context.
  refine (for_list_hoare
            (λ (acc : list (Node * nat)) st,
               n0 ≤ length (heap st) ∧ Forall (agreed A n0) acc.*2)
            _ _ _ [] st context' st' _); [|split; [done|constructor]].
  intros [binding type] acc _ st1 r st2 [Hn1 Hacc] Hrun.
  unfold bind, read_set, new_set, ret in Hrun. injection Hrun as <- <-.
  cbn [heap]. rewrite length_app. split; [lia|].
    rewrite fmap_app. apply Forall_app. split; [done|]. apply Forall_singleton. by right.
Qed.

Lemma seed_context_lockstep ctx argtypes :
  lockstep A n0 (seed_context prog ctx argtypes).
Proof.
  unfold seed_context. apply lockstep_for_list. intros [arg argtype] acc _.
  apply lockstep_seq; [apply lockstep_new_set|]. intros; apply lockstep_ret.
Qed.

Lemma seed_context_agreed ctx argtypes st ctx' st' :
  n0 ≤ length (heap st) →
  Forall (agreed A n0) (ctx_context ctx).*2 →
  seed_context prog ctx argtypes st = Done (ctx', st') →
  Forall (agreed A n0) (ctx_context ctx').*2.
Proof.
  intros Hn Hctx Hrun.
  assert (H : n0 ≤ length (heap st') ∧ Forall (agreed A n0) (ctx_context ctx').*2);
    [|apply H].
  revert Hrun. unfold seed_context.
  refine (for_list_hoare
            (λ (acc : InferContext) st,
               n0 ≤ length (heap st) ∧ Forall (agreed A n0) (ctx_context acc).*2)
            _ _ _ ctx st ctx' st' _); [|by split].
  intros [arg argtype] acc _ st1 r st2 [Hn1 Hacc] Hrun.
  unfold bind, new_set, ret in Hrun. injection Hrun as <- <-.
  cbn [heap]. rewrite length_app. split; [lia|].
  cbn [ctx_context with_context]. apply dict_set_values; [done|]. by right.
Qed.

Lemma sim_heap_size st1 st2 : sim A n0 st1 st2 → n0 ≤ length (heap st1).
Proof. by intros (_ & _ & Hn & _). Qed.

Lemma infer_body_lockstep R fuel func argtypes :
  (∀ f args, lockstep A n0 (R f args)) →
  lockstep A n0 (infer_body prog fields promote R fuel func argtypes).
Proof.
  intros HR. unfold infer_body.
  apply (lockstep_bind A n0
           (λ c, ∀ g t, lookup_ctx c g = Some t → Forall (agreed A n0) (ctx_context t).*2)).
  { apply lockstep_get_cache. }
  { intros st1 st2 c st' (_ & _ & _ & Ht & _) [= <- _]. exact Ht. }
  intros c Hc. destruct (lookup c func argtypes) as [cached|]; [apply lockstep_ret|].
  apply (lockstep_bind A n0 (λ t, Forall (agreed A n0) (ctx_context t).*2)).
  { destruct (lookup_ctx c func) as [t|]; [apply lockstep_ret|].
    apply (lockstep_bind A n0 (λ t, ctx_context t = [])); [apply lockstep_liftO| |].
    - intros st1 st2 t st' _ Hrun. unfold liftO in Hrun.
      destruct (build_graph func (prog func)) as [t'| |] eqn:E; [|done..].
      injection Hrun as <- _. by eapply build_graph_context.
    - intros t Ht. apply lockstep_seq; [|intros; apply lockstep_ret].
      apply lockstep_set_ctxs. rewrite Ht. constructor. }
  { intros st1 st2 t st' _ Hrun. destruct (lookup_ctx c func) as [t'|] eqn:E.
    - injection Hrun as <- _. by eapply Hc.
    - apply bind_Done in Hrun as (t' & st3 & Hb & Hrun). unfold liftO in Hb.
      destruct (build_graph func (prog func)) as [t''| |] eqn:E'; [|done..].
      injection Hb as <- _.
      apply bind_Done in Hrun as ([] & st4 & _ & Hret). injection Hret as <- _.
      rewrite (build_graph_context _ _ _ E'). constructor. }
  intros tmpl Htmpl.
  apply (lockstep_bind A n0 (λ ctx, Forall (agreed A n0) (ctx_context ctx).*2)).
  { unfold Context_copy. apply lockstep_seq; [by apply copy_context_lockstep|].
    intros; apply lockstep_ret. }
  { intros st1 st2 ctx st' Hs Hrun. unfold Context_copy in Hrun.
    apply bind_Done in Hrun as (context & st3 & Hcopy & Hret). injection Hret as <- _.
    cbn [ctx_context]. eapply copy_context_agreed; [|exact Hcopy].
    by eapply sim_heap_size. }
  intros ctx1 Hctx1.
  apply (lockstep_bind A n0 (λ ctx, Forall (agreed A n0) (ctx_context ctx).*2)).
  { apply seed_context_lockstep. }
  { intros st1 st2 ctx st' Hs Hrun. eapply seed_context_agreed; [|exact Hctx1|exact Hrun].
    by eapply sim_heap_size. }
  intros ctx2 Hctx2. apply lockstep_seq.
  { unfold infer_graph. by apply worklist_lockstep. }
  intros _. apply (lockstep_bind A n0 (agreed A n0)).
  { apply lockstep_lift. }
  { intros st1 st2 a st' _ Hrun. by eapply context_get_agreed. }
  intros a Ha. apply lockstep_seq; [by apply lockstep_read_set|]. intros typeset.
  apply lockstep_seq; [apply lockstep_liftO|]. intros restype.
  apply lockstep_seq; [apply lockstep_set_typings|]. intros; apply lockstep_ret.
Qed.

(** A whole inference cannot tell apart states that differ only in set
    objects bound by no template. *)
Lemma infer_lockstep fuel : ∀ func argtypes,
  lockstep A n0 (infer prog fields promote fuel func argtypes).
Proof.
  induction fuel as [|fuel IH]; intros func argtypes; cbn [infer].
  - by intros st1 st2 Hs.
  - by apply infer_body_lockstep.
Qed.

End LockstepInference.

(** * Runs that raise *)

(** ** The two runs agree *)

Lemma agree_atom {A} (m : M A) : agree (Keep.atom m) m.
Proof. intros st. unfold Keep.atom. by destruct (m st) as [[a st']| |]. Qed.

Lemma agree_ret {A} (a : A) : agree (Keep.ret a) (ret a).
Proof. by intros st. Qed.

Lemma agree_raise {A} e : agree (@Keep.raise A e) (raise e).
Proof. by intros st. Qed.

Lemma agree_bind {A B} (mK : Keep.K A) (m : M A) (kK : A → Keep.K B) (k : A → M B) :
  agree mK m → (∀ a, agree (kK a) (k a)) → agree (Keep.bind mK kK) (bind m k).
Proof.
  intros Hm Hk st. unfold Keep.bind, bind. rewrite <- Hm.
  destruct (mK st) as [a st'|e st'|]; simpl; [apply Hk|done..].
Qed.

Lemma agree_for_list {A Acc} (xs : list A) (bodyK : A → Acc → Keep.K Acc)
    (body : A → Acc → M Acc) :
  (∀ x acc, agree (bodyK x acc) (body x acc)) →
  ∀ acc, agree (Keep.for_list xs bodyK acc) (for_list xs body acc).
Proof.
  intros Hbody. induction xs as [|x xs IH]; intros acc; simpl.
  - apply agree_ret.
  - apply agree_bind; auto.
Qed.

Lemma agree_iter_set {Acc} b n (xs : TypeSet) (bodyK : Ty → Acc → Keep.K Acc)
    (body : Ty → Acc → M Acc) :
  (∀ x acc, agree (bodyK x acc) (body x acc)) →
  ∀ acc, agree (Keep.iter_set b n xs bodyK acc) (iter_set b n xs body acc).
Proof.
  intros Hbody. induction xs as [|x xs IH]; intros acc; simpl.
  - apply agree_ret.
  - apply agree_bind; [apply Hbody|]. intros acc'.
    apply agree_bind; [apply agree_atom|]. intros ?. apply IH.
Qed.

Lemma agree_for_set {Acc} b (bodyK : Ty → Acc → Keep.K Acc) (body : Ty → Acc → M Acc) :
  (∀ x acc, agree (bodyK x acc) (body x acc)) →
  ∀ acc, agree (Keep.for_set b bodyK acc) (for_set b body acc).
Proof.
  intros Hbody acc. apply agree_bind; [apply agree_atom|]. intros s.
  by apply agree_iter_set.
Qed.

(** The steps of a proof of agreement, by the shape of the code. *)
Ltac agree_step :=
  match goal with
  | |- agree (Keep.atom _) _ => apply agree_atom
  | |- agree (Keep.ret _) _ => apply agree_ret
  | |- agree (Keep.raise _) _ => apply agree_raise
  | |- agree (Keep.bind _ _) _ => apply agree_bind; [|intros ?]
  | |- agree (Keep.for_list _ _ _) _ => apply agree_for_list; intros ? ?
  | |- agree (Keep.for_set _ _ _) _ => apply agree_for_set; intros ? ?
  | |- agree (match ?x with _ => _ end) _ => destruct x
  | |- agree ((match ?x with _ => _ end) _) _ => destruct x
  | |- agree _ _ => progress cbv beta
  end.

Lemma agree_Context_copy ctx : agree (Keep.Context_copy ctx) (Context_copy ctx).
Proof.
  unfold Keep.Context_copy, Context_copy, Keep.copy_context, copy_context.
  repeat agree_step.
Qed.

Lemma agree_seed_context prog ctx argtypes :
  agree (Keep.seed_context prog ctx argtypes) (seed_context prog ctx argtypes).
Proof. unfold Keep.seed_context, seed_context. repeat agree_step. Qed.

Lemma agree_add_result a t changed : agree (Keep.add_result a t changed) (add_result a t changed).
Proof. unfold Keep.add_result, add_result. repeat agree_step. Qed.

Section Agreement.

Variable prog : fid → IRFunction.
Variable fields : Ty → list (string * (Ty * Ty)).
Variable promote : Ty → Ty → Ty.
Variable RK : fid → list Ty → Keep.K (PyVal * PyVal).
Variable R : fid → list Ty → M (PyVal * PyVal).
Hypothesis R_agree : ∀ f args, agree (RK f args) (R f args).

Lemma agree_infer_call_function callee func_type arg_types :
  agree (Keep.infer_call_function RK callee func_type arg_types)
        (infer_call_function R callee func_type arg_types).
Proof using R_agree.
  unfold Keep.infer_call_function, infer_call_function.
  destruct func_type; repeat first [apply R_agree | agree_step].
Qed.

Lemma agree_infer_call func func_type arg_types :
  agree (Keep.infer_call prog RK func func_type arg_types)
        (infer_call prog R func func_type arg_types).
Proof using R_agree.
  unfold Keep.infer_call, infer_call.
  repeat first [apply agree_infer_call_function | agree_step].
Qed.

Lemma agree_infer_attr a attr t changed :
  agree (Keep.infer_attr prog fields a attr t changed) (infer_attr prog fields a attr t changed).
Proof.
  unfold Keep.infer_attr, infer_attr.
  repeat first [apply agree_add_result | agree_step].
Qed.

Lemma agree_infer_node ctx node :
  agree (Keep.infer_node prog fields RK ctx node) (infer_node prog fields R ctx node).
Proof using R_agree.
  unfold Keep.infer_node, infer_node. cbv zeta.
  repeat first [apply agree_add_result | apply agree_infer_attr
               | apply agree_infer_call | agree_step].
Qed.

Lemma agree_worklist fuel : ∀ ctx W,
  agree (Keep.worklist prog fields RK fuel ctx W) (worklist prog fields R fuel ctx W).
Proof using R_agree.
  induction fuel as [|fuel IH]; intros ctx [|node W]; simpl; try by intros st.
  apply agree_bind; [apply agree_infer_node|]. intros [|]; apply IH.
Qed.

Lemma agree_infer_body fuel func argtypes :
  agree (Keep.infer_body prog fields promote RK fuel func argtypes)
        (infer_body prog fields promote R fuel func argtypes).
Proof using R_agree.
  unfold Keep.infer_body, infer_body, Keep.infer_graph, infer_graph.
  repeat first [apply agree_Context_copy | apply agree_seed_context
               | apply agree_worklist | agree_step].
Qed.

End Agreement.

Lemma agree_infer prog fields promote fuel : ∀ func argtypes,
  agree (Keep.infer prog fields promote fuel func argtypes)
        (infer prog fields promote fuel func argtypes).
Proof.
  induction fuel as [|fuel IH]; intros func argtypes; simpl; [by intros st|].
  by apply agree_infer_body.
Qed.

(** ** Triples for the kept state *)

Lemma triple_bind {A B} (P : State → Prop) (Q : A → State → Prop) (R : B → State → Prop)
    (E : State → Prop) (m : Keep.K A) (k : A → Keep.K B) :
  triple P m Q E → (∀ a, triple (Q a) (k a) R E) → triple P (Keep.bind m k) R E.
Proof.
  intros Hm Hk st HP. specialize (Hm st HP). unfold Keep.bind.
  destruct (m st) as [a st'|e st'|]; [by apply Hk|done..].
Qed.

Lemma triple_ret {A} (P : State → Prop) (Q : A → State → Prop) (E : State → Prop) a :
  (∀ st, P st → Q a st) → triple P (Keep.ret a) Q E.
Proof. intros H st HP. by apply H. Qed.

Lemma triple_raise {A} (P : State → Prop) (Q : A → State → Prop) (E : State → Prop) e :
  (∀ st, P st → E st) → triple P (Keep.raise e) Q E.
Proof. intros H st HP. by apply H. Qed.

Lemma triple_atom {A} (P : State → Prop) (Q : A → State → Prop) (E : State → Prop)
    (m : M A) :
  hoare P m Q → (∀ st, P st → E st) → triple P (Keep.atom m) Q E.
Proof.
  intros Hm HE st HP. unfold Keep.atom.
  destruct (m st) as [[a st']|e|] eqn:Hrun; [by eapply Hm|by apply HE|done].
Qed.

Lemma triple_conseq {A} (P P' : State → Prop) (Q Q' : A → State → Prop)
    (E E' : State → Prop) (m : Keep.K A) :
  triple P' m Q' E' →
  (∀ st, P st → P' st) → (∀ a st, Q' a st → Q a st) → (∀ st, E' st → E st) →
  triple P m Q E.
Proof.
  intros Hm HP HQ HE st Hpre. specialize (Hm st (HP st Hpre)).
  destruct (m st) as [a st'|e st'|]; auto.
Qed.

Lemma triple_fact {A} (φ : Prop) (P : State → Prop) (Q : A → State → Prop)
    (E : State → Prop) (m : Keep.K A) :
  (φ → triple P m Q E) → triple (λ st, φ ∧ P st) m Q E.
Proof. intros H st [Hφ HP]. by apply H. Qed.

Lemma for_list_triple {A Acc} (I : Acc → State → Prop) (E : State → Prop) (xs : list A)
    (body : A → Acc → Keep.K Acc) :
  (∀ x acc, triple (I acc) (body x acc) I E) →
  ∀ acc, triple (I acc) (Keep.for_list xs body acc) I E.
Proof.
  intros Hbody. induction xs as [|x xs IH]; intros acc; simpl.
  - by apply triple_ret.
  - eapply triple_bind; [apply Hbody|]. intros acc'. apply IH.
Qed.

Lemma for_set_triple {Acc} (I : Acc → State → Prop) (E : State → Prop) b
    (body : Ty → Acc → Keep.K Acc) :
  (∀ acc st, I acc st → E st) →
  (∀ x acc, triple (I acc) (body x acc) I E) →
  ∀ acc, triple (I acc) (Keep.for_set b body acc) I E.
Proof.
  intros HE Hbody acc. unfold Keep.for_set.
  eapply triple_bind; [apply triple_atom; [apply hoare_pure, read_set_pure|apply HE]|].
  intros s. generalize (length s). intros n. revert acc.
  induction s as [|x s IH]; intros acc; simpl.
  - by apply triple_ret.
  - eapply triple_bind; [apply Hbody|]. intros acc'.
    eapply triple_bind;
      [apply triple_atom; [apply hoare_pure, check_size_pure|apply HE]|].
    intros ?. apply IH.
Qed.

(** A computation that returns in every state. *)
Lemma triple_total {A} (P : State → Prop) (Q : A → State → Prop) (E : State → Prop)
    (mK : Keep.K A) (m : M A) :
  agree mK m → (∀ st, ∃ r, m st = Done r) → hoare P m Q → triple P mK Q E.
Proof.
  intros Hag Htot Hm st HP. specialize (Hag st). destruct (Htot st) as [[a st'] Hrun].
  rewrite Hrun in Hag.
  destruct (mK st) as [a' st''|e st''|]; simpl in Hag; try discriminate.
  injection Hag as -> ->. by eapply Hm.
Qed.

Lemma for_list_total {A Acc} (xs : list A) (body : A → Acc → M Acc) :
  (∀ x acc st, ∃ r, body x acc st = Done r) →
  ∀ acc st, ∃ r, for_list xs body acc st = Done r.
Proof.
  intros Hbody. induction xs as [|x xs IH]; intros acc st; simpl.
  - by eexists.
  - destruct (Hbody x acc st) as [[acc' st'] Hrun].
    rewrite (bind_step _ _ _ _ _ Hrun). apply IH.
Qed.

Lemma Context_copy_total ctx st : ∃ r, Context_copy ctx st = Done r.
Proof.
  unfold Context_copy, copy_context.
  destruct (for_list_total (ctx_context ctx)
              (λ '(binding, type) (acc : list (Node * nat)),
                 let! s := read_set type in
                 let! a := new_set s in
                 ret (acc ++ [(binding, a)])) ) with (acc := @nil (Node * nat)) (st := st)
    as [[context st'] Hrun].
  { intros [binding type] acc s. by eexists. }
  rewrite (bind_step _ _ _ _ _ Hrun). by eexists.
Qed.

Lemma seed_context_total prog ctx argtypes st :
  ∃ r, seed_context prog ctx argtypes st = Done r.
Proof.
  unfold seed_context. apply for_list_total. intros [arg argtype] acc s. by eexists.
Qed.

(** ** The frame of a run that raises *)

Lemma keep_extends_bind {A B} (m : Keep.K A) (k : A → Keep.K B) :
  keep_extends m → (∀ a, keep_extends (k a)) → keep_extends (Keep.bind m k).
Proof.
  intros Hm Hk st s ->. specialize (Hm st st eq_refl). unfold Keep.bind.
  destruct (m st) as [a st1|e st1|]; [|done..].
  specialize (Hk a st1 st1 eq_refl).
  destruct (k a st1) as [b st2|e st2|]; [| |done]; by eapply state_le_trans.
Qed.

Lemma keep_extends_atom {A} (m : M A) : extends m → keep_extends (Keep.atom m).
Proof.
  intros Hm st s ->. unfold Keep.atom.
  destruct (m st) as [[a st']|e|] eqn:Hrun; [by eapply Hm|apply state_le_refl|done].
Qed.

Lemma keep_extends_ret {A} (a : A) : keep_extends (Keep.ret a).
Proof. intros st s ->. apply state_le_refl. Qed.

Lemma keep_extends_raise {A} e : keep_extends (@Keep.raise A e).
Proof. intros st s ->. apply state_le_refl. Qed.

Lemma visit_inv_weaken a st0 changed st :
  visit_inv a st0 changed st → visit_inv a st0 false st.
Proof. intros (Hg & Hc & _). split; [done|]. split; [done|]. discriminate. Qed.

Lemma triple_extends {A} (m : Keep.K A) a st0 changed :
  keep_extends m →
  triple (visit_inv a st0 changed) m (λ _, visit_inv a st0 changed) (visit_inv a st0 false).
Proof.
  intros Hm st Hinv. specialize (Hm st st eq_refl).
  destruct (m st) as [r st'|e st'|]; [| |done].
  - by eapply visit_inv_le.
  - eapply visit_inv_le; [by eapply visit_inv_weaken|done].
Qed.

Lemma triple_pure {A} (m : M A) a st0 changed :
  pure_step m →
  triple (visit_inv a st0 changed) (Keep.atom m) (λ _, visit_inv a st0 changed)
         (visit_inv a st0 false).
Proof. intros Hm. by apply triple_extends, keep_extends_atom, pure_extends. Qed.

Lemma keep_add_result_inv a st0 t changed :
  triple (visit_inv a st0 changed) (Keep.add_result a t changed) (visit_inv a st0)
         (visit_inv a st0 false).
Proof.
  apply (triple_total _ _ _ _ (add_result a t changed));
    [apply agree_add_result|intros st; by eexists|apply add_result_inv].
Qed.

Lemma visit_inv_solver_step ctx node a st0 changed st :
  typeset_of ctx node (heap st0) = Some a →
  visit_inv a st0 changed st →
  solver_step ctx st0 st.
Proof.
  intros Ha ((L & F & G) & Hcache & _). repeat split; [done| | |done].
  - intros b Hb Hn. apply F; [done|]. intros ->.
    destruct node; simpl in Ha;
      try (apply dict_get_values in Ha; contradiction).
    injection Ha as Ha. lia.
  - intros b. eapply grows_at_mono. repeat split; eauto.
Qed.

Section KeepSolver.

Variable prog : fid → IRFunction.
Variable fields : Ty → list (string * (Ty * Ty)).
Variable RK : fid → list Ty → Keep.K (PyVal * PyVal).

(** The recursive inference of a callee leaves the caller's set objects
    alone, also when it raises. *)
Hypothesis RK_extends : ∀ f args, keep_extends (RK f args).

Lemma keep_infer_call_function_extends callee func_type arg_types :
  keep_extends (Keep.infer_call_function RK callee func_type arg_types).
Proof using RK_extends.
  unfold Keep.infer_call_function.
  destruct func_type; try apply keep_extends_raise;
    (apply keep_extends_bind; [apply keep_extends_atom, pure_extends, lift_pure|];
     intros f'; apply keep_extends_bind; [apply RK_extends|]; intros [ctx [c|t]];
     [apply keep_extends_raise|];
     apply keep_extends_bind; [apply keep_extends_atom, pure_extends, liftO_pure|];
     intros; apply keep_extends_atom, pure_extends, liftO_pure).
Qed.

Lemma keep_infer_call_extends func func_type arg_types :
  keep_extends (Keep.infer_call prog RK func func_type arg_types).
Proof using RK_extends.
  unfold Keep.infer_call.
  apply keep_extends_bind; [apply keep_extends_atom, pure_extends, liftO_pure|].
  intros name. case_decide.
  - apply keep_extends_bind; [apply keep_extends_atom, pure_extends, liftO_pure|].
    intros f'.
    apply keep_extends_bind; [apply keep_extends_atom, pure_extends, liftO_pure|].
    intros self. apply keep_infer_call_function_extends.
  - destruct func; try apply keep_infer_call_function_extends;
      (apply keep_extends_bind; [apply keep_extends_atom, pure_extends, liftO_pure|];
       intros;
       apply keep_extends_bind; [apply keep_extends_atom, pure_extends, liftO_pure|];
       intros; apply keep_extends_ret).
Qed.

(** One visit of a node, to its end or to the exception: the heap has
    grown at the node's type set only. *)
Lemma keep_infer_node_inv ctx node st0 :
  triple (λ st, st = st0) (Keep.infer_node prog fields RK ctx node)
    (λ changed st,
       ∃ a, typeset_of ctx node (heap st0) = Some a ∧ visit_inv a st0 changed st)
    (solver_step ctx st0).
Proof using RK_extends.
  unfold Keep.infer_node. cbv zeta.
  eapply triple_bind with
    (Q := λ a st, typeset_of ctx node (heap st0) = Some a ∧ visit_inv a st0 false st).
  { assert (Hctx : ∀ n, (∀ t, n ≠ NType t) →
              triple (λ st, st = st0) (Keep.atom (context_get ctx n))
                (λ a st, typeset_of ctx n (heap st0) = Some a ∧ visit_inv a st0 false st)
                (solver_step ctx st0)).
    { intros n Hn. apply triple_atom; [|intros st ->; apply solver_step_refl].
      intros st a st' -> Hrun. unfold context_get, lift in Hrun.
      destruct (dict_get _ n) eqn:E; [|discriminate]. injection Hrun as <- <-.
      split; [by destruct n; try done; destruct (Hn t)|apply visit_inv_refl]. }
    destruct node; try (by apply Hctx).
    apply triple_atom; [|intros st ->; apply solver_step_refl].
    intros st a st' -> Hrun. injection Hrun as <- <-. split; [done|].
    eapply visit_inv_le; [apply visit_inv_refl|].
    split; simpl; [by apply prefix_app_r|apply cache_le_refl]. }
  intros a. apply triple_fact. intros Ha.
  apply triple_conseq with (P' := visit_inv a st0 false) (Q' := visit_inv a st0)
                           (E' := visit_inv a st0 false);
    [|done|by eauto|intros st; apply (visit_inv_solver_step ctx node a st0 false st Ha)].
  eapply triple_bind; [apply triple_pure, graph_predecessors_pure|]. intros incoming.
  assert (HE : ∀ (c : bool) st, visit_inv a st0 c st → visit_inv a st0 false st)
    by (intros c st; apply visit_inv_weaken).
  repeat case_decide.
  - apply (for_list_triple (visit_inv a st0)). intros neighbor changed.
    eapply triple_bind; [apply triple_pure, context_get_pure|]. intros b.
    apply (for_set_triple (visit_inv a st0)); [done|]. intros t ch.
    apply keep_add_result_inv.
  - apply (for_list_triple (visit_inv a st0)). intros neighbor changed.
    eapply triple_bind; [apply triple_pure, context_get_pure|]. intros b.
    apply (for_set_triple (visit_inv a st0)); [done|]. intros t ch.
    apply keep_add_result_inv.
  - destruct incoming as [|neighbor [|]]; try (by apply triple_raise).
    eapply triple_bind; [apply triple_pure, lift_pure|]. intros md.
    eapply triple_bind with (Q := λ _, visit_inv a st0 false);
      [destruct md; [by apply triple_ret|by apply triple_raise]|]. intros attr.
    eapply triple_bind; [apply triple_pure, context_get_pure|]. intros b.
    apply (for_set_triple (visit_inv a st0)); [done|]. intros t ch.
    unfold Keep.infer_attr.
    eapply triple_bind; [apply triple_pure, liftO_pure|]. intros fs.
    eapply triple_bind; [apply triple_pure, liftO_pure|]. intros key.
    destruct (field_get fs key) as [[value result]|]; [|apply triple_raise, HE].
    eapply triple_bind; [apply triple_pure, liftO_pure|]. intros rname.
    apply keep_add_result_inv.
  - eapply triple_bind; [apply triple_pure, lift_pure|]. intros md.
    destruct md as [attr|func args]; [by apply triple_raise|].
    eapply triple_bind; [apply triple_pure, liftO_pure|]. intros func'.
    eapply triple_bind; [apply triple_pure, context_get_pure|]. intros func_types.
    eapply triple_bind; [apply triple_pure, liftO_pure|]. intros args'.
    eapply triple_bind with (Q := λ _, visit_inv a st0 false).
    { apply (for_list_triple (λ _ : list nat, visit_inv a st0 false)). intros x acc.
      eapply triple_bind; [apply triple_pure, context_get_pure|]. intros b.
      by apply triple_ret. }
    intros arg_typess.
    eapply triple_bind with (Q := λ r st, visit_inv a st0 r.1 st);
      [|intros r; by apply triple_ret].
    refine (for_set_triple (λ (r : bool * list (Node * Ty * list Ty)) st,
                              visit_inv a st0 r.1 st) _ _ _ _ _ (false, []));
      [intros r st; apply HE|].
    intros func_type acc.
    eapply triple_bind with (Q := λ _, visit_inv a st0 acc.1).
    { apply (for_list_triple (λ _ : list (list Ty), visit_inv a st0 acc.1)).
      intros x acc'.
      eapply triple_bind; [apply triple_pure, read_set_pure|]. intros s.
      by apply triple_ret. }
    intros pools.
    refine (for_list_triple (λ (r : bool * list (Node * Ty * list Ty)) st,
                               visit_inv a st0 r.1 st) _ _ _ _ acc).
    intros arg_types [changed processed]. case_decide; [by apply triple_ret|].
    eapply triple_bind; [apply triple_extends, keep_infer_call_extends|]. intros result.
    eapply triple_bind; [apply keep_add_result_inv|]. intros changed'.
    by apply triple_ret.
  - by apply triple_raise.
Qed.

Lemma keep_infer_node_step ctx node st0 :
  triple (solver_step ctx st0) (Keep.infer_node prog fields RK ctx node)
    (λ _, solver_step ctx st0) (solver_step ctx st0).
Proof using RK_extends.
  intros st Hst. pose proof (keep_infer_node_inv ctx node st st eq_refl) as H.
  destruct (Keep.infer_node prog fields RK ctx node st) as [changed st'|e st'|]; [| |done].
  - destruct H as (a & Ha & Hinv). eapply solver_step_trans; [exact Hst|].
    by eapply visit_inv_solver_step.
  - by eapply solver_step_trans.
Qed.

Lemma keep_worklist_step fuel ctx st0 : ∀ W,
  triple (solver_step ctx st0) (Keep.worklist prog fields RK fuel ctx W)
    (λ _, solver_step ctx st0) (solver_step ctx st0).
Proof using RK_extends.
  induction fuel as [|fuel IH]; intros [|node W]; simpl;
    try (by apply triple_ret); [by intros st|].
  eapply triple_bind; [apply keep_infer_node_step|]. intros [|]; apply IH.
Qed.

End KeepSolver.

Section KeepFrame.

Variable prog : fid → IRFunction.
Variable fields : Ty → list (string * (Ty * Ty)).
Variable promote : Ty → Ty → Ty.

Lemma keep_infer_body_extends RK fuel func argtypes :
  (∀ f args, keep_extends (RK f args)) →
  keep_extends (Keep.infer_body prog fields promote RK fuel func argtypes).
Proof.
  intros HR st0. unfold Keep.infer_body.
  eapply triple_bind with (Q := λ c st, c = cache st0 ∧ st = st0).
  { apply triple_atom; [|intros st ->; apply state_le_refl].
    by intros st c st' -> [= <- <-]. }
  intros c. apply triple_fact. intros ->.
  destruct (lookup (cache st0) func argtypes) as [cached|].
  { apply triple_ret. intros st ->. apply state_le_refl. }
  eapply triple_bind with (Q := λ _, state_le st0).
  { destruct (lookup_ctx (cache st0) func) eqn:E.
    - apply triple_ret. intros st ->. apply state_le_refl.
    - eapply triple_bind with (Q := λ _ st, st = st0).
      { apply triple_atom; [|intros st ->; apply state_le_refl].
        intros st r st' -> Hrun. by apply liftO_pure in Hrun. }
      intros tmpl.
      eapply triple_bind with (Q := λ _, state_le st0);
        [|intros; by apply triple_ret].
      apply triple_atom; [|intros st ->; apply state_le_refl].
      intros st r st' -> Hrun. by apply (set_ctxs_extends _ _ _ _ _ E) in Hrun as [? _]. }
  intros tmpl.
  eapply triple_bind.
  { apply (triple_total _ _ _ _ (Context_copy tmpl));
      [apply agree_Context_copy|apply Context_copy_total|apply (Context_copy_private st0)]. }
  intros ctx1.
  eapply triple_bind.
  { apply (triple_total _ _ _ _ (seed_context prog ctx1 argtypes));
      [apply agree_seed_context|apply seed_context_total
      |apply (seed_context_private prog st0 tmpl)]. }
  intros ctx2.
  eapply triple_bind with (Q := λ _, state_le st0).
  { intros st (Hle & Hp & Hs).
    pose proof (keep_worklist_step prog fields RK HR fuel ctx2 st
                  (g_nodes (ctx_graph ctx2)) st (solver_step_refl ctx2 st)) as H.
    unfold Keep.infer_graph.
    destruct (Keep.worklist _ _ _ _ _ _ st) as [r st'|e st'|]; [| |done];
      by eapply solver_step_private. }
  intros u.
  eapply triple_bind with (Q := λ _, state_le st0);
    [apply triple_atom; [apply hoare_pure, context_get_pure|done]|]. intros a.
  eapply triple_bind with (Q := λ _, state_le st0);
    [apply triple_atom; [apply hoare_pure, read_set_pure|done]|]. intros typeset.
  eapply triple_bind with (Q := λ _, state_le st0);
    [apply triple_atom; [apply hoare_pure, liftO_pure|done]|]. intros restype.
  eapply triple_bind with (Q := λ _, state_le st0); [|intros; by apply triple_ret].
  apply triple_atom; [|done].
  intros st r st' Hle Hrun. eapply state_le_trans; [exact Hle|].
  by eapply set_typings_extends.
Qed.

Lemma keep_infer_extends fuel : ∀ func argtypes,
  keep_extends (Keep.infer prog fields promote fuel func argtypes).
Proof.
  induction fuel as [|fuel IH]; intros func argtypes; simpl; [by intros st s ->|].
  by apply keep_infer_body_extends.
Qed.

End KeepFrame.

(** * The specification against the code *)

Section Specification.

Variable prog : fid → IRFunction.
Variable fields : Ty → list (string * (Ty * Ty)).
Variable promote : Ty → Ty → Ty.

(** ** C8: an overloaded callee *)

(** C8. Handed a callee type that is a [frozenset] of candidate
    overloads, [infer_call] does not reach its "not implemented" branch:
    the first thing it does is read [func_type.name], which a frozenset
    does not have, so the call raises [AttributeError]; and the branch
    itself, were it reached, calls the constant [NotImplemented], which is
    a [TypeError]. *)
Theorem infer_call_overloaded R func callee cands arg_types st :
  infer_call prog R func (Overloaded cands) arg_types st = Raise (AttributeError "name") ∧
  infer_call_function R callee (Overloaded cands) arg_types st =
    Raise (TypeError "'NotImplementedType' object is not callable").
Proof. split; reflexivity. Qed.

(** ** C3: a bound method *)

(** C3. For a callee type [Method(f, self_type)], [infer_call] unwraps
    [f] and hands the recursive [infer] the argument types exactly as it
    received them: [self_type] is not prepended. *)
Theorem infer_call_method_args R func f self arg_types st :
  infer_call prog R func (Method (FuncRef f) self) arg_types st =
  (let! r := R f arg_types in
   match r.2 with
   | VType t => let! params := liftO (get_params t) in liftO (index params 0)
   | VContext _ => raise (AttributeError "params")
   end) st.
Proof.
  unfold infer_call, infer_call_function, bind. simpl.
  destruct (R f arg_types st) as [[[ctx signature] st']| |]; reflexivity.
Qed.

(** ** C2: cache hit against cold path *)

(** C2. When the cold path of [infer] returns the pair [r], every later
    call with the same function and argument types is a cache hit that
    returns the components of [r] in the opposite order, (signature,
    context) instead of (context, signature): the two paths do not
    return equal values. *)
Theorem infer_hit_swaps_cold fuel fuel' func argtypes st r st' :
  lookup (cache st) func argtypes = None →
  infer prog fields promote fuel func argtypes st = Done (r, st') →
  infer prog fields promote (S fuel') func argtypes st' = Done ((r.2, r.1), st') ∧
  (r.2, r.1) ≠ r.
Proof.
  intros Hmiss Hrun. destruct fuel as [|fuel]; [discriminate|]. simpl in Hrun.
  apply infer_body_frame in Hrun as [_ Hcold]; [|intros; apply infer_extends].
  destruct (Hcold Hmiss) as (tmpl & ctx & signature & _ & -> & _ & _ & Hhit).
  split; [|discriminate].
  simpl. unfold infer_body, bind, get_cache. by rewrite Hhit.
Qed.

(** ** C7: type sets only grow *)

(** C7. Across any number of successive visits of nodes during a solver
    run, the type set of every node keeps all its members and its size
    does not decrease. *)
Theorem typesets_only_grow fuel ctx st st' n a :
  visits prog fields (infer prog fields promote fuel) ctx st st' →
  dict_get (ctx_context ctx) n = Some a →
  deref (heap st) a ⊆ deref (heap st') a ∧
  length (deref (heap st) a) ≤ length (deref (heap st') a).
Proof.
  intros Hv _.
  assert (Hp : deref (heap st) a `prefix_of` deref (heap st') a).
  { induction Hv as [st|st1 st2 node changed st3 _ IH Hn]; [done|].
    etrans; [exact IH|].
    apply infer_node_step in Hn as (_ & _ & G & _); [apply G|].
    intros f args. apply infer_extends. }
  split; [|by apply prefix_length].
  intros t Ht. eapply elem_of_prefix; [exact Ht|exact Hp].
Qed.

(** ** C9: the frame of an inference *)

(** C9. A run of [infer], whether it returns or raises, leaves every set
    object that existed before it as it was and never replaces a template
    of the cache: this holds of the state in which the run returns and of
    the state in which the exception is raised ([Keep.infer] is [infer]
    with that state kept).  When it returns on the cold path, the returned
    context has the graph, constraints and metadata of the cached template
    and binds only set objects allocated during the run; on a cache hit
    nothing is changed.  [Context.copy] of a context whose bindings are
    allocated gives a context over the same template with the same keys,
    each bound to a new set object with the members of the original.  And
    the run cannot observe the set objects that no template binds: started
    in a state [st2] that differs from [st] in such objects only, it
    raises the same exception or returns the same value, and leaves
    states that differ in the same way. *)
Theorem specialization_is_private fuel func argtypes st tmpl A n0 st2 :
  Forall (λ a, a < length (heap st)) (ctx_context tmpl).*2 →
  sim A n0 st st2 →
  Context_copy tmpl st =
    Done (mkContext (ctx_func tmpl)
            (zip (ctx_context tmpl).*1
                 (seq (length (heap st)) (length (ctx_context tmpl))))
            (ctx_constraints tmpl) (ctx_graph tmpl) (ctx_metadata tmpl),
          mkState (heap st ++ (deref (heap st) <$> (ctx_context tmpl).*2)) (cache st)) ∧
  Keep.forget (Keep.infer prog fields promote fuel func argtypes st)
    = infer prog fields promote fuel func argtypes st ∧
  match Keep.infer prog fields promote fuel func argtypes st with
  | Keep.Returned r st' =>
      heap st `prefix_of` heap st' ∧
      cache_le (cache st) (cache st') ∧
      match lookup (cache st) func argtypes with
      | None => cold_result st st' func argtypes r
      | Some cached => r = cached ∧ st' = st
      end
  | Keep.Raised e st' =>
      heap st `prefix_of` heap st' ∧ cache_le (cache st) (cache st')
  | Keep.OutOfFuel => True
  end ∧
  same_outcome A n0 (infer prog fields promote fuel func argtypes st)
                    (infer prog fields promote fuel func argtypes st2).
Proof.
  intros Hwf Hsim. split; [by apply Context_copy_spec|].
  pose proof (agree_infer prog fields promote fuel func argtypes st) as Hag.
  split; [exact Hag|]. split; [|by apply infer_lockstep].
  pose proof (keep_infer_extends prog fields promote fuel func argtypes st st eq_refl)
    as Hframe.
  destruct (Keep.infer prog fields promote fuel func argtypes st) as [r st'|e st'|];
    [|exact Hframe|done].
  destruct Hframe as [Hh Hc]. split; [done|]. split; [done|].
  simpl in Hag. symmetry in Hag.
  destruct fuel as [|fuel]; [discriminate|]. simpl in Hag.
  destruct (lookup (cache st) func argtypes) as [cached|] eqn:Hl.
  - unfold infer_body, bind, get_cache in Hag. rewrite Hl in Hag.
    by injection Hag as <- <-.
  - apply infer_body_frame in Hag as [_ Hcold]; [by apply Hcold|].
    intros; apply infer_extends.
Qed.

(** ** C10: seeding with a different number of types *)

(** C10. Whatever the number of argument types, [seed_context] cannot
    fail: it pairs formals and types positionally up to the shorter
    length.  Surplus types are dropped (the run is the run on the types cut
    to the number of formals), every paired formal is bound to a new
    singleton of its type, and every other node, a surplus formal
    included, keeps the binding it had or stays unbound.  [infer] hands
    its argument types to [seed_context] as they are: for [identity],
    which has one formal, it returns a signature both with two argument
    types and with none. *)
Theorem seed_context_pairs_positionally ctx argtypes st :
  let formals := f_args (prog (ctx_func ctx)) in
  ∃ ctx' st',
    seed_context prog ctx argtypes st = Done (ctx', st') ∧
    seed_context prog ctx (take (length formals) argtypes) st = Done (ctx', st') ∧
    heap st' = heap st ++ ((λ t, [t]) <$> take (length formals) argtypes) ∧
    cache st' = cache st ∧
    shares_template ctx ctx' ∧
    (∀ n, n ∉ take (length argtypes) formals →
          dict_get (ctx_context ctx') n = dict_get (ctx_context ctx) n) ∧
    (∀ i arg t,
       formals !! i = Some arg → argtypes !! i = Some t →
       arg ∉ drop (S i) (take (length argtypes) formals) →
       ∃ a, dict_get (ctx_context ctx') arg = Some a ∧ deref (heap st') a = [t]) ∧
    (∃ ctx2 st2,
       infer Examples.prog Examples.fields Examples.promote 1 0
         [Examples.Int32; Examples.Float64] Examples.seeded =
       Done ((VContext ctx2,
              VType (Function Examples.Int32 [Examples.Int32; Examples.Float64])), st2)) ∧
    (∃ ctx0 st0,
       infer Examples.prog Examples.fields Examples.promote 1 0 [] Examples.seeded =
       Done ((VContext ctx0, VType (Function Examples.Int32 [])), st0) ∧
       dict_get (ctx_context ctx0) (NFuncArg 0) = None).
Proof.
  intros formals.
  assert (Hinfer :
    (∃ ctx2 st2,
       infer Examples.prog Examples.fields Examples.promote 1 0
         [Examples.Int32; Examples.Float64] Examples.seeded =
       Done ((VContext ctx2,
              VType (Function Examples.Int32 [Examples.Int32; Examples.Float64])), st2)) ∧
    (∃ ctx0 st0,
       infer Examples.prog Examples.fields Examples.promote 1 0 [] Examples.seeded =
       Done ((VContext ctx0, VType (Function Examples.Int32 [])), st0) ∧
       dict_get (ctx_context ctx0) (NFuncArg 0) = None)).
  { split; [eexists _, _; lazy; reflexivity|].
    eexists _, _. split; [lazy; reflexivity|reflexivity]. }
  unfold seed_context. fold formals.
  destruct (seed_loop (zip formals argtypes) ctx st) as (ctx' & Hrun & Hs & Hother & Hseed).
  exists ctx', (mkState (heap st ++ ((λ p, [p.2]) <$> zip formals argtypes)) (cache st)).
  assert (Hsets : ((λ p : Node * Ty, [p.2]) <$> zip formals argtypes)
                  = (λ t, [t]) <$> take (length formals) argtypes).
  { rewrite <- zip_snd_take, <- list_fmap_compose. done. }
  split; [exact Hrun|]. split; [by rewrite zip_take_r|].
  split; [cbn [heap]; by rewrite Hsets|]. split; [done|]. split; [exact Hs|].
  split; [|split; [|exact Hinfer]].
  - intros n Hn. apply Hother. by rewrite zip_fst_take.
  - intros i arg t Hi Ht Hlast. exists (length (heap st) + i). split.
    + apply (Hseed i arg t).
      * apply lookup_zip_with_Some. eauto.
      * by rewrite fmap_drop, zip_fst_take.
    + cbn [heap]. unfold deref. rewrite lookup_app_r by lia.
      replace (length (heap st) + i - length (heap st)) with i by lia.
      rewrite list_lookup_fmap.
      assert (Hz : zip formals argtypes !! i = Some (arg, t))
        by (apply lookup_zip_with_Some; eauto).
      by rewrite Hz.
Qed.

(** ** A missing field, on a bound node *)

(** X16. A visit of an ['attr'] node whose own type set is bound, and
    whose single predecessor has, among the candidate types of its type
    set, a type without the field named in the node's metadata, raises
    [InferError] carrying that type and the field name; the type reported
    is the first such candidate of the iteration, the candidates before it
    having been processed; and the worklist loop does not recover: the
    run of the solver raises the same error.  The node is a node of the
    graph, its type set is another set object than the predecessor's, and
    every candidate is a type that has the field or lacks it. *)
Theorem attr_missing_field_is_fatal R ctx node neighbor attr a b st ty fuel W :
  dict_get (ctx_constraints ctx) node = Some "attr" →
  node ∈ g_nodes (ctx_graph ctx) →
  predecessors (ctx_graph ctx) node = [neighbor] →
  dict_get (ctx_metadata ctx) node = Some (MetaAttr (ANode attr)) →
  typeset_of ctx node (heap st) = Some a →
  dict_get (ctx_context ctx) neighbor = Some b →
  a ≠ b →
  Forall (λ t, has_field prog fields attr t || lacks_field fields attr t = true)
         (deref (heap st) b) →
  ty ∈ deref (heap st) b →
  lacks_field fields attr ty = true →
  ∃ pre ty' post,
    deref (heap st) b = pre ++ ty' :: post ∧
    Forall (λ t, has_field prog fields attr t = true) pre ∧
    lacks_field fields attr ty' = true ∧
    infer_node prog fields R ctx node st = Raise (InferError ty' attr) ∧
    worklist prog fields R (S fuel) ctx (node :: W) st = Raise (InferError ty' attr).
Proof.
    intros HC Hnode Hin Hmd Ha Hb Hne Hall Hty Hlacks.
  destruct (first_lacking _ _ _ ty Hall Hty Hlacks) as (pre & ty' & post & Hset & Hpre & Hty').
  exists pre, ty', post. split; [done|]. split; [done|]. split; [done|].
  assert (Hraise : infer_node prog fields R ctx node st = Raise (InferError ty' attr))
    by (eapply infer_node_attr_raises; eauto).
  split; [exact Hraise|]. cbn [worklist]. by apply bind_Raise.
Qed.

(** ** C6: termination of the solver *)

(** C6. When the types that the type sets can hold during the run stay
    within a finite universe [U], the worklist loop of [infer_graph]
    comes to an end, returning or raising, within
    [nodes + (edges + 1) * capacity] iterations, where the capacity is the
    number of members the bound type sets can still gain within [U].  The
    recursive inference of callees is assumed to return and to leave the
    caller's sets alone, every binding refers to an existing set, and Type
    literals are sources of the graph. *)
Theorem solver_terminates R U ctx st0 fuel :
  (∀ f args, extends (R f args)) →
  (∀ f args, returns (R f args)) →
  allocated ctx st0 →
  literals_are_sources ctx →
  (∀ st, visits prog fields R ctx st0 st → bounded U ctx st) →
  length (g_nodes (ctx_graph ctx))
    + (length (g_edges (ctx_graph ctx)) + 1) * capacity U ctx (heap st0) < fuel →
  finished (infer_graph prog fields R fuel ctx st0).
Proof.
  intros HRe HRr Halloc Hlit Hbound Hfuel. apply finished_returns. unfold infer_graph.
  eapply worklist_returns; eauto. apply visits_refl.
Qed.

End Specification.

(** ** C1: the bindings at entry to the solver *)

(** C1. [build_graph] returns a template whose context is empty, so the
    specialized context that enters the solver binds the seeded formal
    arguments and nothing else.  For [identity] called with [Int32]: the
    graph has the operation, the argument and the return node; the
    context at solver entry binds the argument alone; and the first
    lookup of the solver, for the operation, fails with [KeyError]. *)
Theorem solver_entry_binds_arguments_only :
  (∀ f func,
     match build_graph f func with
     | Done tmpl => ctx_context tmpl = []
     | _ => True
     end) ∧
  build_graph 0 Examples.identity =
    Done (mkContext 0 [] []
            (mkGraph [NOp 0; NFuncArg 0; return_node] [(NFuncArg 0, return_node)]) []) ∧
  (let! ctx := Context_copy
                 (mkContext 0 [] []
                    (mkGraph [NOp 0; NFuncArg 0; return_node]
                             [(NFuncArg 0, return_node)]) []) in
   seed_context Examples.prog ctx [Examples.Int32]) Examples.fresh =
    Done (mkContext 0 [(NFuncArg 0, 0)] []
            (mkGraph [NOp 0; NFuncArg 0; return_node] [(NFuncArg 0, return_node)]) [],
          mkState [[Examples.Int32]] Examples.empty_cache) ∧
  ∀ fuel,
    infer Examples.prog Examples.fields Examples.promote (S fuel) 0 [Examples.Int32]
      Examples.fresh = Raise (KeyError (NOp 0)).
Proof.
  split; [|split; [|split]].
  - intros f func. unfold build_graph.
    destruct (generate_constraints _ _) as [[[constraints metadata] G]| |]; done.
  - reflexivity.
  - reflexivity.
  - intros fuel. reflexivity.
Qed.

(** ** C4: call combinations across visits *)

(** C4. In one solver run over [revisit_ctx], the call node is visited
    again after its argument gained the type [Float64], and the
    combination (callee [g], [Int32]) that was resolved on the earlier
    visit is resolved again: the resolver is invoked three times, twice
    with the same combination. *)
Theorem call_combination_resolved_again :
  infer_graph Examples.prog Examples.fields Examples.recording 20
    Examples.revisit_ctx Examples.revisit_state =
  Done (tt,
        mkState
          [[Examples.Int32];
           [Function Examples.Int32 [Examples.Int32]];
           [Examples.Int32; Examples.Float64];
           [Examples.Int32];
           [Examples.Float64];
           [Examples.Float64];
           [FuncRef 1; Examples.Int32];
           [FuncRef 1; Examples.Int32];
           [FuncRef 1; Examples.Float64]]
          Examples.empty_cache).
Proof. vm_compute. reflexivity. Qed.

(** ** The statements on the example programs *)

Lemma infer_hit_swaps_cold_witness :
  ∃ r st',
    infer Examples.prog Examples.fields Examples.promote 1 0 [] Examples.seeded
      = Done (r, st') ∧
    infer Examples.prog Examples.fields Examples.promote 1 0 [] st'
      = Done ((r.2, r.1), st') ∧
    (r.2, r.1) ≠ r.
Proof.
  eexists _, _. split; [lazy; reflexivity|].
  apply (infer_hit_swaps_cold Examples.prog Examples.fields Examples.promote
           1 0 0 [] Examples.seeded); reflexivity.
Defined.

Lemma typesets_only_grow_witness :
  deref (heap Examples.flow_state) 2 ⊆ [Examples.Int32] ∧
  length (deref (heap Examples.flow_state) 2) ≤ 1.
Proof.
  apply (typesets_only_grow Examples.prog Examples.fields Examples.promote 1
           Examples.flow_ctx Examples.flow_state
           (mkState [[]; [Examples.Int32]; [Examples.Int32]] Examples.empty_cache)
           return_node 2).
  - eapply visits_step; [apply visits_refl|].
    instantiate (1 := true). instantiate (1 := return_node). reflexivity.
  - reflexivity.
Defined.

Lemma specialization_is_private_witness :
  (∃ r st',
     Keep.infer Examples.prog Examples.fields Examples.promote 10 0 [Examples.Float64]
       (MoreExamples.flow_session_with [Examples.Float64]) = Keep.Returned r st' ∧
     heap (MoreExamples.flow_session_with [Examples.Float64]) `prefix_of` heap st' ∧
     length (heap (MoreExamples.flow_session_with [Examples.Float64])) < length (heap st') ∧
     cold_result (MoreExamples.flow_session_with [Examples.Float64]) st' 0
       [Examples.Float64] r ∧
     same_outcome [0; 1; 2] 4
       (infer Examples.prog Examples.fields Examples.promote 10 0 [Examples.Float64]
          (MoreExamples.flow_session_with [Examples.Float64]))
       (infer Examples.prog Examples.fields Examples.promote 10 0 [Examples.Float64]
          (MoreExamples.flow_session_with [Examples.Int32; Examples.Float64]))) ∧
  (∃ st',
     Keep.infer MoreExamples.getq_prog Examples.fields Examples.promote 10 0
       [Examples.Point] MoreExamples.other_session
       = Keep.Raised (KeyError (NOp 0)) st' ∧
     heap MoreExamples.other_session `prefix_of` heap st' ∧
     length (heap MoreExamples.other_session) < length (heap st') ∧
     lookup_ctx (cache MoreExamples.other_session) 0 = None ∧
     is_Some (lookup_ctx (cache st') 0) ∧
     cache_le (cache MoreExamples.other_session) (cache st')).
Proof.
  split.
  - destruct (specialization_is_private Examples.prog Examples.fields Examples.promote
                10 0 [Examples.Float64] (MoreExamples.flow_session_with [Examples.Float64])
                Examples.flow_ctx [0; 1; 2] 4
                (MoreExamples.flow_session_with [Examples.Int32; Examples.Float64]))
      as (_ & _ & Hframe & Hsame).
    + repeat constructor.
    + split; [reflexivity|]. split; [reflexivity|]. split; [simpl; lia|]. split.
      * intros g t Hg. unfold lookup_ctx in Hg. simpl in Hg.
        destruct (decide (0 = g)); [|discriminate]. injection Hg as <-.
        repeat constructor; left; by_compute.
      * intros a [Ha|Ha].
        -- repeat (apply elem_of_cons in Ha as [->|Ha]; [reflexivity|]).
           by apply elem_of_nil in Ha.
        -- rewrite !lookup_ge_None_2 by (simpl; lia). reflexivity.
    + destruct (Keep.infer _ _ _ _ _ _ _) as [r st'|e st'|] eqn:Hrun;
        [|vm_compute in Hrun; discriminate..].
      exists r, st'. destruct Hframe as (Hh & _ & Hcold).
      split; [reflexivity|]. split; [exact Hh|].
      split; [vm_compute in Hrun; injection Hrun as _ <-; simpl; lia|].
      split; [exact Hcold|exact Hsame].
  - destruct (specialization_is_private MoreExamples.getq_prog Examples.fields
                Examples.promote 10 0 [Examples.Point] MoreExamples.other_session
                Examples.returns_int32 [] 1 MoreExamples.other_session)
      as (_ & _ & Hframe & _).
    + repeat constructor.
    + split; [reflexivity|]. split; [reflexivity|]. split; [simpl; lia|].
      split; [by intros g t Hg|done].
    + destruct (Keep.infer _ _ _ _ _ _ _) as [r st'|e st'|] eqn:Hrun;
        [vm_compute in Hrun; discriminate| |vm_compute in Hrun; discriminate].
      exists st'. destruct Hframe as (Hh & Hc).
      assert (e = KeyError (NOp 0)) as -> by (vm_compute in Hrun; by injection Hrun as <-).
      split; [reflexivity|]. split; [exact Hh|].
      split; [vm_compute in Hrun; injection Hrun as <-; simpl; lia|].
      split; [reflexivity|].
      split; [vm_compute in Hrun; injection Hrun as <-; by eexists|exact Hc].
Defined.

Lemma attr_missing_field_is_fatal_witness :
  ∃ pre ty' post,
    deref (heap Examples.attr_state) 1 = pre ++ ty' :: post ∧
    Forall (λ t, has_field Examples.prog Examples.fields (NStr "q") t = true) pre ∧
    lacks_field Examples.fields (NStr "q") ty' = true ∧
    infer_node Examples.prog Examples.fields Examples.recording Examples.attr_ctx
      (NOp 0) Examples.attr_state = Raise (InferError ty' (NStr "q")) ∧
    worklist Examples.prog Examples.fields Examples.recording 1 Examples.attr_ctx
      [NOp 0] Examples.attr_state = Raise (InferError ty' (NStr "q")).
Proof.
  apply (attr_missing_field_is_fatal Examples.prog Examples.fields Examples.recording
           Examples.attr_ctx (NOp 0) (NFuncArg 0) (NStr "q") 0 1 Examples.attr_state
                      Examples.Point 0 []); try reflexivity.
  - left.
  - discriminate.
  - repeat constructor.
  - right. left.
Defined.

Lemma solver_terminates_witness :
  finished (infer_graph Examples.prog Examples.fields Examples.recording 8
              Examples.flow_ctx Examples.flow_state).
Proof.
  apply (solver_terminates Examples.prog Examples.fields Examples.recording
           [Examples.Int32] Examples.flow_ctx Examples.flow_state 8).
  - intros f args st r st' Hrun. injection Hrun as _ <-.
    split; [by apply prefix_app_r|apply cache_le_refl].
  - intros f args st. discriminate.
  - repeat constructor.
  - intros t. split; reflexivity.
  - intros st Hv.
    refine (proj2 (flow_visits_bounded Examples.prog Examples.fields Examples.recording
                     [Examples.Int32] Examples.flow_ctx _ Examples.flow_state st _ _ Hv)).
    + reflexivity.
    + repeat constructor.
    + apply bounded_Forall.
      apply Forall_cons; split; [by intros x Hx%elem_of_nil|].
      apply Forall_cons; split; [by intros x Hx|].
      apply Forall_cons; split; [by intros x Hx%elem_of_nil|]. by apply Forall_nil.
  - vm_compute. lia.
Defined.

(** * Further properties of the code *)

(** ** One visit, by an invariant *)

Lemma add_result_run a t changed st :
  add_result a t changed st =
  Done (changed || negb (bool_decide (t ∈ deref (heap st) a)),
        mkState (<[a := set_add t (deref (heap st) a)]> (heap st)) (cache st)).
Proof. reflexivity. Qed.

Section VisitRule.

Variable prog : fid → IRFunction.
Variable fields : Ty → list (string * (Ty * Ty)).
Variable R : fid → list Ty → M (PyVal * PyVal).
Hypothesis R_extends : ∀ f args, extends (R f args).

Variable ctx : InferContext.
Variable node : Node.

(** An invariant of the visit, about the node's type set at [a] and the
    flag [changed]: it is kept by every addition to the type set and by
    every step that only extends the state. *)
Variable I : nat → bool → State → Prop.
Hypothesis I_add : ∀ a t changed, hoare (I a changed) (add_result a t changed) (I a).
Hypothesis I_le : ∀ a changed st st', I a changed st → state_le st st' → I a changed st'.

Lemma rule_extends {X} (m : M X) a changed :
  extends m → hoare (I a changed) m (λ _, I a changed).
Proof using I_le. intros Hm st r st' HI Hrun. eapply I_le; [exact HI|]. by eapply Hm. Qed.

Lemma infer_node_rule (P : State → Prop) :
  hoare P (match node with NType t => new_set [t] | _ => context_get ctx node end)
        (λ a, I a false) →
  hoare P (infer_node prog fields R ctx node) (λ changed st, ∃ a, I a changed st).
Proof using R_extends I_add I_le.
  intros Hentry. unfold infer_node.
  eapply hoare_bind; [exact Hentry|]. intros a.
  apply hoare_conseq with (P' := I a false) (Q' := I a); [|done|by eauto].
  eapply hoare_bind; [apply hoare_pure, graph_predecessors_pure|]. intros incoming.
  repeat case_decide.
  - apply (for_list_hoare (I a)). intros neighbor changed _.
    eapply hoare_bind; [apply hoare_pure, context_get_pure|]. intros b.
    apply (for_set_hoare (I a)). intros t ch. apply I_add.
  - apply (for_list_hoare (I a)). intros neighbor changed _.
    eapply hoare_bind; [apply hoare_pure, context_get_pure|]. intros b.
    apply (for_set_hoare (I a)). intros t ch. apply I_add.
  - destruct incoming as [|neighbor [|]]; try apply hoare_raise.
    eapply hoare_bind; [apply hoare_pure, lift_pure|]. intros md.
    eapply hoare_bind;
      [apply hoare_pure; destruct md; [apply ret_pure|apply raise_pure]|]. intros attr.
    eapply hoare_bind; [apply hoare_pure, context_get_pure|]. intros b.
    apply (for_set_hoare (I a)). intros t ch. unfold infer_attr.
    eapply hoare_bind; [apply hoare_pure, liftO_pure|]. intros fs.
    eapply hoare_bind; [apply hoare_pure, liftO_pure|]. intros key.
    destruct (field_get fs key) as [[value result]|]; [|apply hoare_raise].
    eapply hoare_bind; [apply hoare_pure, liftO_pure|]. intros rname.
    apply I_add.
  - eapply hoare_bind; [apply hoare_pure, lift_pure|]. intros md.
    destruct md as [attr|func args]; [apply hoare_raise|].
    eapply hoare_bind; [apply hoare_pure, liftO_pure|]. intros func'.
    eapply hoare_bind; [apply hoare_pure, context_get_pure|]. intros func_types.
    eapply hoare_bind; [apply hoare_pure, liftO_pure|]. intros args'.
    eapply hoare_bind.
    { apply hoare_pure, for_list_pure. intros x acc.
      apply pure_bind; [apply context_get_pure|intros; apply ret_pure]. }
    intros arg_typess.
    eapply hoare_bind with (Q := λ r st, I a r.1 st);
      [|intros r; apply hoare_ret; auto].
    refine (for_set_hoare (λ (r : bool * list (Node * Ty * list Ty)) st,
                             I a r.1 st) _ _ _ (false, [])).
    intros func_type acc.
    eapply hoare_bind.
    { apply hoare_pure, for_list_pure. intros x acc'.
      apply pure_bind; [apply read_set_pure|intros; apply ret_pure]. }
    intros pools.
    refine (for_list_hoare (λ (r : bool * list (Node * Ty * list Ty)) st,
                              I a r.1 st) _ _ _ acc).
    intros arg_types [changed processed] _. case_decide; [apply hoare_ret; auto|].
    eapply hoare_bind; [apply rule_extends, infer_call_extends, R_extends|]. intros result.
    eapply hoare_bind; [apply I_add|]. intros changed'.
    apply hoare_ret. auto.
  - apply hoare_raise.
Qed.

End VisitRule.

(** ** The effect of one visit *)

Lemma set_insert_same (h : list (list Ty)) a t :
  t ∈ deref h a → <[a := set_add t (deref h a)]> h = h.
Proof.
  intros Ht. unfold set_add. rewrite decide_True by done.
  unfold deref in *. destruct (h !! a) as [s|] eqn:E; simpl in *.
  - by apply list_insert_id.
  - by apply elem_of_nil in Ht.
Qed.

Lemma iter_set_ext {Acc} b n (xs : list Ty) (body body' : Ty → Acc → M Acc) :
  (∀ x acc st, body x acc st = body' x acc st) →
  ∀ acc st, iter_set b n xs body acc st = iter_set b n xs body' acc st.
Proof.
  intros Hext. induction xs as [|x xs IH]; intros acc st; simpl; [done|].
  unfold bind at 1 3. rewrite Hext. destruct (body' x acc st) as [[acc' st1]| |]; [|done..].
  unfold bind. destruct (check_size b n st1) as [[[] st2]| |]; [|done..]. apply IH.
Qed.

(** The loop over the members of one predecessor's type set: every
    member's derived type is in the node's type set afterwards. *)
Lemma iter_derive (g : Ty → outcome Ty) a b n (xs : list Ty) : ∀ changed st changed' st',
  a < length (heap st) →
  iter_set b n xs (λ t c, let! r := liftO (g t) in add_result a r c) changed st
    = Done (changed', st') →
  grows_at a (heap st) (heap st') ∧
  length (heap st') = length (heap st) ∧
  (∀ t, t ∈ xs → ∃ r, g t = Done r ∧ r ∈ deref (heap st') a) ∧
  (∀ r, r ∈ deref (heap st') a →
        r ∈ deref (heap st) a ∨ ∃ t, t ∈ xs ∧ g t = Done r).
Proof.
  induction xs as [|x xs IH]; intros changed st changed' st' Ha; simpl.
  - intros [= <- <-]. split; [apply grows_at_refl|]. split; [done|].
    split; [|by left]. intros t Ht. by apply elem_of_nil in Ht.
  - intros Hrun. apply bind_Done in Hrun as (c1 & st1 & Hb & Hrun).
    apply bind_Done in Hb as (r & s0 & Hg & Hadd).
    unfold liftO in Hg. destruct (g x) as [r'| |] eqn:Eg; try discriminate.
    injection Hg as -> ->. rewrite add_result_run in Hadd. injection Hadd as <- <-.
    apply bind_Done in Hrun as ([] & st2 & Hc & Hrun).
    apply check_size_pure in Hc. subst st2.
    apply IH in Hrun as (G & L & H & J); [|simpl; by rewrite length_insert].
    simpl in G, L, J. rewrite length_insert in L.
    split; [eapply grows_at_trans; [apply grows_at_add|exact G]|]. split; [done|].
    split.
    + intros t [->|Ht]%elem_of_cons; [|by apply H].
      exists r. split; [done|].
      apply (prefix_subseteq _ _ (grows_at_mono a _ _ a G)).
      rewrite deref_insert_eq by done. apply set_add_elem.
    + intros r0 [Hr0|(t & Ht & Hgt)]%J.
      * rewrite deref_insert_eq in Hr0 by done. unfold set_add in Hr0.
        match type of Hr0 with context [decide (?x ∈ ?l)] =>
          destruct (decide (x ∈ l)) end; [by left|].
        apply elem_of_app in Hr0 as [Hr0|Hr0%list_elem_of_singleton]; [by left|].
        subst r0.
        right. exists x. split; [by left|done].
      * right. exists t. split; [by right|done].
Qed.

(** The loop over the predecessors. *)
Lemma transfer_derive (g : Ty → outcome Ty) (ctx : InferContext) a (incoming : list Node) :
  ∀ changed st changed' st',
  a < length (heap st) →
  for_list incoming
    (λ neighbor changed,
       let! b := context_get ctx neighbor in
       for_set b (λ t c, let! r := liftO (g t) in add_result a r c) changed)
    changed st = Done (changed', st') →
  grows_at a (heap st) (heap st') ∧
  length (heap st') = length (heap st) ∧
  (∀ u, u ∈ incoming →
     ∃ b, dict_get (ctx_context ctx) u = Some b ∧
          ∀ t, t ∈ deref (heap st) b → ∃ r, g t = Done r ∧ r ∈ deref (heap st') a) ∧
  (∀ r, r ∈ deref (heap st') a →
        r ∈ deref (heap st) a ∨
        ∃ u b t, u ∈ incoming ∧ dict_get (ctx_context ctx) u = Some b ∧
                 t ∈ deref (heap st') b ∧ g t = Done r).
Proof.
  induction incoming as [|u incoming IH]; intros changed st changed' st' Ha; simpl.
  - intros [= <- <-]. split; [apply grows_at_refl|]. split; [done|].
    split; [|by left]. intros t Ht. by apply elem_of_nil in Ht.
  - intros Hrun. apply bind_Done in Hrun as (c1 & st1 & Hb & Hrun).
    apply bind_Done in Hb as (b & s0 & Hget & Hset).
    unfold context_get, lift in Hget.
    destruct (dict_get (ctx_context ctx) u) as [b'|] eqn:Eb; [|discriminate].
    injection Hget as -> ->.
    unfold for_set in Hset. apply bind_Done in Hset as (s & s1 & Hread & Hset).
    injection Hread as <- <-.
    apply iter_derive in Hset as (G1 & L1 & H1 & J1); [|done].
    apply IH in Hrun as (G2 & L2 & H2 & J2); [|lia].
    split; [by eapply grows_at_trans|]. split; [lia|]. split.
    + intros v [->|Hv]%elem_of_cons.
      * exists b. split; [done|]. intros t Ht.
        destruct (H1 t Ht) as (r & Hg & Hr). exists r. split; [done|].
        by apply (prefix_subseteq _ _ (grows_at_mono a _ _ a G2)).
      * destruct (H2 v Hv) as (b2 & Hb2 & H). exists b2. split; [done|].
        intros t Ht. apply H.
        by apply (prefix_subseteq _ _ (grows_at_mono a _ _ b2 G1)).
    + intros r [Hr|(v & b2 & t & Hv & Hb2 & Ht & Hg)]%J2.
      * apply J1 in Hr as [Hr|(t & Ht & Hg)]; [by left|].
        right. exists u, b, t. split; [by left|]. split; [done|]. split; [|done].
        apply (prefix_subseteq _ _ (grows_at_mono a _ _ b G2)).
        by apply (prefix_subseteq _ _ (grows_at_mono a _ _ b G1)).
      * right. exists v, b2, t. split; [by right|done].
Qed.

Lemma elem_predecessors G u v : u ∈ predecessors G v ↔ (u, v) ∈ g_edges G.
Proof.
  unfold predecessors. rewrite list_elem_of_fmap. split.
  - intros ([u' v'] & -> & [Hv He]%list_elem_of_filter). simpl in *. by subst.
  - intros He. exists (u, v). split; [done|]. by apply list_elem_of_filter.
Qed.

Lemma elem_neighbors G u v : v ∈ neighbors G u ↔ (u, v) ∈ g_edges G.
Proof.
  unfold neighbors. rewrite list_elem_of_fmap. split.
  - intros ([u' v'] & -> & [Hv He]%list_elem_of_filter). simpl in *. by subst.
  - intros He. exists (u, v). split; [done|]. by apply list_elem_of_filter.
Qed.

Lemma appendleft_elem (W : list Node) ns x :
  x ∈ foldl (λ W neighbor, neighbor :: W) W ns ↔ x ∈ ns ∨ x ∈ W.
Proof.
  revert W. induction ns as [|n ns IH]; intros W; simpl.
  - split; [auto|]. intros [H|H]; [by apply elem_of_nil in H|done].
  - rewrite IH, !elem_of_cons. tauto.
Qed.

Lemma dict_get_elem {K V} `{EqDecision K} (d : list (K * V)) k v :
  dict_get d k = Some v → (k, v) ∈ d.
Proof.
  induction d as [|[k' v'] d IH]; simpl; [done|]. case_decide.
  - intros [= ->]. subst. by left.
  - intros Hd. right. auto.
Qed.

Lemma unaliased_inj ctx u v b :
  unaliased ctx →
  dict_get (ctx_context ctx) u = Some b →
  dict_get (ctx_context ctx) v = Some b →
  u = v.
Proof.
  unfold unaliased. intros Hnd Hu%dict_get_elem Hv%dict_get_elem.
  apply list_elem_of_lookup in Hu as [i Hi]. apply list_elem_of_lookup in Hv as [j Hj].
  assert (i = j) as ->.
  { eapply NoDup_lookup; [exact Hnd| |]; rewrite list_lookup_fmap.
    - by rewrite Hi. - by rewrite Hj. }
  congruence.
Qed.

Lemma allocated_bound ctx st n a :
  allocated ctx st → dict_get (ctx_context ctx) n = Some a → a < length (heap st).
Proof.
  intros Hal Hn%dict_get_values. unfold allocated in Hal.
  rewrite Forall_forall in Hal. by apply Hal.
Qed.

Section Visit.

Variable prog : fid → IRFunction.
Variable fields : Ty → list (string * (Ty * Ty)).
Variable R : fid → list Ty → M (PyVal * PyVal).
Hypothesis R_extends : ∀ f args, extends (R f args).

Lemma infer_attr_derive a attr t changed st :
  infer_attr prog fields a attr t changed st =
  (let! r := liftO (attr_result prog fields attr t) in add_result a r changed) st.
Proof.
  unfold infer_attr, attr_result, bind, liftO, obind.
  destruct (get_fields fields t) as [fs| |]; [|done..].
  destruct (as_key attr) as [key| |]; [|done..].
  destruct (field_get fs key) as [[value result]|]; [|done].
  destruct (get_name prog result) as [rname| |]; done.
Qed.

(** A visit that reports no change has left every set object that existed
    as it was. *)
Lemma infer_node_unchanged ctx node st st' :
  infer_node prog fields R ctx node st = Done (false, st') →
  heap st `prefix_of` heap st'.
Proof using R_extends.
  intros Hrun.
  pose (I := λ (_ : nat) (changed : bool) (s : State),
               changed = false → heap st `prefix_of` heap s).
  destruct (infer_node_rule prog fields R R_extends ctx node I) with
    (P := λ s, s = st) (st := st) (a := false) (st' := st') as (a & HI); try done.
  - intros a t changed s r s' HI Hadd. rewrite add_result_run in Hadd.
    injection Hadd as <- <-. intros [Hc Hin]%orb_false_elim. simpl.
    apply negb_false_iff, bool_decide_eq_true in Hin.
    rewrite set_insert_same by done. auto.
  - intros a changed s s' HI [Hle _] Hc. etrans; [by apply HI|done].
  - intros s a s' -> Hentry _.
    destruct node; try (apply context_get_pure in Hentry; by subst).
    injection Hentry as <- <-. by apply prefix_app_r.
  - by apply HI.
Qed.

(** What a visit of a bound node derives from the members that its
    predecessors had when the visit began is in its type set when the
    visit returns. *)
Lemma visit_derives ctx node a st changed st' :
  infer_node prog fields R ctx node st = Done (changed, st') →
  is_literal node = false →
  dict_get (ctx_context ctx) node = Some a →
  a < length (heap st) →
  ∀ u b t r,
    u ∈ predecessors (ctx_graph ctx) node →
    dict_get (ctx_context ctx) u = Some b →
    t ∈ deref (heap st) b →
    derived prog fields ctx node t = Some r →
    r ∈ deref (heap st') a.
Proof.
  unfold infer_node. intros Hrun Hlit Ha Hlen u b t r Hu Hb Ht Hd.
  apply bind_Done in Hrun as (a' & st1 & Hts & Hrun).
  assert (a' = a ∧ st1 = st) as [-> ->].
  { destruct node; try discriminate; unfold context_get in Hts; rewrite Ha in Hts;
      by injection Hts as -> ->. }
  apply bind_Done in Hrun as (incoming & st2 & Hp & Hrun).
  unfold graph_predecessors in Hp.
  destruct (decide (node ∈ g_nodes (ctx_graph ctx))); [|discriminate].
  injection Hp as <- <-.
  unfold derived in Hd. revert Hrun Hd.
  destruct (decide (default "flow" (dict_get (ctx_constraints ctx) node) = "pointer"));
    [|destruct (decide (default "flow" (dict_get (ctx_constraints ctx) node) = "flow"));
      [|destruct (decide (default "flow" (dict_get (ctx_constraints ctx) node) = "attr"));
        [|done]]].
  - intros Hrun [= <-].
    apply (transfer_derive (λ t, Done (Pointer t))) in Hrun as (_ & _ & H & _); [|done].
    destruct (H u Hu) as (b' & Hb' & H'). rewrite Hb in Hb'. injection Hb' as <-.
    destruct (H' t Ht) as (r & [= <-] & Hr). done.
  - intros Hrun [= <-].
    apply (transfer_derive (λ t, Done t)) in Hrun as (_ & _ & H & _); [|done].
    destruct (H u Hu) as (b' & Hb' & H'). rewrite Hb in Hb'. injection Hb' as <-.
    destruct (H' t Ht) as (r & [= <-] & Hr). done.
  - intros Hrun Hd.
    destruct (predecessors (ctx_graph ctx) node) as [|neighbor [|]] eqn:Ep;
      try discriminate.
    apply list_elem_of_singleton in Hu as ->.
    apply bind_Done in Hrun as (md & s1 & Hmd & Hrun).
    unfold lift in Hmd. destruct (dict_get (ctx_metadata ctx) node) as [md'|];
      [|discriminate]. injection Hmd as -> ->.
    apply bind_Done in Hrun as (attr & s2 & Hattr & Hrun).
    destruct md as [attr'|]; [|discriminate]. injection Hattr as -> ->.
    apply bind_Done in Hrun as (b' & s3 & Hget & Hrun).
    unfold context_get in Hget. rewrite Hb in Hget. injection Hget as <- <-.
    unfold for_set in Hrun. apply bind_Done in Hrun as (s & s4 & Hread & Hrun).
    injection Hread as <- <-.
    rewrite (iter_set_ext _ _ _ _ _ (infer_attr_derive a attr)) in Hrun.
    apply iter_derive in Hrun as (_ & _ & H & _); [|done].
    destruct (H t Ht) as (r' & Hg & Hr). rewrite Hg in Hd. by injection Hd as <-.
Qed.

(** Every member that the type set of a bound node has when the visit
    returns, and did not have before, is derived from a member of the type
    set of a predecessor, unless the node is a ['call'] node. *)
Lemma visit_justifies ctx node a st changed st' :
  infer_node prog fields R ctx node st = Done (changed, st') →
  is_literal node = false →
  dict_get (ctx_context ctx) node = Some a →
  a < length (heap st) →
  default "flow" (dict_get (ctx_constraints ctx) node) ≠ "call" →
  ∀ r, r ∈ deref (heap st') a →
    r ∈ deref (heap st) a ∨
    ∃ u b t, u ∈ predecessors (ctx_graph ctx) node ∧
             dict_get (ctx_context ctx) u = Some b ∧
             t ∈ deref (heap st') b ∧ derived prog fields ctx node t = Some r.
Proof.
  unfold infer_node. intros Hrun Hlit Ha Hlen Hcall r Hr.
  apply bind_Done in Hrun as (a' & st1 & Hts & Hrun).
  assert (a' = a ∧ st1 = st) as [-> ->].
  { destruct node; try discriminate; unfold context_get in Hts; rewrite Ha in Hts;
      by injection Hts as -> ->. }
  apply bind_Done in Hrun as (incoming & st2 & Hp & Hrun).
  unfold graph_predecessors in Hp.
  destruct (decide (node ∈ g_nodes (ctx_graph ctx))); [|discriminate].
  injection Hp as <- <-.
  unfold derived. revert Hrun.
  destruct (decide (default "flow" (dict_get (ctx_constraints ctx) node) = "pointer"));
    [|destruct (decide (default "flow" (dict_get (ctx_constraints ctx) node) = "flow"));
      [|destruct (decide (default "flow" (dict_get (ctx_constraints ctx) node) = "attr"));
        [|rewrite decide_False by done; discriminate]]].
  - intros Hrun.
    apply (transfer_derive (λ t, Done (Pointer t))) in Hrun as (_ & _ & _ & J); [|done].
    destruct (J r Hr) as [?|(u & b & t & Hu & Hb & Ht & [= <-])]; [by left|].
    right. by exists u, b, t.
  - intros Hrun.
    apply (transfer_derive (λ t, Done t)) in Hrun as (_ & _ & _ & J); [|done].
    destruct (J r Hr) as [?|(u & b & t & Hu & Hb & Ht & [= <-])]; [by left|].
    right. by exists u, b, t.
  - intros Hrun.
    destruct (predecessors (ctx_graph ctx) node) as [|neighbor [|]] eqn:Ep;
      try discriminate.
    apply bind_Done in Hrun as (md & s1 & Hmd & Hrun).
    unfold lift in Hmd. destruct (dict_get (ctx_metadata ctx) node) as [md'|];
      [|discriminate]. injection Hmd as -> ->.
    apply bind_Done in Hrun as (attr & s2 & Hattr & Hrun).
    destruct md as [attr'|]; [|discriminate]. injection Hattr as -> ->.
    apply bind_Done in Hrun as (b & s3 & Hget & Hrun).
    pose proof Hget as Hpure. apply context_get_pure in Hpure as ->.
    unfold context_get, lift in Hget.
    destruct (dict_get (ctx_context ctx) neighbor) as [b'|] eqn:Eb; [|discriminate].
    injection Hget as ->.
    unfold for_set in Hrun. apply bind_Done in Hrun as (s & s4 & Hread & Hrun).
    injection Hread as <- <-.
    rewrite (iter_set_ext _ _ _ _ _ (infer_attr_derive a attr)) in Hrun.
    apply iter_derive in Hrun as (G & _ & _ & J); [|done].
    destruct (J r Hr) as [?|(t & Ht & Hg)]; [by left|].
    right. exists neighbor, b, t. split; [by left|]. split; [done|]. split.
    + by apply (prefix_subseteq _ _ (grows_at_mono a _ _ b G)).
    + by rewrite Hg.
Qed.

End Visit.

(** ** The result of the solver is closed under the constraints *)

Section Closure.

Variable prog : fid → IRFunction.
Variable fields : Ty → list (string * (Ty * Ty)).
Variable R : fid → list Ty → M (PyVal * PyVal).
Hypothesis R_extends : ∀ f args, extends (R f args).

Variable ctx : InferContext.
Hypothesis ctx_unaliased : unaliased ctx.

(** The set objects of the predecessors of a node that is not put back
    on the worklist are as they were before the visit. *)
Lemma visit_keeps_predecessors node W st changed st' v u b :
  allocated ctx st →
  infer_node prog fields R ctx node st = Done (changed, st') →
  v ∉ (if changed then foldl (λ W neighbor, neighbor :: W) W
                         (neighbors (ctx_graph ctx) node) else W) →
  u ∈ predecessors (ctx_graph ctx) v →
  dict_get (ctx_context ctx) u = Some b →
  deref (heap st') b = deref (heap st) b.
Proof using R_extends ctx_unaliased.
  intros Hal Hrun Hv Hu Hb.
  pose proof (allocated_bound _ _ _ _ Hal Hb) as Hlt.
  destruct changed.
  - destruct (infer_node_inv prog fields R R_extends ctx node st st true st' eq_refl Hrun)
      as (a & Ha & (_ & F & _) & _).
    unfold deref. rewrite F; [done|done|]. intros ->.
    rewrite appendleft_elem in Hv. apply Hv. left.
    apply elem_neighbors. apply elem_predecessors in Hu.
    destruct (is_literal node) eqn:Hlit.
    + destruct node; try discriminate. injection Ha as Ha. lia.
    + assert (dict_get (ctx_context ctx) node = Some a) as Hn
        by (destruct node; try discriminate; exact Ha).
      by rewrite (unaliased_inj ctx node u a ctx_unaliased Hn Hb).
  - apply (infer_node_unchanged prog fields R R_extends) in Hrun.
    unfold deref. by rewrite (prefix_lookup_lt _ _ b Hrun Hlt).
Qed.

Lemma worklist_closed fuel : ∀ W st st',
  allocated ctx st →
  (∀ v, v ∈ g_nodes (ctx_graph ctx) → v ∉ W → is_literal v = false →
        satisfied prog fields ctx (heap st) v) →
  worklist prog fields R fuel ctx W st = Done (tt, st') →
  ∀ v, v ∈ g_nodes (ctx_graph ctx) → is_literal v = false →
       satisfied prog fields ctx (heap st') v.
Proof using R_extends ctx_unaliased.
  induction fuel as [|fuel IH]; intros [|node W] st st' Hal Hinv; simpl;
    try discriminate.
  - intros [= <-] v Hv Hlit. apply Hinv; [done| |done]. by intros H%elem_of_nil.
  - intros [= <-] v Hv Hlit. apply Hinv; [done| |done]. by intros H%elem_of_nil.
  - intros Hrun. apply bind_Done in Hrun as (changed & st1 & Hn & Hrun).
    pose proof (infer_node_step prog fields R R_extends ctx node st changed st1 Hn)
      as (Hlen & _ & Hmono & _).
    assert (Hal1 : allocated ctx st1) by (by eapply allocated_le).
    set (W1 := if changed then foldl (λ W neighbor, neighbor :: W) W
                                 (neighbors (ctx_graph ctx) node) else W).
    assert (Hrun1 : worklist prog fields R fuel ctx W1 st1 = Done (tt, st'))
      by (subst W1; by destruct changed).
    refine (IH W1 st1 st' Hal1 _ Hrun1).
    intros v Hv HvW Hlit.
    pose proof (λ u b, visit_keeps_predecessors node W st changed st1 v u b Hal Hn HvW)
      as Hkeep.
    destruct (decide (v = node)) as [->|Hne].
    + apply bind_Done in Hn as Hn'. destruct Hn' as (a & s0 & Hts & _).
      assert (dict_get (ctx_context ctx) node = Some a) as Ha.
      { destruct node; try discriminate; unfold context_get, lift in Hts;
          by destruct (dict_get _ _); [injection Hts as -> _|]. }
      exists a. split; [done|]. intros u b t r Hu Hb Ht Hd.
      eapply (visit_derives prog fields R ctx node a st changed st1 Hn Hlit Ha);
        [by eapply allocated_bound|exact Hu|exact Hb| |exact Hd].
      by rewrite <- (Hkeep u b Hu Hb).
    + assert (v ∉ node :: W) as HvW0.
      { intros [->|H]%elem_of_cons; [done|]. apply HvW. subst W1.
        destruct changed; [|done]. apply appendleft_elem. by right. }
      destruct (Hinv v Hv HvW0 Hlit) as (a & Ha & Hsat).
      exists a. split; [done|]. intros u b t r Hu Hb Ht Hd.
      apply (prefix_subseteq _ _ (Hmono a)).
      eapply Hsat; [exact Hu|exact Hb| |exact Hd]. by rewrite <- (Hkeep u b Hu Hb).
Qed.

End Closure.

(** ** Graphs of flow nodes *)

Section FlowSolution.

Variable prog : fid → IRFunction.
Variable fields : Ty → list (string * (Ty * Ty)).
Variable ctx : InferContext.

(** No node has a constraint of its own: every node is a ['flow'] node. *)
Hypothesis flow_only : ∀ n, dict_get (ctx_constraints ctx) n = None.

(** The visit of a flow node, written out. *)
Lemma infer_node_flow R node st :
  infer_node prog fields R ctx node st =
  (let! typeset :=
     match node with
     | NType t => new_set [t]
     | _ => context_get ctx node
     end in
   let! incoming := graph_predecessors (ctx_graph ctx) node in
   for_list incoming
     (λ neighbor changed,
        let! b := context_get ctx neighbor in
        for_set b (λ type changed, add_result typeset type changed) changed)
     false) st.
Proof using flow_only.
  unfold infer_node. rewrite flow_only. cbn [from_option id default].
  unfold bind. destruct (match node with NType t => new_set [t] | _ => _ end st)
    as [[a st1]| |]; [|done..].
  destruct (graph_predecessors (ctx_graph ctx) node st1) as [[incoming st2]| |]; [|done..].
  rewrite (decide_False (P := "flow" = "pointer")) by done.
  by rewrite (decide_True (P := "flow" = "flow")) by done.
Qed.

(** The resolver plays no part in a graph of flow nodes. *)
Lemma worklist_flow_resolver R R' fuel : ∀ W st,
  worklist prog fields R fuel ctx W st = worklist prog fields R' fuel ctx W st.
Proof using flow_only.
  induction fuel as [|fuel IH]; intros [|node W] st; simpl; try done.
  unfold bind. rewrite (infer_node_flow R), <- (infer_node_flow R').
  destruct (infer_node prog fields R' ctx node st) as [[[] st1]| |]; auto.
Qed.

Lemma flow_iter_runs a b n (xs : list Ty) : ∀ changed st,
  (b = a → ∀ t, t ∈ xs → t ∈ deref (heap st) a) →
  length (deref (heap st) b) = n →
  ∃ changed' st',
    iter_set b n xs (λ type changed, add_result a type changed) changed st
      = Done (changed', st') ∧
    length (heap st') = length (heap st).
Proof.
  induction xs as [|x xs IH]; intros changed st Hin Hn; simpl; [by eexists _, _|].
  erewrite bind_step by apply add_result_run.
  set (st1 := mkState _ _).
  assert (Hb : deref (heap st1) b = deref (heap st) b).
  { subst st1. cbn [heap]. destruct (decide (b = a)) as [->|Hne].
    - rewrite set_insert_same; [done|]. apply Hin; [done|by left].
    - unfold deref. by rewrite list_lookup_insert_ne. }
  erewrite bind_step; [|unfold check_size; rewrite Hb, decide_True by done; reflexivity].
  destruct (IH (changed || negb (bool_decide (x ∈ deref (heap st) a))) st1)
    as (c' & st' & Hrun & Hlen).
  - intros -> t Ht. rewrite Hb. apply Hin; [done|by right].
  - by rewrite Hb.
  - exists c', st'. split; [done|]. rewrite Hlen. subst st1. cbn [heap].
    by rewrite length_insert.
Qed.

Lemma flow_transfer_runs a (incoming : list Node) : ∀ changed st,
  (∀ u, u ∈ incoming → is_Some (dict_get (ctx_context ctx) u)) →
  ∃ changed' st',
    for_list incoming
      (λ neighbor changed,
         let! b := context_get ctx neighbor in
         for_set b (λ type changed, add_result a type changed) changed)
      changed st = Done (changed', st') ∧
    length (heap st') = length (heap st).
Proof.
  induction incoming as [|u incoming IH]; intros changed st Hb; simpl;
    [by eexists _, _|].
  destruct (Hb u) as [b Hu]; [by left|].
  destruct (flow_iter_runs a b (length (deref (heap st) b)) (deref (heap st) b) changed st)
    as (c1 & st1 & Hrun & Hlen); [by intros ->|done|].
  erewrite bind_step; cycle 1.
  { erewrite bind_step by (unfold context_get; rewrite Hu; reflexivity).
    unfold for_set. erewrite bind_step by reflexivity. exact Hrun. }
  destruct (IH c1 st1) as (c' & st' & Hrun' & Hlen').
  { intros v Hv. apply Hb. by right. }
  exists c', st'. split; [done|lia].
Qed.

(** A visit of a node of the graph returns when the node and its
    predecessors are bound. *)
Lemma flow_visit_runs R node st :
  node ∈ g_nodes (ctx_graph ctx) →
  is_Some (dict_get (ctx_context ctx) node) →
  (∀ u, u ∈ predecessors (ctx_graph ctx) node → is_Some (dict_get (ctx_context ctx) u)) →
  ∃ changed st', infer_node prog fields R ctx node st = Done (changed, st').
Proof using flow_only.
  intros Hnode [a Ha] Hpred. rewrite infer_node_flow.
  assert (∃ a' st1, (match node with NType t => new_set [t] | _ => context_get ctx node end) st
                    = Done (a', st1)) as (a' & st1 & Hts).
  { destruct node; try (exists a, st; unfold context_get; by rewrite Ha).
    by eexists _, _. }
  erewrite bind_step by exact Hts.
  erewrite bind_step
    by (unfold graph_predecessors; rewrite decide_True by done; reflexivity).
  destruct (flow_transfer_runs a' (predecessors (ctx_graph ctx) node) false st1 Hpred)
    as (c & st' & Hrun & _).
  by exists c, st'.
Qed.

Hypothesis graph_is_closed : graph_closed (ctx_graph ctx).
Hypothesis all_bound : nodes_bound ctx.

Lemma worklist_flow_runs R fuel : ∀ W st e,
  W ⊆ g_nodes (ctx_graph ctx) →
  worklist prog fields R fuel ctx W st ≠ Raise e.
Proof using flow_only graph_is_closed all_bound.
  induction fuel as [|fuel IH]; intros [|node W] st e HW; simpl; try done.
  destruct (flow_visit_runs R node st) as (changed & st1 & Hn).
  - apply HW. by left.
  - apply all_bound, HW. by left.
  - intros u Hu%elem_predecessors. apply all_bound. by apply (graph_is_closed u node).
  - erewrite bind_step by exact Hn. destruct changed; apply IH.
    + intros v [Hv|Hv]%appendleft_elem.
      * apply elem_neighbors in Hv. by apply (graph_is_closed node v).
      * apply HW. by right.
    + intros v Hv. apply HW. by right.
Qed.

(** One addition keeps the members traced when the new member can be
    traced for every node bound to the set. *)
Lemma traced_add h0 a t changed :
  (∀ v, dict_get (ctx_context ctx) v = Some a →
        ∃ u b, reaches (ctx_graph ctx) u v ∧
               dict_get (ctx_context ctx) u = Some b ∧ t ∈ deref h0 b) →
  hoare (λ st, traced ctx h0 (heap st)) (add_result a t changed)
        (λ _ st, traced ctx h0 (heap st)).
Proof.
  intros Hnew st c st' Htr Hrun. rewrite add_result_run in Hrun. injection Hrun as _ <-.
  cbn [heap]. intros v a' x Hv Hx.
  destruct (decide (a' = a)) as [->|Hne].
  - destruct (decide (a < length (heap st))) as [Hlt|Hge].
    + rewrite deref_insert_eq in Hx by done. unfold set_add in Hx.
      destruct (decide (t ∈ deref (heap st) a)); [by eapply Htr|].
      apply elem_of_app in Hx as [Hx|Hx]; [by eapply Htr|].
      apply list_elem_of_singleton in Hx as ->. by apply Hnew.
    + rewrite list_insert_ge in Hx by lia. by eapply Htr.
  - unfold deref in Hx. rewrite list_lookup_insert_ne in Hx by done. by eapply Htr.
Qed.

Lemma flow_visit_traced R h0 node st changed st' :
  unaliased ctx → allocated ctx st →
  traced ctx h0 (heap st) →
  infer_node prog fields R ctx node st = Done (changed, st') →
  traced ctx h0 (heap st').
Proof using flow_only.
  intros Hnd Hal Htr Hrun. rewrite infer_node_flow in Hrun.
  apply bind_Done in Hrun as (a & st1 & Hts & Hrun).
  assert (H1 : traced ctx h0 (heap st1) ∧
               ∀ v, dict_get (ctx_context ctx) v = Some a → v = node).
  { destruct node;
      try (unfold context_get in Hts; pose proof Hts as Hpure; apply lift_pure in Hpure as ->;
           split; [done|]; intros v Hv; unfold lift in Hts;
           destruct (dict_get (ctx_context ctx) _) as [a'|] eqn:E in Hts; [|discriminate];
           injection Hts as ->; symmetry; by eapply unaliased_inj).
    injection Hts as <- <-. cbn [heap]. split.
    - intros v a t' Hv Ht'. pose proof (allocated_bound _ _ _ _ Hal Hv).
      unfold deref in Ht'. rewrite lookup_app_l in Ht' by done. by eapply Htr.
    - intros v Hv. pose proof (allocated_bound _ _ _ _ Hal Hv). lia. }
  destruct H1 as [Htr1 Hown].
  apply bind_Done in Hrun as (incoming & st2 & Hp & Hrun).
  unfold graph_predecessors in Hp.
  destruct (decide (node ∈ g_nodes (ctx_graph ctx))); [|discriminate].
  injection Hp as <- <-.
  revert Hrun.
  refine (for_list_hoare (λ (_ : bool) st, traced ctx h0 (heap st))
            _ _ _ false st1 changed st' Htr1).
  intros neighbor ch Hin.
  eapply hoare_bind with
    (Q := λ b st, traced ctx h0 (heap st) ∧ dict_get (ctx_context ctx) neighbor = Some b).
  { apply hoare_lift. intros b st2 Hb2 H2. by split. }
  intros b st2 r st3 [H2 Hb2] Hloop. revert Hloop.
  refine (for_set_hoare_elem (λ (_ : bool) st, traced ctx h0 (heap st))
            (λ t, ∀ v, dict_get (ctx_context ctx) v = Some a →
                       ∃ u b0, reaches (ctx_graph ctx) u v ∧
                               dict_get (ctx_context ctx) u = Some b0 ∧ t ∈ deref h0 b0)
            b _ _ _ ch st2 r st3 H2).
  - intros acc st4 x Htr4 Hx v Hv. apply Hown in Hv as ->.
    destruct (Htr4 neighbor b x Hb2 Hx) as (u & b0 & Hreach & Hu & Hx0).
    exists u, b0. split; [|done].
    eapply reaches_step; [exact Hreach|]. by apply elem_predecessors.
  - intros x acc Hx. by apply traced_add.
Qed.

Lemma worklist_flow_traced R h0 fuel : ∀ W st st',
  unaliased ctx → allocated ctx st →
  traced ctx h0 (heap st) →
  worklist prog fields R fuel ctx W st = Done (tt, st') →
  traced ctx h0 (heap st').
Proof using flow_only.
  induction fuel as [|fuel IH]; intros [|node W] st st' Hnd Hal Htr; simpl;
    try discriminate; try (by intros [= <-]).
  intros Hrun. apply bind_Done in Hrun as (changed & st1 & Hn & Hrun).
  pose proof (flow_visit_bounded prog fields R (bound_types ctx (heap st)) ctx flow_only
                node st changed st1 Hal) as Hb.
  assert (Hal1 : allocated ctx st1).
  { apply Hb; [|done]. intros n a Hn' t Ht. unfold bound_types.
    apply list_elem_of_bind. exists a. split; [done|]. by eapply dict_get_values. }
  pose proof (flow_visit_traced R h0 node st changed st1 Hnd Hal Htr Hn) as Htr1.
  destruct changed; by eapply IH.
Qed.

Lemma traced_refl h : traced ctx h h.
Proof. intros v a t Hv Ht. exists v, a. split; [constructor|done]. Qed.

Lemma bounded_bound_types st : bounded (bound_types ctx (heap st)) ctx st.
Proof.
  intros n a Hn t Ht. unfold bound_types.
  apply list_elem_of_bind. exists a. split; [done|]. by eapply dict_get_values.
Qed.

Lemma derived_flow node t : derived prog fields ctx node t = Some t.
Proof using flow_only.
  unfold derived. rewrite flow_only. cbn [from_option id default].
  rewrite (decide_False (P := "flow" = "pointer")) by done.
  by rewrite (decide_True (P := "flow" = "flow")) by done.
Qed.

End FlowSolution.

(** ** The solver *)

Section SolverProperties.

Variable prog : fid → IRFunction.
Variable fields : Ty → list (string * (Ty * Ty)).
Variable promote : Ty → Ty → Ty.

(** X1. The flag that a visit returns is exact.  A visit that returns
    [False] has left every set object that existed as it was and has
    replaced no template; a visit of a bound node that returns [True] has
    added to the node's type set a member that it did not have. *)
Theorem visit_reports_change fuel ctx node a st changed st' :
  infer_node prog fields (infer prog fields promote fuel) ctx node st
    = Done (changed, st') →
  is_literal node = false →
  dict_get (ctx_context ctx) node = Some a →
  a < length (heap st) →
  if changed then ∃ t, t ∈ deref (heap st') a ∧ t ∉ deref (heap st) a
  else state_le st st'.
Proof.
  intros Hrun Hlit Ha Hlt.
  pose proof (infer_extends prog fields promote fuel) as Hext.
  destruct (infer_node_inv prog fields _ Hext ctx node st st changed st' eq_refl Hrun)
    as (a' & Ha' & _ & Hc & Hnew).
  destruct changed.
  - assert (a' = a) as -> by (destruct node; try discriminate; simpl in Ha'; congruence).
    by apply Hnew.
  - split; [|done]. by eapply infer_node_unchanged.
Qed.

(** X2. When [infer_graph] returns, the bindings solve the constraints of
    the graph: every node of the graph that is not a Type literal is bound,
    and for every member of the type set of each of its predecessors its
    own type set has the member that its transfer derives: the pointer to
    it for a ['pointer'] node, the member itself for a ['flow'] node, the
    type of the field (or the bound method) for an ['attr'] node.  It
    holds for a context whose bindings are existing set objects, one of its
    own per binding. *)
Theorem solver_result_is_closed fuel fuel' ctx st st' :
  unaliased ctx →
  allocated ctx st →
  infer_graph prog fields (infer prog fields promote fuel) fuel' ctx st = Done (tt, st') →
  ∀ node, node ∈ g_nodes (ctx_graph ctx) → is_literal node = false →
    satisfied prog fields ctx (heap st') node.
Proof.
  intros Hnd Hal Hrun. unfold infer_graph in Hrun.
  refine (worklist_closed prog fields _ (infer_extends prog fields promote fuel)
            ctx Hnd fuel' _ st st' Hal _ Hrun).
  intros v Hv Hv'. contradiction.
Qed.

(** X3. On a graph of flow nodes the solver returns: when every node of
    the graph is bound to an existing set object, the ends of the edges are
    nodes and no edge leads into a Type literal, [infer_graph] returns
    within [nodes + (edges + 1) * capacity] iterations, the capacity being
    counted over the types that the bound sets hold at the start.  It
    raises nothing and needs no resolver. *)
Theorem flow_solver_returns R fuel ctx st :
  (∀ n, dict_get (ctx_constraints ctx) n = None) →
  graph_closed (ctx_graph ctx) →
  nodes_bound ctx →
  allocated ctx st →
  (∀ t, predecessors (ctx_graph ctx) (NType t) = []) →
  length (g_nodes (ctx_graph ctx)) +
    (length (g_edges (ctx_graph ctx)) + 1) *
      capacity (bound_types ctx (heap st)) ctx (heap st) < fuel →
  ∃ st', infer_graph prog fields R fuel ctx st = Done (tt, st').
Proof.
  intros Hflow Hclosed Hbound Hal Hsrc Hfuel. unfold infer_graph.
  rewrite (worklist_flow_resolver prog fields ctx Hflow R (λ _ _, raise AssertionError)).
  destruct (worklist _ _ _ _ _ _ st) as [[[] st']|e|] eqn:Hrun.
  - by exists st'.
  - by apply (worklist_flow_runs prog fields ctx Hflow Hclosed Hbound) in Hrun.
  - exfalso. revert Hrun.
    apply (worklist_returns prog fields (λ _ _, raise AssertionError))
      with (U := bound_types ctx (heap st)) (st0 := st); try done.
    + intros s Hv.
      apply (flow_visits_bounded prog fields (λ _ _, raise AssertionError)
               (bound_types ctx (heap st)) ctx Hflow st s Hal); [|done].
      apply bounded_bound_types.
    + constructor.
Qed.

(** X4. On a graph of flow nodes the solver computes reachability: when
    [infer_graph] returns, the type set of a bound node holds exactly the
    types that some node from which it can be reached along the edges
    held at the start (the node itself included). *)
Theorem flow_solver_computes_reachability R fuel ctx st st' :
  (∀ n, dict_get (ctx_constraints ctx) n = None) →
  graph_closed (ctx_graph ctx) →
  nodes_bound ctx →
  unaliased ctx →
  allocated ctx st →
  (∀ t, predecessors (ctx_graph ctx) (NType t) = []) →
  infer_graph prog fields R fuel ctx st = Done (tt, st') →
  ∀ v a t,
    dict_get (ctx_context ctx) v = Some a →
    (t ∈ deref (heap st') a ↔
     ∃ u b, reaches (ctx_graph ctx) u v ∧
            dict_get (ctx_context ctx) u = Some b ∧ t ∈ deref (heap st) b).
Proof.
  intros Hflow Hclosed Hbound Hnd Hal Hsrc Hrun v a t Hv. unfold infer_graph in Hrun.
  split.
  - revert v a t Hv.
    change (traced ctx (heap st) (heap st')).
    eapply (worklist_flow_traced prog fields ctx Hflow); eauto using traced_refl.
  - intros (u & b & Hreach & Hu & Ht). revert a Hv.
    rewrite (worklist_flow_resolver prog fields ctx Hflow R (λ _ _, raise AssertionError))
      in Hrun.
    assert (Hext : ∀ (f : nat) (args : list Ty),
                     extends (raise AssertionError : M (PyVal * PyVal)))
      by (intros f args s r s' [=]).
    induction Hreach as [|v w Hreach IH Hedge]; intros a Hv.
    + assert (a = b) as -> by congruence.
      destruct (worklist_step prog fields _ Hext fuel ctx _ st tt st' Hrun)
        as (_ & _ & Hmono & _).
      by apply (prefix_subseteq _ _ (Hmono b)).
    + destruct (Hclosed v w Hedge) as [Hvn Hwn].
      destruct (Hbound v Hvn) as [bv Hbv].
      assert (Hlit : is_literal w = false).
      { destruct w; try done. apply elem_predecessors in Hedge.
        rewrite Hsrc in Hedge. by apply elem_of_nil in Hedge. }
      destruct (worklist_closed prog fields _ Hext ctx Hnd fuel _ st st' Hal
                  (λ x Hx Hx', False_ind _ (Hx' Hx)) Hrun w Hwn Hlit) as (a' & Ha' & Hsat).
      assert (a' = a) as -> by congruence.
      apply (Hsat v bv t t); [by apply elem_predecessors|done|by apply IH|].
      by apply derived_flow.
Qed.

End SolverProperties.

Lemma visit_reports_change_witness :
  ∃ t, t ∈ deref [[]; [Examples.Int32]; [Examples.Int32]] 2 ∧
       t ∉ deref (heap Examples.flow_state) 2.
Proof.
  apply (visit_reports_change Examples.prog Examples.fields Examples.promote 1
           Examples.flow_ctx return_node 2 Examples.flow_state true
           (mkState [[]; [Examples.Int32]; [Examples.Int32]] Examples.empty_cache)).
  - reflexivity.
  - reflexivity.
  - reflexivity.
  - simpl. lia.
Defined.

Lemma solver_result_is_closed_witness :
  ∃ st',
    infer_graph Examples.prog Examples.fields
      (infer Examples.prog Examples.fields Examples.promote 1) 20
      MoreExamples.slot_ctx MoreExamples.slot_state = Done (tt, st') ∧
    satisfied Examples.prog Examples.fields MoreExamples.slot_ctx (heap st') (NOp 3).
Proof.
  eexists. split; [vm_compute; reflexivity|].
  apply (solver_result_is_closed Examples.prog Examples.fields Examples.promote 1 20
           MoreExamples.slot_ctx MoreExamples.slot_state).
  - by_compute.
  - by_compute.
  - vm_compute. reflexivity.
  - by_compute.
  - reflexivity.
Defined.

Lemma flow_solver_returns_witness :
  ∃ st',
    infer_graph Examples.prog Examples.fields Examples.recording 8
      Examples.flow_ctx Examples.flow_state = Done (tt, st').
Proof.
  apply (flow_solver_returns Examples.prog Examples.fields Examples.recording 8
           Examples.flow_ctx Examples.flow_state).
  - reflexivity.
  - intros u v [= -> ->]%list_elem_of_singleton. split; by_compute.
  - intros n Hn. simpl in Hn. rewrite !elem_of_cons in Hn.
    destruct Hn as [->|[->|[->|Hn]]]; [by eexists..|by apply elem_of_nil in Hn].
  - by_compute.
  - intros t. reflexivity.
  - vm_compute. lia.
Defined.

Lemma flow_solver_computes_reachability_witness :
  Examples.Int32 ∈ deref [[]; [Examples.Int32]; [Examples.Int32]] 2 ↔
  ∃ u b, reaches (ctx_graph Examples.flow_ctx) u return_node ∧
         dict_get (ctx_context Examples.flow_ctx) u = Some b ∧
         Examples.Int32 ∈ deref (heap Examples.flow_state) b.
Proof.
  apply (flow_solver_computes_reachability Examples.prog Examples.fields
           Examples.recording 8 Examples.flow_ctx Examples.flow_state
           (mkState [[]; [Examples.Int32]; [Examples.Int32]] Examples.empty_cache)).
  - reflexivity.
  - intros u v [= -> ->]%list_elem_of_singleton. split; by_compute.
  - intros n Hn. simpl in Hn. rewrite !elem_of_cons in Hn.
    destruct Hn as [->|[->|[->|Hn]]]; [by eexists..|by apply elem_of_nil in Hn].
  - by_compute.
  - by_compute.
  - intros t. reflexivity.
  - vm_compute. reflexivity.
  - reflexivity.
Defined.

(** ** What [infer] returns *)

Lemma dict_set_NoDup {K} `{EqDecision K} (d : list (K * nat)) k a :
  NoDup d.*2 → a ∉ d.*2 → NoDup (dict_set d k a).*2.
Proof.
  induction d as [|[k' v'] d IH]; simpl; intros Hnd Ha.
  - apply NoDup_singleton.
  - apply NoDup_cons in Hnd as [Hv' Hnd]. apply not_elem_of_cons in Ha as [Hne Ha].
    case_decide; simpl.
    + apply NoDup_cons. split; [done|done].
    + apply NoDup_cons. split; [|by apply IH].
      assert (Forall (λ x, x ≠ v') (dict_set d k a).*2) as Hall.
      { apply dict_set_values; [|done]. apply Forall_forall. by intros x Hx ->. }
      rewrite Forall_forall in Hall. intros Hin. by apply (Hall v' Hin).
Qed.

Section InferResult.

Variable prog : fid → IRFunction.
Variable fields : Ty → list (string * (Ty * Ty)).
Variable promote : Ty → Ty → Ty.

(** [copy_context] binds every key to a set object of its own. *)
Lemma copy_context_fresh context :
  hoare (λ _, True) (copy_context context)
        (λ c st, NoDup c.*2 ∧ Forall (λ a, a < length (heap st)) c.*2).
Proof.
  unfold copy_context.
  apply hoare_conseq with
    (P' := λ st, NoDup ([] : list (Node * nat)).*2 ∧
                 Forall (λ a, a < length (heap st)) ([] : list (Node * nat)).*2)
    (Q' := λ (c : list (Node * nat)) st,
             NoDup c.*2 ∧ Forall (λ a, a < length (heap st)) c.*2);
    [|intros; split; constructor|done].
  refine (for_list_hoare
            (λ (c : list (Node * nat)) st,
               NoDup c.*2 ∧ Forall (λ a, a < length (heap st)) c.*2) _ _ _ []).
  intros [binding type] acc _ st r st' [Hnd Hal] Hrun.
  unfold bind, read_set, new_set, ret in Hrun. injection Hrun as <- <-.
  cbn [heap]. rewrite fmap_snoc, length_app. cbn [snd length]. split.
  - apply NoDup_app. split; [done|]. split; [|apply NoDup_singleton].
    intros x Hx ->%list_elem_of_singleton. rewrite Forall_forall in Hal.
    apply Hal in Hx. lia.
  - apply Forall_app. split.
    + eapply Forall_impl; [exact Hal|]. simpl. lia.
    + apply Forall_singleton. lia.
Qed.

(** [seed_context] keeps it so. *)
Lemma seed_context_fresh ctx argtypes :
  hoare (λ st, unaliased ctx ∧ allocated ctx st) (seed_context prog ctx argtypes)
        (λ ctx' st, unaliased ctx' ∧ allocated ctx' st).
Proof.
  unfold seed_context.
  refine (for_list_hoare (λ ctx' st, unaliased ctx' ∧ allocated ctx' st) _ _ _ ctx).
  intros [arg argtype] acc _ st r st' [Hnd Hal] Hrun.
  unfold bind, new_set, ret in Hrun. injection Hrun as <- <-.
  unfold unaliased, allocated in *. cbn [ctx_context with_context heap].
  rewrite length_app. cbn [length]. split.
  - apply dict_set_NoDup; [done|]. intros Hin. rewrite Forall_forall in Hal.
    apply Hal in Hin. lia.
  - apply dict_set_values; [|lia]. eapply Forall_impl; [exact Hal|]. simpl. lia.
Qed.

(** The cold path of [infer], step by step. *)
Lemma infer_body_cold R fuel func argtypes st r st' :
  lookup (cache st) func argtypes = None →
  infer_body prog fields promote R fuel func argtypes st = Done (r, st') →
  ∃ ctx1 st2 ctx st3 st4 a t ts,
    seed_context prog ctx1 argtypes st2 = Done (ctx, st3) ∧
    unaliased ctx ∧ allocated ctx st3 ∧
    infer_graph prog fields R fuel ctx st3 = Done (tt, st4) ∧
    dict_get (ctx_context ctx) return_node = Some a ∧
    deref (heap st4) a = t :: ts ∧
    r = (VContext ctx, VType (Function (foldl promote t ts) argtypes)) ∧
    heap st' = heap st4.
Proof.
  intros Hl Hrun. unfold infer_body in Hrun.
  apply bind_Done in Hrun as (c & st1 & Hc & Hrun). injection Hc as <- <-.
  rewrite Hl in Hrun.
  apply bind_Done in Hrun as (tmpl & st2 & _ & Hrun).
  apply bind_Done in Hrun as (ctx1 & st3 & Hcopy & Hrun).
  unfold Context_copy in Hcopy.
  apply bind_Done in Hcopy as (context & s & Hcopy & Hret). injection Hret as <- <-.
  apply (copy_context_fresh _ st2 _ _ I) in Hcopy as [Hnd Hal].
  apply bind_Done in Hrun as (ctx2 & st4 & Hseed & Hrun).
  pose proof Hseed as Hseed0.
  apply (seed_context_fresh _ _ s) in Hseed as [Hnd2 Hal2]; [|by split].
  apply bind_Done in Hrun as ([] & st5 & Hg & Hrun).
  apply bind_Done in Hrun as (a & st6 & Ha & Hrun).
  pose proof Ha as Hpure. apply context_get_pure in Hpure as ->.
  unfold context_get, lift in Ha.
  destruct (dict_get (ctx_context ctx2) return_node) as [a'|] eqn:Ea; [|discriminate].
  injection Ha as ->.
  apply bind_Done in Hrun as (typeset & st6 & Hr & Hrun). injection Hr as <- <-.
  apply bind_Done in Hrun as (restype & st6 & Hred & Hrun).
  pose proof Hred as Hpure. apply liftO_pure in Hpure as ->.
  unfold liftO, reduce in Hred.
  destruct (deref (heap st5) a) as [|t ts] eqn:Es; [discriminate|].
  injection Hred as <-.
  apply bind_Done in Hrun as ([] & st6 & Hset & Hret). injection Hret as <- <-.
  injection Hset as <-.
  by eexists _, _, ctx2, st4, st5, a, t, ts.
Qed.

End InferResult.

(** [reduce] with a join that is commutative and associative does not
    depend on the order in which the set is iterated. *)
Lemma foldl_permutation (f : Ty → Ty → Ty) (l l' : list Ty) :
  (∀ x y, f x y = f y x) →
  (∀ x y z, f (f x y) z = f x (f y z)) →
  l ≡ₚ l' → ∀ x, foldl f x l = foldl f x l'.
Proof.
  intros Hc Ha Hp. induction Hp as [|a l l' _ IH|a b l|l1 l2 l3 _ IH1 _ IH2]; intros x.
  - done.
  - simpl. apply IH.
  - simpl. f_equal. rewrite !Ha. f_equal. apply Hc.
  - by rewrite IH1.
Qed.

Lemma reduce_permutation (f : Ty → Ty → Ty) (l l' : list Ty) :
  (∀ x y, f x y = f y x) →
  (∀ x y z, f (f x y) z = f x (f y z)) →
  l ≡ₚ l' → reduce f l = reduce f l'.
Proof.
  intros Hc Ha Hp. induction Hp as [|a l l' Hp _|a b l|l1 l2 l3 _ IH1 _ IH2].
  - done.
  - simpl. f_equal. by apply foldl_permutation.
  - simpl. f_equal. f_equal. apply Hc.
  - by rewrite IH1.
Qed.

Section InferProperties.

Variable prog : fid → IRFunction.
Variable fields : Ty → list (string * (Ty * Ty)).
Variable promote : Ty → Ty → Ty.

(** X5. The context that the cold path of [infer] returns is a solution
    of the function's constraint graph: no two of its bindings share a set
    object, every binding is an existing set object, and every node of
    the graph that is not a Type literal is bound and has in its type set
    what its transfer derives from the members of the type sets of its
    predecessors. *)
Theorem infer_returns_solution fuel func argtypes st r st' :
  lookup (cache st) func argtypes = None →
  infer prog fields promote (S fuel) func argtypes st = Done (r, st') →
  ∃ ctx signature,
    r = (VContext ctx, VType signature) ∧
    unaliased ctx ∧
    allocated ctx st' ∧
    ∀ node, node ∈ g_nodes (ctx_graph ctx) → is_literal node = false →
      satisfied prog fields ctx (heap st') node.
Proof.
  intros Hl Hrun. simpl in Hrun.
  apply infer_body_cold in Hrun
    as (ctx1 & st2 & ctx & st3 & st4 & a & t & ts & _ & Hnd & Hal & Hg & Ha & Hs & -> & Hh);
    [|done].
  exists ctx, (Function (foldl promote t ts) argtypes). split; [done|]. split; [done|].
  pose proof (infer_extends prog fields promote fuel) as Hext.
  unfold infer_graph in Hg. split.
  - apply (worklist_step prog fields _ Hext) in Hg as (Hlen & _).
    unfold allocated in *. rewrite Hh. eapply Forall_impl; [exact Hal|]. simpl. lia.
  - rewrite Hh.
    refine (worklist_closed prog fields _ Hext ctx Hnd (S fuel) _ st3 st4 Hal _ Hg).
    intros v Hv Hv'. contradiction.
Qed.

(** X6. The signature that the cold path of [infer] returns is read off
    the return node: the node is bound in the returned context, its type
    set is not empty when [infer] returns, and the return type of the
    signature is [promote] folded from the left over an enumeration of the
    members of that set, followed by the argument types as given.  When
    [promote] is commutative and associative the return type is the fold
    over every enumeration of the set: it does not depend on the order in
    which the set is iterated. *)
Theorem infer_signature_folds_return_set fuel func argtypes st r st' :
  lookup (cache st) func argtypes = None →
  infer prog fields promote (S fuel) func argtypes st = Done (r, st') →
  ∃ ctx a restype,
    r = (VContext ctx, VType (Function restype argtypes)) ∧
    dict_get (ctx_context ctx) return_node = Some a ∧
    (∃ t ts, t :: ts ≡ₚ deref (heap st') a ∧ restype = foldl promote t ts) ∧
    ((∀ x y, promote x y = promote y x) →
     (∀ x y z, promote (promote x y) z = promote x (promote y z)) →
     ∀ t ts, t :: ts ≡ₚ deref (heap st') a → restype = foldl promote t ts).
Proof.
  intros Hl Hrun. simpl in Hrun.
  apply infer_body_cold in Hrun
    as (ctx1 & st2 & ctx & st3 & st4 & a & t & ts & _ & _ & _ & _ & Ha & Hs & -> & Hh);
    [|done].
  exists ctx, a, (foldl promote t ts). rewrite Hh, Hs.
  split; [done|]. split; [done|]. split; [by exists t, ts|].
  intros Hc Hassoc t' ts' Hp.
  pose proof (reduce_permutation promote _ _ Hc Hassoc Hp) as Hred.
  simpl in Hred. by injection Hred as <-.
Qed.

(** X14. The argument types are in the result.  In the context that the
    cold path of [infer] returns, every formal argument that was paired
    with an argument type is bound, and its type set holds that type when
    [infer] returns (for a formal listed more than once, the type paired
    with its last occurrence). *)
Theorem infer_keeps_argument_types fuel func argtypes st ctx signature st' i arg t :
  lookup (cache st) func argtypes = None →
  infer prog fields promote (S fuel) func argtypes st
    = Done ((VContext ctx, VType signature), st') →
  zip (f_args (prog (ctx_func ctx))) argtypes !! i = Some (arg, t) →
  arg ∉ (drop (S i) (zip (f_args (prog (ctx_func ctx))) argtypes)).*1 →
  ∃ a, dict_get (ctx_context ctx) arg = Some a ∧ t ∈ deref (heap st') a.
Proof.
  intros Hl Hrun Hi Hlast. simpl in Hrun.
  apply infer_body_cold in Hrun
    as (ctx1 & st2 & ctx' & st3 & st4 & a & t0 & ts & Hseed & _ & _ & Hg & _ & _ & Hr & Hh);
    [|done].
  injection Hr as <- _. unfold seed_context in Hseed.
  destruct (seed_loop (zip (f_args (prog (ctx_func ctx1))) argtypes) ctx1 st2)
    as (ctx2 & Hrun2 & (Hf & _) & _ & Hbind).
  rewrite Hrun2 in Hseed. injection Hseed as -> <-. rewrite Hf in Hi, Hlast.
  exists (length (heap st2) + i). split; [by eapply Hbind|].
  rewrite Hh. unfold infer_graph in Hg.
  apply (worklist_step prog fields _ (infer_extends prog fields promote fuel)) in Hg
    as (_ & _ & Hmono & _).
  apply (prefix_subseteq _ _ (Hmono _)). cbn [heap]. unfold deref.
  rewrite lookup_app_r by lia. rewrite Nat.add_comm, Nat.add_sub.
  rewrite list_lookup_fmap, Hi. simpl. by left.
Qed.

End InferProperties.

Lemma infer_returns_solution_witness :
  ∃ r st',
    infer Examples.prog Examples.fields Examples.promote 10 0 [Examples.Float64]
      MoreExamples.flow_session = Done (r, st') ∧
    ∃ ctx signature,
      r = (VContext ctx, VType signature) ∧
      unaliased ctx ∧
      allocated ctx st' ∧
      ∀ node, node ∈ g_nodes (ctx_graph ctx) → is_literal node = false →
        satisfied Examples.prog Examples.fields ctx (heap st') node.
Proof.
  eexists _, _. split; [vm_compute; reflexivity|].
  apply (infer_returns_solution Examples.prog Examples.fields Examples.promote 9 0
           [Examples.Float64] MoreExamples.flow_session).
  - reflexivity.
  - vm_compute. reflexivity.
Defined.

Lemma infer_keeps_argument_types_witness :
  ∃ a, dict_get
         [(NOp 0, 3); (NFuncArg 0, 6); (return_node, 5)] (NFuncArg 0) = Some a ∧
       Examples.Float64 ∈
         deref [[]; [Examples.Int32]; []; []; [Examples.Int32];
                [Examples.Float64]; [Examples.Float64]] a.
Proof.
  refine (infer_keeps_argument_types Examples.prog Examples.fields Examples.promote
            9 0 [Examples.Float64] MoreExamples.flow_session
            (mkContext 0 [(NOp 0, 3); (NFuncArg 0, 6); (return_node, 5)] []
                       (ctx_graph Examples.flow_ctx) [])
            _
            (mkState [[]; [Examples.Int32]; []; []; [Examples.Int32];
                      [Examples.Float64]; [Examples.Float64]] _)
            0 (NFuncArg 0) Examples.Float64 _ _ _ _).
  - reflexivity.
  - vm_compute. reflexivity.
  - reflexivity.
  - by intros H%elem_of_nil.
Defined.

Lemma infer_signature_folds_return_set_witness :
  ∃ r st',
    infer Examples.prog Examples.fields MoreExamples.widest 10 0 [Examples.Float64]
      MoreExamples.mixed_session = Done (r, st') ∧
    ∃ ctx a restype,
      r = (VContext ctx, VType (Function restype [Examples.Float64])) ∧
      dict_get (ctx_context ctx) return_node = Some a ∧
      deref (heap st') a = [Examples.Int32; Examples.Float64] ∧
      restype = MoreExamples.widest Examples.Int32 Examples.Float64 ∧
      restype = MoreExamples.widest Examples.Float64 Examples.Int32.
Proof.
  eexists _, _. split; [vm_compute; reflexivity|].
  destruct (infer_signature_folds_return_set Examples.prog Examples.fields
              MoreExamples.widest 9 0 [Examples.Float64] MoreExamples.mixed_session
              _ _ eq_refl eq_refl)
    as (ctx & a & restype & Hr & Ha & (t & ts & Hp & Hfold) & Hall).
  injection Hr as <- <-. injection Ha as <-.
  eexists _, _, _. split; [reflexivity|]. split; [reflexivity|].
  split; [reflexivity|].
  assert (Hc : ∀ x y, MoreExamples.widest x y = MoreExamples.widest y x)
    by (intros x y; unfold MoreExamples.widest; repeat case_decide; congruence).
  assert (Hassoc : ∀ x y z, MoreExamples.widest (MoreExamples.widest x y) z
                            = MoreExamples.widest x (MoreExamples.widest y z))
    by (intros x y z; unfold MoreExamples.widest; repeat case_decide; congruence).
  split.
  - apply (Hall Hc Hassoc Examples.Int32 [Examples.Float64]). reflexivity.
  - apply (Hall Hc Hassoc Examples.Float64 [Examples.Int32]). apply perm_swap.
Defined.

(** ** The graph of a template *)

Lemma add_node_nodes G n x : x ∈ g_nodes (add_node G n) ↔ x ∈ g_nodes G ∨ x = n.
Proof.
  unfold add_node. case_decide; cbn [g_nodes].
  - split; [auto|]. by intros [?| ->].
  - by rewrite elem_of_app, list_elem_of_singleton.
Qed.

Lemma add_node_edges G n : g_edges (add_node G n) = g_edges G.
Proof. unfold add_node. by case_decide. Qed.

Lemma add_edge_nodes G u v x :
  x ∈ g_nodes (add_edge G u v) ↔ x ∈ g_nodes G ∨ x = u ∨ x = v.
Proof.
  unfold add_edge. case_decide; cbn [g_nodes]; rewrite !add_node_nodes; tauto.
Qed.

Lemma add_edge_edges G u v e :
  e ∈ g_edges (add_edge G u v) ↔ e ∈ g_edges G ∨ e = (u, v).
Proof.
  unfold add_edge. case_decide as He; cbn [g_edges].
  - rewrite !add_node_edges in *. split; [auto|]. by intros [?| ->].
  - by rewrite elem_of_app, list_elem_of_singleton, !add_node_edges.
Qed.

Lemma add_node_wf G n : graph_wf G → graph_wf (add_node G n).
Proof.
  intros (Hn & He & Hc). unfold add_node. case_decide; [done|].
  split; [|split]; cbn [g_nodes g_edges].
  - apply NoDup_app. split; [done|]. split; [|apply NoDup_singleton].
    by intros x Hx ->%list_elem_of_singleton.
  - done.
  - intros u v Huv. destruct (Hc u v Huv). cbn [g_nodes]. rewrite !elem_of_app. auto.
Qed.

Lemma add_edge_wf G u v : graph_wf G → graph_wf (add_edge G u v).
Proof.
  intros Hwf. pose proof (add_node_wf _ v (add_node_wf _ u Hwf)) as (Hn & He & Hc).
  unfold add_edge. case_decide as Hin; [done|]. split; [|split]; cbn [g_nodes g_edges].
  - done.
  - apply NoDup_app. split; [done|]. split; [|apply NoDup_singleton].
    by intros x Hx ->%list_elem_of_singleton.
  - intros x y [Hxy|[= -> ->]%list_elem_of_singleton]%elem_of_app; cbn [g_nodes];
      [by apply Hc|].
    rewrite !add_node_nodes. auto.
Qed.

Lemma graph_grown_trans ok G1 G2 G3 :
  graph_grown ok G1 G2 → graph_grown ok G2 G3 → graph_grown ok G1 G3.
Proof. intros H12 H23. induction H23; [done|by constructor..]. Qed.

Lemma graph_grown_impl (ok ok' : Node → Node → Prop) G G' :
  (∀ u v, ok u v → ok' u v) → graph_grown ok G G' → graph_grown ok' G G'.
Proof. intros Himpl H. induction H; constructor; auto. Qed.

Lemma graph_grown_wf ok G G' : graph_grown ok G G' → graph_wf G → graph_wf G'.
Proof. induction 1; auto using add_node_wf, add_edge_wf. Qed.

Lemma graph_grown_nodes ok G G' x : graph_grown ok G G' → x ∈ g_nodes G → x ∈ g_nodes G'.
Proof.
  induction 1; [done|..]; intros Hx.
  - apply add_node_nodes. auto.
  - apply add_edge_nodes. auto.
Qed.

Lemma graph_grown_edges_mono ok G G' e :
  graph_grown ok G G' → e ∈ g_edges G → e ∈ g_edges G'.
Proof.
  induction 1; [done|..]; intros Hx.
  - rewrite add_node_edges. auto.
  - apply add_edge_edges. auto.
Qed.

Lemma graph_grown_edges ok G G' u v :
  graph_grown ok G G' → (u, v) ∈ g_edges G' → (u, v) ∈ g_edges G ∨ ok u v.
Proof.
  induction 1 as [|G' n H IH|G' u' v' H IH Hok]; [auto|..].
  - by rewrite add_node_edges.
  - intros [He|[= -> ->]]%add_edge_edges; auto.
Qed.

Lemma graph_grown_foldl_edge ok G (f : Node → Node * Node) (l : list Node) :
  (∀ x, x ∈ l → ok (f x).1 (f x).2) →
  graph_grown ok G (foldl (λ G x, add_edge G (f x).1 (f x).2) G l).
Proof.
  revert G. induction l as [|x l IH] using rev_ind; intros G Hok; simpl; [constructor|].
  rewrite foldl_app. simpl. constructor.
  - apply IH. intros y Hy. apply Hok, elem_of_app. auto.
  - apply Hok, elem_of_app. right. by apply list_elem_of_singleton.
Qed.

(** ** The constraint generator *)

Lemma index_head {A} (l : list A) a : index l 0 = Done a → ∃ l', l = a :: l'.
Proof. destruct l as [|x l]; [done|]. intros [= ->]. by eexists. Qed.

Lemma as_key_node a n : as_key a = Done n → a = ANode n.
Proof. destruct a; [by intros [= ->]|done]. Qed.

Lemma unpack2_pair args a b : unpack2 args = Done (a, b) → args = [a; b].
Proof. destruct args as [|x [|y [|]]]; try done. by intros [= -> ->]. Qed.

Lemma var_node_inj i j : var_node i = var_node j → i = j.
Proof.
  unfold var_node. intros H.
  apply (f_equal (λ n, match n with NStr s => s | _ => "" end)) in H.
  cbv beta iota in H. apply (inj (String.app "var")) in H.
  by apply (inj (pretty : nat → string)) in H.
Qed.

Lemma dict_set_new {K V} `{EqDecision K} (d : list (K * V)) k v :
  dict_get d k = None → dict_set d k v = d ++ [(k, v)].
Proof.
  induction d as [|[k' v'] d IH]; simpl; [done|]. case_decide; [done|].
  intros Hd. by rewrite IH.
Qed.

(** The graph after a handler: nodes and edges were added, every edge
    into a node that is not a Type literal or into an operand. *)
Lemma dispatch_graph ops g op g' :
  op ∈ ops →
  allocas_ok (gen_allocas g) →
  dispatch g op = Done g' →
  graph_grown (edge_ok ops) (gen_G g) (gen_G g').
Proof.
  intros Hop [_ Hvars] Hrun. unfold dispatch in Hrun.
  repeat case_decide; try discriminate.
  - unfold op_alloca in Hrun. cbv zeta in Hrun.
    destruct (dict_get (gen_allocas g) (NOp (op_id op))) as [v|] eqn:Ek;
      cbn [gen_allocas gen_G gen_constraints gen_metadata] in Hrun.
    + rewrite Ek in Hrun. injection Hrun as <-. cbn [gen_G].
      apply grown_edge; [constructor|by left].
    + rewrite dict_get_set_eq in Hrun. injection Hrun as <-. cbn [gen_G].
      apply grown_edge; [by repeat constructor|by left].
  - unfold op_load in Hrun. handler_steps Hrun. injection Hrun as <-. cbn [gen_G with_G].
    apply grown_edge; [constructor|by left].
  - unfold op_store in Hrun. handler_steps Hrun. injection Hrun as <-. cbn [gen_G with_G].
    apply grown_edge; [constructor|]. left.
    unfold olift in E1. destruct (dict_get (gen_allocas g) a0) as [v|] eqn:Ev; [|done].
    injection E1 as <-. apply dict_get_elem, Hvars in Ev as (i & -> & _). done.
  - unfold op_phi in Hrun. handler_steps Hrun. injection Hrun as <-. cbn [gen_G with_G].
    apply (graph_grown_foldl_edge _ _ (λ x, (x, NOp (op_id op)))). intros x _. by left.
  - unfold op_getfield in Hrun. handler_steps Hrun. injection Hrun as <-. cbn [gen_G].
    apply grown_edge; [constructor|by left].
  - unfold op_call in Hrun. handler_steps Hrun. injection Hrun as <-. cbn [gen_G].
    apply (graph_grown_foldl_edge _ _ (λ x, (x, NOp (op_id op)))). intros x _. by left.
  - unfold op_convert in Hrun. case_decide.
    + injection Hrun as <-. cbn [gen_G with_G]. apply grown_edge; [constructor|by left].
    + handler_steps Hrun. injection Hrun as <-. cbn [gen_G with_G].
      apply grown_edge; [constructor|by left].
  - unfold op_cbranch in Hrun. handler_steps Hrun. injection Hrun as <-.
    cbn [gen_G with_G]. apply grown_edge; [constructor|]. right. exists op. split; [done|].
    apply index_head in E as [l' E]. apply as_key_node in E0 as ->.
    rewrite E. unfold flatten. simpl. by left.
  - unfold op_ret in Hrun. handler_steps Hrun. injection Hrun as <-. cbn [gen_G with_G].
    apply grown_edge; [constructor|by left].
  - injection Hrun as <-. constructor.
Qed.

(** The slots after a handler. *)
Lemma dispatch_allocas g op g' :
  allocas_ok (gen_allocas g) →
  dispatch g op = Done g' →
  allocas_ok (gen_allocas g').
Proof.
  intros Hok Hrun. unfold dispatch in Hrun.
  repeat case_decide; try discriminate;
    try (unfold op_load, op_store, op_phi, op_getfield, op_call, op_cbranch, op_ret in Hrun;
         handler_steps Hrun; by injection Hrun as <-).
  - unfold op_alloca in Hrun. cbv zeta in Hrun.
    destruct (dict_get (gen_allocas g) (NOp (op_id op))) as [v|] eqn:Ek;
      cbn [gen_allocas gen_G gen_constraints gen_metadata] in Hrun.
    { rewrite Ek in Hrun. by injection Hrun as <-. }
    rewrite dict_get_set_eq in Hrun. injection Hrun as <-. cbn [gen_allocas].
    rewrite dict_set_new by done. destruct Hok as [Hnd Hvars]. split.
    + rewrite fmap_snoc. apply NoDup_app. split; [done|]. split; [|apply NoDup_singleton].
      intros x Hx ->%list_elem_of_singleton.
      apply list_elem_of_fmap in Hx as ([k v] & Hv & Hin). simpl in Hv. subst v.
      apply Hvars in Hin as (i & Hi%var_node_inj & Hlt). lia.
    + intros k v [Hin|[= -> ->]%list_elem_of_singleton]%elem_of_app; rewrite length_app;
        cbn [length].
      * apply Hvars in Hin as (i & -> & Hlt). exists i. split; [done|lia].
      * exists (length (gen_allocas g)). split; [done|lia].
  - unfold op_convert in Hrun. case_decide.
    + by injection Hrun as <-.
    + handler_steps Hrun. by injection Hrun as <-.
Qed.

Lemma tags_ok_set done c m op C m' :
  tags_ok done c m →
  tag_of m' op C →
  (∀ op0 C0, op_id op0 ≠ op_id op → tag_of m op0 C0 → tag_of m' op0 C0) →
  tags_ok (done ++ [op]) (dict_set c (NOp (op_id op)) C) m'.
Proof.
  intros Hok Hnew Hold n C1 Hget.
  destruct (decide (NOp (op_id op) = n)) as [<-|Hne].
  - rewrite dict_get_set_eq in Hget. injection Hget as <-.
    exists op. split; [|done]. apply elem_of_app. right. by apply list_elem_of_singleton.
  - rewrite dict_get_set_ne in Hget by done.
    destruct (Hok n C1 Hget) as (op0 & Hin & -> & Htag).
    exists op0. split; [apply elem_of_app; by left|]. split; [done|].
    apply Hold; [|done]. by intros Heq; rewrite Heq in Hne.
Qed.

Lemma tags_ok_keep done c m op : tags_ok done c m → tags_ok (done ++ [op]) c m.
Proof.
  intros Hok n C Hget. destruct (Hok n C Hget) as (op0 & Hin & Hn & Htag).
  exists op0. split; [apply elem_of_app; by left|done].
Qed.

Lemma tag_of_set m op0 C0 k v :
  k ≠ NOp (op_id op0) → tag_of m op0 C0 → tag_of (dict_set m k v) op0 C0.
Proof.
  intros Hne [H|[(H1 & H2 & x & attr & H3 & H4)|(H1 & H2 & f & args & H3 & H4)]].
  - by left.
  - right. left. split; [done|]. split; [done|]. exists x, attr. split; [done|].
    by rewrite dict_get_set_ne.
  - right. right. split; [done|]. split; [done|]. exists f, args. split; [done|].
    by rewrite dict_get_set_ne.
Qed.

(** The constraints and the metadata after a handler. *)
Lemma dispatch_tags done g op g' :
  tags_ok done (gen_constraints g) (gen_metadata g) →
  dispatch g op = Done g' →
  tags_ok (done ++ [op]) (gen_constraints g') (gen_metadata g').
Proof.
  intros Hok Hrun. unfold dispatch in Hrun.
  repeat case_decide; try discriminate;
    try (unfold op_load, op_store, op_phi, op_cbranch, op_ret in Hrun;
         handler_steps Hrun; injection Hrun as <-; by apply tags_ok_keep).
  - unfold op_alloca in Hrun. cbv zeta in Hrun.
    assert (∃ G a, g' = mkGen G (dict_set (gen_constraints g) (NOp (op_id op)) "pointer")
                              (gen_metadata g) a) as (G & a & ->).
    { destruct (dict_get (gen_allocas g) (NOp (op_id op))) as [v|] eqn:Ek;
        cbn [gen_allocas gen_G gen_constraints gen_metadata] in Hrun.
      - rewrite Ek in Hrun. injection Hrun as <-. by eexists _, _.
      - rewrite dict_get_set_eq in Hrun. injection Hrun as <-. by eexists _, _. }
    cbn [gen_constraints gen_metadata].
    apply (tags_ok_set done _ (gen_metadata g)); [done|by left|auto].
  - unfold op_getfield in Hrun. handler_steps Hrun. injection Hrun as <-.
    cbn [gen_constraints gen_metadata].
    match goal with
    | E : unpack2 _ = Done ?p |- _ => destruct p as [x attr]; apply unpack2_pair in E
    end.
    apply (tags_ok_set done _ (gen_metadata g)); [done| |].
    + right. left. split; [done|]. split; [done|]. exists x, attr. split; [done|].
      apply dict_get_set_eq.
    + intros op0 C0 Hne. apply tag_of_set. by intros [= Heq].
  - unfold op_call in Hrun. handler_steps Hrun. injection Hrun as <-.
    cbn [gen_constraints gen_metadata].
    match goal with
    | E : unpack2 _ = Done ?p |- _ => destruct p as [func args]; apply unpack2_pair in E
    end.
    apply (tags_ok_set done _ (gen_metadata g)); [done| |].
    + right. right. split; [done|]. split; [done|]. exists func, args. split; [done|].
      apply dict_get_set_eq.
    + intros op0 C0 Hne. apply tag_of_set. by intros [= Heq].
  - unfold op_convert in Hrun. case_decide.
    + injection Hrun as <-. by apply tags_ok_keep.
    + handler_steps Hrun. injection Hrun as <-. by apply tags_ok_keep.
Qed.

(** The generator after the traversal of [ops]. *)
Lemma visit_generator all : ∀ ops done g g',
  (∀ op, op ∈ ops → op ∈ all) →
  allocas_ok (gen_allocas g) →
  tags_ok done (gen_constraints g) (gen_metadata g) →
  visit g ops = Done g' →
  graph_grown (edge_ok all) (gen_G g) (gen_G g') ∧
  allocas_ok (gen_allocas g') ∧
  tags_ok (done ++ ops) (gen_constraints g') (gen_metadata g').
Proof.
  induction ops as [|op ops IH]; intros done g g' Hall Ha Ht; simpl.
  - intros [= <-]. rewrite app_nil_r. split; [constructor|done].
  - intros Hrun. destruct (dispatch g op) as [g1| |] eqn:Hd; try discriminate.
    simpl in Hrun.
    assert (Hop : op ∈ all) by (apply Hall; by left).
    pose proof (dispatch_graph all g op g1 Hop Ha Hd) as HG.
    pose proof (dispatch_allocas g op g1 Ha Hd) as Ha1.
    pose proof (dispatch_tags done g op g1 Ht Hd) as Ht1.
    destruct (IH (done ++ [op]) g1 g') as (HG' & Ha' & Ht'); try done.
    { intros op' Hop'. apply Hall. by right. }
    split; [by eapply graph_grown_trans|]. split; [done|].
    by rewrite <- app_assoc in Ht'.
Qed.

(** The nodes that [build_graph] adds before the traversal. *)
Lemma build_nodes_grown ok (ops : list Op) : ∀ G,
  let G0 :=
    foldl (λ G op,
             foldl (λ G arg, if is_leaf_value arg then add_node G arg else G)
                   (add_node G (NOp (op_id op))) (flatten (op_args op)))
          G ops in
  graph_grown ok G G0 ∧
  ∀ op, op ∈ ops →
    NOp (op_id op) ∈ g_nodes G0 ∧
    ∀ arg, arg ∈ flatten (op_args op) → is_leaf_value arg = true → arg ∈ g_nodes G0.
Proof.
  assert (Hargs : ∀ (l : list Node) G,
            graph_grown ok G
              (foldl (λ G arg, if is_leaf_value arg then add_node G arg else G) G l) ∧
            ∀ arg, arg ∈ l → is_leaf_value arg = true →
              arg ∈ g_nodes
                (foldl (λ G arg, if is_leaf_value arg then add_node G arg else G) G l)).
  { induction l as [|x l IHl] using rev_ind; intros G.
    - split; [constructor|]. by intros arg Harg%elem_of_nil.
    - rewrite foldl_app. cbn [foldl]. destruct (IHl G) as [Hg Hin]. split.
      + destruct (is_leaf_value x); [by constructor|done].
      + intros arg [Harg|Harg%list_elem_of_singleton]%elem_of_app Hleaf.
        * destruct (is_leaf_value x); [apply add_node_nodes; left|]; by apply Hin.
        * subst arg. rewrite Hleaf. apply add_node_nodes. by right. }
  induction ops as [|op ops IH] using rev_ind; intros G; cbn zeta.
  - split; [constructor|]. by intros op Hop%elem_of_nil.
  - rewrite foldl_app. cbn [foldl]. destruct (IH G) as [Hg Hin].
    set (G1 := foldl _ G ops) in *.
    destruct (Hargs (flatten (op_args op)) (add_node G1 (NOp (op_id op)))) as [Hg2 Hin2].
    split.
    + eapply graph_grown_trans; [|exact Hg2]. by constructor.
    + intros op' [Hop|Hop%list_elem_of_singleton]%elem_of_app.
      * destruct (Hin op' Hop) as [H1 H2]. split.
        -- eapply graph_grown_nodes; [exact Hg2|]. apply add_node_nodes. by left.
        -- intros arg Harg Hleaf. eapply graph_grown_nodes; [exact Hg2|].
           apply add_node_nodes. left. by apply H2.
      * subst op'. split; [|exact Hin2].
        eapply graph_grown_nodes; [exact Hg2|]. apply add_node_nodes. by right.
Qed.

(** [build_graph], step by step. *)
Lemma build_graph_grown f func tmpl :
  build_graph f func = Done tmpl →
  graph_grown (edge_ok (f_ops func)) empty_graph (ctx_graph tmpl) ∧
  tags_ok (f_ops func) (ctx_constraints tmpl) (ctx_metadata tmpl) ∧
  ∀ op, op ∈ f_ops func →
    NOp (op_id op) ∈ g_nodes (ctx_graph tmpl) ∧
    ∀ arg, arg ∈ flatten (op_args op) → is_leaf_value arg = true →
      arg ∈ g_nodes (ctx_graph tmpl).
Proof.
  unfold build_graph, generate_constraints. intros Hrun.
  destruct (build_nodes_grown (edge_ok (f_ops func)) (f_ops func) empty_graph)
    as [Hg0 Hin0]. cbv zeta in Hrun.
  set (G0 := foldl _ empty_graph (f_ops func)) in *.
  destruct (visit (mkGen G0 [] [] []) (f_ops func)) as [g| |] eqn:Hv; try discriminate.
  simpl in Hrun. injection Hrun as <-. cbn [ctx_graph ctx_constraints ctx_metadata].
  destruct (visit_generator (f_ops func) (f_ops func) [] (mkGen G0 [] [] []) g)
    as (Hg & _ & Ht); try done.
  { split; [constructor|]. by intros k v Hkv%elem_of_nil. }
  split; [by eapply graph_grown_trans|]. split; [done|].
  intros op Hop. destruct (Hin0 op Hop) as [H1 H2]. split.
  - by eapply graph_grown_nodes.
  - intros arg Harg Hleaf. eapply graph_grown_nodes; [exact Hg|]. by apply H2.
Qed.

Lemma dict_values_inj {K} `{EqDecision K} {V} (d : list (K * V)) u v b :
  NoDup d.*2 → dict_get d u = Some b → dict_get d v = Some b → u = v.
Proof.
  intros Hnd Hu%dict_get_elem Hv%dict_get_elem.
  apply list_elem_of_lookup in Hu as [i Hi]. apply list_elem_of_lookup in Hv as [j Hj].
  assert (i = j) as ->.
  { eapply NoDup_lookup; [exact Hnd| |]; rewrite list_lookup_fmap.
    - by rewrite Hi. - by rewrite Hj. }
  congruence.
Qed.

(** X7. The graph of a template is well formed and covers the function:
    it lists no node and no edge twice, both ends of every edge are
    nodes, every operation of the function is a node, and so is every
    constant, global and argument that an operation names as operand. *)
Theorem build_graph_is_well_formed f func tmpl :
  build_graph f func = Done tmpl →
  graph_wf (ctx_graph tmpl) ∧
  ∀ op, op ∈ f_ops func →
    NOp (op_id op) ∈ g_nodes (ctx_graph tmpl) ∧
    ∀ arg, arg ∈ flatten (op_args op) → is_leaf_value arg = true →
      arg ∈ g_nodes (ctx_graph tmpl).
Proof.
  intros (Hg & _ & Hin)%build_graph_grown. split; [|done].
  eapply graph_grown_wf; [exact Hg|].
  split; [constructor|]. split; [constructor|]. by intros u v Huv%elem_of_nil.
Qed.

(** X8. In a template only nodes of operations have a constraint, and
    the constraint tells the kind of the operation: ['pointer'] an
    [alloca], ['attr'] a [getfield] whose second operand is the ['attr']
    of the node's metadata, ['call'] a [call] whose two operands are the
    ['func'] and ['args'] of the node's metadata. *)
Theorem build_graph_tags_operations f func tmpl :
  build_graph f func = Done tmpl →
  tags_ok (f_ops func) (ctx_constraints tmpl) (ctx_metadata tmpl).
Proof. by intros (_ & Ht & _)%build_graph_grown. Qed.

(** X9. In the graph of a template no edge leads into a Type literal and
    no Type literal has a constraint, when no operation names a Type
    literal as operand: the Type literals that the builder adds itself
    ([Bool()] for a branch condition, [Void()] for an empty return) are
    sources. *)
Theorem build_graph_literals_are_sources f func tmpl :
  build_graph f func = Done tmpl →
  (∀ n, n ∈ operands func → is_literal n = false) →
  literals_are_sources tmpl.
Proof.
  intros (Hg & Ht & _)%build_graph_grown Hops t. split.
  - destruct (dict_get (ctx_constraints tmpl) (NType t)) as [C|] eqn:E; [|done].
    by destruct (Ht _ _ E) as (op & _ & [=] & _).
  - destruct (predecessors (ctx_graph tmpl) (NType t)) as [|u l] eqn:E; [done|].
    assert (Hu : u ∈ predecessors (ctx_graph tmpl) (NType t)) by (rewrite E; by left).
    apply elem_predecessors in Hu.
    apply (graph_grown_edges _ _ _ _ _ Hg) in Hu as [Hu%elem_of_nil|[Hu|Hu]]; try done.
    destruct Hu as (op & Hop & Hin).
    assert (NType t ∈ operands func) as Hn%Hops; [|done].
    unfold operands. apply list_elem_of_bind. by exists op.
Qed.

(** X10. The constraint generator gives every stack slot a variable node
    of its own: after the traversal of any operations, from the empty
    [_allocas], two different [alloca] operations have different variable
    nodes, each of the form ['var%d'] with a number below the number of
    slots. *)
Theorem slots_have_their_own_variable G ops g o1 o2 v1 v2 :
  visit (mkGen G [] [] []) ops = Done g →
  dict_get (gen_allocas g) o1 = Some v1 →
  dict_get (gen_allocas g) o2 = Some v2 →
  o1 ≠ o2 →
  v1 ≠ v2 ∧ ∃ i, v1 = var_node i ∧ i < length (gen_allocas g).
Proof.
  intros Hv H1 H2 Hne.
  destruct (visit_generator ops ops [] (mkGen G [] [] []) g) as (_ & [Hnd Hvars] & _);
    try done.
  { split; [constructor|]. by intros k v Hkv%elem_of_nil. }
  split.
  - intros <-. apply Hne. by eapply dict_values_inj.
  - by apply (Hvars o1), dict_get_elem.
Qed.

Lemma build_graph_is_well_formed_witness :
  graph_wf (ctx_graph MoreExamples.slot_template) ∧
  ∀ op, op ∈ f_ops MoreExamples.slot_function →
    NOp (op_id op) ∈ g_nodes (ctx_graph MoreExamples.slot_template) ∧
    ∀ arg, arg ∈ flatten (op_args op) → is_leaf_value arg = true →
      arg ∈ g_nodes (ctx_graph MoreExamples.slot_template).
Proof.
  apply (build_graph_is_well_formed 0 MoreExamples.slot_function). vm_compute. reflexivity.
Defined.

Lemma build_graph_tags_operations_witness :
  tags_ok (f_ops MoreExamples.slot_function)
    (ctx_constraints MoreExamples.slot_template) (ctx_metadata MoreExamples.slot_template).
Proof.
  apply (build_graph_tags_operations 0 MoreExamples.slot_function). vm_compute. reflexivity.
Defined.

Lemma build_graph_literals_are_sources_witness :
  (NType Bool, NOp 0) ∈ g_edges (ctx_graph MoreExamples.branch_template) ∧
  (NType Void, return_node) ∈ g_edges (ctx_graph MoreExamples.branch_template) ∧
  literals_are_sources MoreExamples.branch_template.
Proof.
  split; [by_compute|]. split; [by_compute|].
  apply (build_graph_literals_are_sources 0 MoreExamples.branch_on_field).
  - vm_compute. reflexivity.
  - apply Forall_forall. by_compute.
Defined.

Lemma slots_have_their_own_variable_witness :
  var_node 0 ≠ var_node 1 ∧ ∃ i, var_node 0 = var_node i ∧ i < 2.
Proof.
  apply (slots_have_their_own_variable empty_graph MoreExamples.two_slots
           (mkGen (mkGraph [NStr "var0"; NOp 0; NStr "var1"; NOp 1]
                           [(NStr "var0", NOp 0); (NStr "var1", NOp 1)])
                  [(NOp 0, "pointer"); (NOp 1, "pointer")] []
                  [(NOp 0, NStr "var0"); (NOp 1, NStr "var1")])
           (NOp 0) (NOp 1)); try done.
Defined.

(** ** A field access as branch condition *)

Lemma dispatch_constraint_other g op g' n :
  n ≠ NOp (op_id op) →
  dispatch g op = Done g' →
  dict_get (gen_constraints g') n = dict_get (gen_constraints g) n.
Proof.
  intros Hne Hrun. unfold dispatch in Hrun.
  repeat case_decide; try discriminate;
    try (unfold op_load, op_store, op_phi, op_cbranch, op_ret in Hrun;
         handler_steps Hrun; by injection Hrun as <-).
  - unfold op_alloca in Hrun. cbv zeta in Hrun.
    destruct (dict_get (gen_allocas g) (NOp (op_id op))) as [v|] eqn:Ek;
      cbn [gen_allocas gen_G gen_constraints gen_metadata] in Hrun.
    + rewrite Ek in Hrun. injection Hrun as <-. cbn [gen_constraints].
      by rewrite dict_get_set_ne.
    + rewrite dict_get_set_eq in Hrun. injection Hrun as <-. cbn [gen_constraints].
      by rewrite dict_get_set_ne.
  - unfold op_getfield in Hrun. handler_steps Hrun. injection Hrun as <-.
    cbn [gen_constraints]. by rewrite dict_get_set_ne.
  - unfold op_call in Hrun. handler_steps Hrun. injection Hrun as <-.
    cbn [gen_constraints]. by rewrite dict_get_set_ne.
  - unfold op_convert in Hrun. case_decide.
    + by injection Hrun as <-.
    + handler_steps Hrun. by injection Hrun as <-.
Qed.

Lemma visit_constraint_keep (ops : list Op) : ∀ g g' n,
  (∀ op, op ∈ ops → n ≠ NOp (op_id op)) →
  visit g ops = Done g' →
  dict_get (gen_constraints g') n = dict_get (gen_constraints g) n.
Proof.
  induction ops as [|op ops IH]; intros g g' n Hne; simpl; [by intros [= <-]|].
  intros Hrun. destruct (dispatch g op) as [g1| |] eqn:Hd; try discriminate.
  simpl in Hrun. rewrite (IH g1 g' n); [|intros op' Hop'; apply Hne; by right|done].
  eapply dispatch_constraint_other; [|exact Hd]. apply Hne. by left.
Qed.

Lemma visit_grown (all ops : list Op) : ∀ g g',
  (∀ op, op ∈ ops → op ∈ all) →
  allocas_ok (gen_allocas g) →
  visit g ops = Done g' →
  graph_grown (edge_ok all) (gen_G g) (gen_G g') ∧ allocas_ok (gen_allocas g').
Proof.
  induction ops as [|op ops IH]; intros g g' Hall Ha; simpl.
  - intros [= <-]. split; [constructor|done].
  - intros Hrun. destruct (dispatch g op) as [g1| |] eqn:Hd; try discriminate.
    simpl in Hrun.
    assert (Hop : op ∈ all) by (apply Hall; by left).
    pose proof (dispatch_graph all g op g1 Hop Ha Hd) as HG.
    pose proof (dispatch_allocas g op g1 Ha Hd) as Ha1.
    destruct (IH g1 g') as (HG' & Ha'); try done.
    { intros op' Hop'. apply Hall. by right. }
    split; [by eapply graph_grown_trans|done].
Qed.

Lemma dispatch_getfield g op g' :
  op_opcode op = "getfield" →
  dispatch g op = Done g' →
  dict_get (gen_constraints g') (NOp (op_id op)) = Some "attr" ∧
  ∀ x attr, op_args op = [ANode x; attr] → (x, NOp (op_id op)) ∈ g_edges (gen_G g').
Proof.
  intros Hoc Hrun. unfold dispatch in Hrun.
  repeat case_decide; try discriminate; try congruence.
  unfold op_getfield in Hrun. handler_steps Hrun. injection Hrun as <-.
  cbn [gen_constraints gen_G]. split; [apply dict_get_set_eq|].
  intros x attr Hargs.
  match goal with
  | E : unpack2 _ = Done ?p |- _ => destruct p as [x' attr']; apply unpack2_pair in E;
                                      rewrite Hargs in E; injection E as <- <-
  end.
  match goal with
  | E : as_key _ = Done ?n |- _ => injection E as <-
  end.
  apply add_edge_edges. by right.
Qed.

Lemma dispatch_cbranch g op g' c rest :
  op_opcode op = "cbranch" →
  op_args op = ANode c :: rest →
  dispatch g op = Done g' →
  (NType Bool, c) ∈ g_edges (gen_G g').
Proof.
  intros Hoc Hargs Hrun. unfold dispatch in Hrun.
  repeat case_decide; try discriminate; try congruence.
  unfold op_cbranch in Hrun. rewrite Hargs in Hrun. simpl in Hrun.
  injection Hrun as <-. cbn [gen_G with_G]. apply add_edge_edges. by right.
Qed.

(** What a [getfield] and a [cbranch] leave in the generator at the end
    of the traversal, when no two operations have the same identity. *)
Lemma visit_effects (all ops : list Op) : ∀ g g',
  (∀ op, op ∈ ops → op ∈ all) →
  NoDup (op_id <$> ops) →
  allocas_ok (gen_allocas g) →
  visit g ops = Done g' →
  ∀ op, op ∈ ops →
    (op_opcode op = "getfield" →
     dict_get (gen_constraints g') (NOp (op_id op)) = Some "attr" ∧
     ∀ x attr, op_args op = [ANode x; attr] → (x, NOp (op_id op)) ∈ g_edges (gen_G g')) ∧
    (op_opcode op = "cbranch" →
     ∀ c rest, op_args op = ANode c :: rest → (NType Bool, c) ∈ g_edges (gen_G g')).
Proof.
  induction ops as [|op0 ops IH]; intros g g' Hall Hnd Ha; simpl;
    [by intros _ op Hop%elem_of_nil|].
  intros Hrun op Hop. destruct (dispatch g op0) as [g1| |] eqn:Hd; try discriminate.
  simpl in Hrun. rewrite fmap_cons in Hnd. apply NoDup_cons in Hnd as [Hfresh Hnd].
  pose proof (dispatch_allocas g op0 g1 Ha Hd) as Ha1.
  assert (Hall' : ∀ op, op ∈ ops → op ∈ all) by (intros op' Hop'; apply Hall; by right).
  apply elem_of_cons in Hop as [->|Hop]; [|by eapply (IH g1 g')].
  destruct (visit_grown all ops g1 g' Hall' Ha1 Hrun) as [Hg _].
  split.
  - intros Hoc. destruct (dispatch_getfield g op0 g1 Hoc Hd) as [Hc He]. split.
    + rewrite (visit_constraint_keep ops g1 g'); [done| |done].
      intros op' Hop' [= Heq]. apply Hfresh. rewrite Heq.
      apply list_elem_of_fmap. by exists op'.
    + intros x attr Hargs. eapply graph_grown_edges_mono; [exact Hg|]. by eapply He.
  - intros Hoc c rest Hargs. eapply graph_grown_edges_mono; [exact Hg|].
    by eapply dispatch_cbranch.
Qed.

Lemma two_elements {A} (l : list A) x y :
  x ∈ l → y ∈ l → x ≠ y → ∃ a b l', l = a :: b :: l'.
Proof.
  destruct l as [|a [|b l']]; intros Hx Hy Hne.
  - by apply elem_of_nil in Hx.
  - apply list_elem_of_singleton in Hx, Hy. congruence.
  - by eexists _, _, _.
Qed.

Section BranchOnField.

Variable prog : fid → IRFunction.
Variable fields : Ty → list (string * (Ty * Ty)).

(** X11. A field access whose result is the condition of a branch cannot
    be solved.  In the template the node of the [getfield] has two
    predecessors, its operand and the [Bool()] that the [cbranch] lets
    flow into its condition, and the ['attr'] transfer unpacks its
    predecessors into one name: in every context over the template that
    binds the node, the visit of the node raises [ValueError], whatever
    the type sets hold. *)
Theorem getfield_condition_is_fatal R f func tmpl ctx st og oc x attr rest a :
  build_graph f func = Done tmpl →
  NoDup (op_id <$> f_ops func) →
  og ∈ f_ops func → op_opcode og = "getfield" → op_args og = [ANode x; attr] →
  x ≠ NType Bool →
  oc ∈ f_ops func → op_opcode oc = "cbranch" → op_args oc = ANode (NOp (op_id og)) :: rest →
  shares_template tmpl ctx →
  dict_get (ctx_context ctx) (NOp (op_id og)) = Some a →
  infer_node prog fields R ctx (NOp (op_id og)) st
    = Raise (ValueError "wrong number of values to unpack").
Proof.
  intros Hb Hnd Hog Hgf Hargs Hx Hoc Hcb Hcargs (_ & HG & HC & _) Ha.
  pose proof (build_graph_grown f func tmpl Hb) as (_ & _ & Hnodes).
  destruct (Hnodes og Hog) as [Hnode _].
  unfold build_graph, generate_constraints in Hb. cbv zeta in Hb.
  destruct (visit _ (f_ops func)) as [g| |] eqn:Hv; try discriminate.
  simpl in Hb. injection Hb as <-. cbn [ctx_graph ctx_constraints] in *.
  assert (Hok : allocas_ok ([] : list (Node * Node)))
    by (split; [constructor|]; by intros k v Hkv%elem_of_nil).
  match type of Hv with
  | visit ?g0 _ = _ =>
      pose proof (visit_effects (f_ops func) (f_ops func) g0 g (λ _ H, H) Hnd Hok Hv)
        as Heff
  end.
  destruct (Heff og Hog) as [Hg _]. destruct (Hg Hgf) as [Hc He].
  destruct (Heff oc Hoc) as [_ Hbr].
  pose proof (He x attr Hargs) as Hex. pose proof (Hbr Hcb _ _ Hcargs) as Heb.
  apply elem_predecessors in Hex, Heb.
  destruct (two_elements _ _ _ Hex Heb Hx) as (u1 & u2 & l & Hl).
  unfold infer_node. rewrite HC, Hc, HG. cbn [from_option id default].
  erewrite bind_step by (unfold context_get; rewrite Ha; reflexivity).
  erewrite bind_step
    by (unfold graph_predecessors; rewrite decide_True by done; reflexivity).
  rewrite (decide_False (P := "attr" = "pointer")) by done.
  rewrite (decide_False (P := "attr" = "flow")) by done.
  rewrite (decide_True (P := "attr" = "attr")) by done.
  by rewrite Hl.
Qed.

End BranchOnField.

Lemma getfield_condition_is_fatal_witness :
  infer_node Examples.prog Examples.fields MoreExamples.no_resolver
    (with_context MoreExamples.branch_template [(NOp 0, 0)]) (NOp 0)
    (mkState [[]] Examples.empty_cache)
  = Raise (ValueError "wrong number of values to unpack").
Proof.
  apply (getfield_condition_is_fatal Examples.prog Examples.fields
           MoreExamples.no_resolver 0 MoreExamples.branch_on_field
           MoreExamples.branch_template
           (with_context MoreExamples.branch_template [(NOp 0, 0)])
           (mkState [[]] Examples.empty_cache)
           (mkOp 0 "getfield" PkOpaque [ANode (NFuncArg 0); ANode (NStr "q")])
           (mkOp 1 "cbranch" PkOpaque
                 [ANode (NOp 0); ANode (NStr "then"); ANode (NStr "else")])
           (NFuncArg 0) (ANode (NStr "q")) [ANode (NStr "then"); ANode (NStr "else")] 0).
  - vm_compute. reflexivity.
  - by_compute.
  - left.
  - reflexivity.
  - reflexivity.
  - discriminate.
  - right. left.
  - reflexivity.
  - reflexivity.
  - repeat split.
  - reflexivity.
Defined.

(** ** Callers of [infer] *)

Section Callers.

Variable prog : fid → IRFunction.
Variable fields : Ty → list (string * (Ty * Ty)).
Variable promote : Ty → Ty → Ty.

(** X12. A static call can be resolved once.  When [infer_call] has
    resolved a call of the function [f] through the cold path of [infer],
    the same call resolved again, in the state that the first one left,
    raises [AttributeError]: [infer] now answers from the cache with the
    pair (signature, context), and [infer_call] reads [.params] of its
    second component, the context. *)
Theorem static_call_resolves_once fuel fuel' f func_type arg_types st t st' :
  lookup (cache st) f arg_types = None →
  get_name prog func_type ≠ Done "Method" →
  infer_call prog (infer prog fields promote (S fuel)) (NFunction f) func_type arg_types st
    = Done (t, st') →
  infer_call prog (infer prog fields promote (S fuel')) (NFunction f) func_type arg_types st'
    = Raise (AttributeError "params").
Proof.
  intros Hl Hname Hrun.
  assert (∃ name sig ctx,
            get_name prog func_type = Done name ∧ name ≠ "Method" ∧
            (∀ cands, func_type ≠ Overloaded cands) ∧
            lookup (cache st') f arg_types = Some (VType sig, VContext ctx))
    as (name & sig & ctx & En & Hne & Hov & Hhit).
  { unfold infer_call in Hrun.
    apply bind_Done in Hrun as (name & s & Hn & Hrun).
    pose proof Hn as Hpure. apply liftO_pure in Hpure as ->.
    unfold liftO in Hn. destruct (get_name prog func_type) as [name'| |] eqn:En;
      try discriminate. injection Hn as ->.
    destruct (decide (name = "Method")) as [->|Hne]; [done|].
    assert (Hov : ∀ cands, func_type ≠ Overloaded cands) by (by intros cands ->).
    assert (Hrun' : (let! f' := lift (Some f) (AttributeError "ops") in
                     let! r := infer prog fields promote (S fuel) f' arg_types in
                     let '(ctx, signature) := r in
                     match signature with
                     | VType t => let! params := liftO (get_params t) in
                                  liftO (index params 0)
                     | VContext _ => raise (AttributeError "params")
                     end) st = Done (t, st'))
      by (unfold infer_call_function in Hrun; destruct func_type; try done;
          by destruct (Hov cands)).
    apply bind_Done in Hrun' as (f' & s & [= <- <-] & Hrun').
    apply bind_Done in Hrun' as (r & s & Hinf & Hrun').
    assert (s = st') as ->.
    { destruct r as [c [sg|sg]]; [discriminate|].
      apply bind_Done in Hrun' as (p & s' & Hp%liftO_pure & Hrun'%liftO_pure).
      congruence. }
    simpl in Hinf. apply infer_body_frame in Hinf as [_ Hcold];
      [|apply infer_extends].
    destruct (Hcold Hl) as (tmpl & ctx & sig & _ & _ & _ & _ & Hhit).
    by exists name, sig, ctx. }
  unfold infer_call.
  erewrite bind_step by (unfold liftO; rewrite En; reflexivity).
  rewrite decide_False by done.
  assert (Hsecond : infer prog fields promote (S fuel') f arg_types st'
                    = Done ((VType sig, VContext ctx), st')).
  { simpl. unfold infer_body. erewrite bind_step by reflexivity. by rewrite Hhit. }
  unfold infer_call_function.
  destruct func_type as [n ps|g|cands]; [| |by destruct (Hov cands)].
  - erewrite bind_step by reflexivity. by erewrite bind_step by exact Hsecond.
  - erewrite bind_step by reflexivity. by erewrite bind_step by exact Hsecond.
Qed.

(** X13. [run] never returns.  It unpacks the pair that [infer] returns
    into three names: whenever the two entries that it reads are in the
    environment and [infer] returns, [run] raises [ValueError]; in
    every other case it raises what the reads or [infer] raised, or does
    not terminate with [infer].  The three writes to the environment
    come after the unpacking and are never reached. *)
Theorem run_never_returns fuel func env st :
  (run prog fields promote fuel func env st = Diverge ∨
   ∃ e, run prog fields promote fuel func env st = Raise e) ∧
  ∀ argtypes r st1,
    dict_get env "numba.typing.cache" = Some EnvCache →
    dict_get env "numba.typing.argtypes" = Some (EnvTypes argtypes) →
    infer prog fields promote fuel func argtypes st = Done (r, st1) →
    run prog fields promote fuel func env st
      = Raise (ValueError "need more than 2 values to unpack").
Proof.
  split.
  - unfold run, bind, lift.
    destruct (dict_get env "numba.typing.cache") as [c|]; [|right; by eexists].
    cbn [ret]. destruct (dict_get env "numba.typing.argtypes") as [a|];
      [|right; by eexists].
    cbn [ret]. destruct a as [|l| |]; try (right; by eexists).
    cbn [ret]. destruct c; try (right; by eexists).
    cbn [ret]. destruct (infer prog fields promote fuel func l st) as [[r st1]|e|];
      [right|right|left]; by eexists.
  - intros argtypes r st1 Hc Ha Hinf. unfold run.
    erewrite bind_step by (rewrite Hc; reflexivity).
    erewrite bind_step by (rewrite Ha; reflexivity).
    erewrite bind_step by reflexivity.
    erewrite bind_step by reflexivity.
    erewrite bind_step by exact Hinf. reflexivity.
Qed.

End Callers.

Lemma static_call_resolves_once_witness :
  ∃ t st',
    infer_call Examples.prog
      (infer Examples.prog Examples.fields Examples.promote 10) (NFunction 0)
      (Function Examples.Float64 [Examples.Float64]) [Examples.Float64]
      MoreExamples.flow_session = Done (t, st') ∧
    infer_call Examples.prog
      (infer Examples.prog Examples.fields Examples.promote 10) (NFunction 0)
      (Function Examples.Float64 [Examples.Float64]) [Examples.Float64] st'
      = Raise (AttributeError "params").
Proof.
  eexists _, _. split; [vm_compute; reflexivity|].
  match goal with
  | |- infer_call _ _ _ _ _ ?s = _ =>
      apply (static_call_resolves_once Examples.prog Examples.fields Examples.promote 9 9 0
               (Function Examples.Float64 [Examples.Float64]) [Examples.Float64]
               MoreExamples.flow_session Examples.Float64 s)
  end.
  - reflexivity.
  - discriminate.
  - vm_compute. reflexivity.
Defined.

Lemma run_never_returns_witness :
  run Examples.prog Examples.fields Examples.promote 10 0 MoreExamples.env0
    MoreExamples.flow_session
  = Raise (ValueError "need more than 2 values to unpack").
Proof.
  eapply (proj2 (run_never_returns Examples.prog Examples.fields Examples.promote 10 0
                   MoreExamples.env0 MoreExamples.flow_session)).
  - reflexivity.
  - reflexivity.
  - vm_compute. reflexivity.
Defined.

(** ** The result of the solver has nothing unaccounted for *)

Section Justification.

Variable prog : fid → IRFunction.
Variable fields : Ty → list (string * (Ty * Ty)).
Variable R : fid → list Ty → M (PyVal * PyVal).
Hypothesis R_extends : ∀ f args, extends (R f args).

Variable ctx : InferContext.
Hypothesis ctx_unaliased : unaliased ctx.

Lemma justified_mono h0 h h' :
  (∀ b, deref h b `prefix_of` deref h' b) →
  ∀ node a r,
    (r ∈ deref h0 a ∨
     default "flow" (dict_get (ctx_constraints ctx) node) = "call" ∨
     ∃ u b t, u ∈ predecessors (ctx_graph ctx) node ∧
              dict_get (ctx_context ctx) u = Some b ∧
              t ∈ deref h b ∧ derived prog fields ctx node t = Some r) →
    r ∈ deref h0 a ∨
    default "flow" (dict_get (ctx_constraints ctx) node) = "call" ∨
    ∃ u b t, u ∈ predecessors (ctx_graph ctx) node ∧
             dict_get (ctx_context ctx) u = Some b ∧
             t ∈ deref h' b ∧ derived prog fields ctx node t = Some r.
Proof.
  intros Hmono node a r [H|[H|(u & b & t & Hu & Hb & Ht & Hd)]]; [by left|by right; left|].
  right; right. exists u, b, t. repeat split; try done.
  by apply (prefix_subseteq _ _ (Hmono b)).
Qed.

(** A visit keeps every member of every bound set accounted for. *)
Lemma visit_justified h0 node st changed st' :
  allocated ctx st →
  justified prog fields ctx h0 (heap st) →
  infer_node prog fields R ctx node st = Done (changed, st') →
  justified prog fields ctx h0 (heap st').
Proof using R_extends ctx_unaliased.
  intros Hal Hj Hrun v a r Hv Hr.
  pose proof (infer_node_step prog fields R R_extends ctx node st changed st' Hrun)
    as (_ & _ & Hmono & _).
  destruct (infer_node_inv prog fields R R_extends ctx node st st changed st' eq_refl Hrun)
    as (an & Han & (_ & F & _) & _).
  pose proof (allocated_bound _ _ _ _ Hal Hv) as Hlt.
  destruct (decide (a = an)) as [->|Hne].
  - destruct (is_literal node) eqn:Hlit.
    { destruct node; try discriminate. injection Han as Han. lia. }
    assert (dict_get (ctx_context ctx) node = Some an) as Hn
      by (destruct node; try discriminate; exact Han).
    rewrite (unaliased_inj ctx v node an ctx_unaliased Hv Hn).
    destruct (decide (default "flow" (dict_get (ctx_constraints ctx) node) = "call"))
      as [Hcall|Hcall]; [by right; left|].
    destruct (visit_justifies prog fields R ctx node an st changed st' Hrun Hlit Hn Hlt
                Hcall r Hr) as [Hold|Hnew].
    + apply (justified_mono h0 (heap st)); [done|]. by apply Hj.
    + by right; right.
  - apply (justified_mono h0 (heap st)); [done|]. apply Hj; [done|].
    revert Hr. unfold deref. by rewrite F.
Qed.

Lemma worklist_justified h0 fuel : ∀ W st st',
  allocated ctx st →
  justified prog fields ctx h0 (heap st) →
  worklist prog fields R fuel ctx W st = Done (tt, st') →
  justified prog fields ctx h0 (heap st').
Proof using R_extends ctx_unaliased.
  induction fuel as [|fuel IH]; intros [|node W] st st' Hal Hj; simpl;
    try discriminate.
  - by intros [= <-].
  - by intros [= <-].
  - intros Hrun. apply bind_Done in Hrun as (changed & st1 & Hn & Hrun).
    pose proof (infer_node_step prog fields R R_extends ctx node st changed st1 Hn)
      as (Hlen & _).
    assert (Hal1 : allocated ctx st1) by (by eapply allocated_le).
    pose proof (visit_justified h0 node st changed st1 Hal Hj Hn) as Hj1.
    destruct changed; by eapply IH.
Qed.

End Justification.

Section SolverJustification.

Variable prog : fid → IRFunction.
Variable fields : Ty → list (string * (Ty * Ty)).
Variable promote : Ty → Ty → Ty.

(** X15. The solver adds nothing that the constraints do not ask for.
    When [infer_graph] returns, every member of a type set bound in the
    context was in that set at the start, or the set is that of a ['call']
    node, or the node's transfer derives the member from a member of the
    type set of one of its predecessors.  It holds for a context whose
    bindings are existing set objects, one of its own per binding. *)
Theorem solver_result_is_justified fuel fuel' ctx st st' :
  unaliased ctx →
  allocated ctx st →
  infer_graph prog fields (infer prog fields promote fuel) fuel' ctx st = Done (tt, st') →
  justified prog fields ctx (heap st) (heap st').
Proof.
  intros Hnd Hal Hrun. unfold infer_graph in Hrun.
  refine (worklist_justified prog fields _ (infer_extends prog fields promote fuel)
            ctx Hnd (heap st) fuel' _ st st' Hal _ Hrun).
  intros node a r _ Hr. by left.
Qed.

End SolverJustification.

Lemma solver_result_is_justified_witness :
  ∃ st',
    infer_graph Examples.prog Examples.fields
      (infer Examples.prog Examples.fields Examples.promote 1) 20
      MoreExamples.slot_ctx MoreExamples.slot_state = Done (tt, st') ∧
    justified Examples.prog Examples.fields MoreExamples.slot_ctx
      (heap MoreExamples.slot_state) (heap st').
Proof.
  eexists. split; [vm_compute; reflexivity|].
  apply (solver_result_is_justified Examples.prog Examples.fields Examples.promote 1 20
           MoreExamples.slot_ctx MoreExamples.slot_state).
  - by_compute.
  - by_compute.
  - vm_compute. reflexivity.
Defined.

(** ** The attribute error on the templates of [build_graph] *)

Lemma bind_Raise_inv {A B} (m : M A) (k : A → M B) st e :
  bind m k st = Raise e →
  m st = Raise e ∨ ∃ a st1, m st = Done (a, st1) ∧ k a st1 = Raise e.
Proof.
  unfold bind. destruct (m st) as [[a st1]|e'|].
  - intros Hk. right. by exists a, st1.
  - intros [= <-]. by left.
  - discriminate.
Qed.

Lemma raises_only_bind {A B} (P : exn → Prop) (m : M A) (k : A → M B) :
  raises_only P m → (∀ a, raises_only P (k a)) → raises_only P (bind m k).
Proof.
  intros Hm Hk st e [H|(a & st1 & _ & H)]%bind_Raise_inv; [by eapply Hm|by eapply Hk].
Qed.

Lemma raises_only_ret {A} (P : exn → Prop) (a : A) : raises_only P (ret a).
Proof. by intros st e. Qed.

Lemma raises_only_raise {A} (P : exn → Prop) e : P e → raises_only P (@raise A e).
Proof. by intros He st e' [= <-]. Qed.

Lemma raises_only_lift {A} (P : exn → Prop) (o : option A) e :
  P e → raises_only P (lift o e).
Proof. intros He. destruct o; [apply raises_only_ret|by apply raises_only_raise]. Qed.

Lemma raises_only_for_list {A Acc} (P : exn → Prop) (xs : list A)
    (body : A → Acc → M Acc) :
  (∀ x acc, raises_only P (body x acc)) → ∀ acc, raises_only P (for_list xs body acc).
Proof.
  intros Hbody. induction xs as [|x xs IH]; intros acc; simpl.
  - apply raises_only_ret.
  - apply raises_only_bind; auto.
Qed.

Lemma raises_only_check_size (P : exn → Prop) b n :
  P (RuntimeError "Set changed size during iteration") → raises_only P (check_size b n).
Proof. intros HP st e. unfold check_size. case_decide; [done|]. by intros [= <-]. Qed.

Lemma raises_only_for_set {Acc} (P : exn → Prop) b (body : Ty → Acc → M Acc) acc :
  P (RuntimeError "Set changed size during iteration") →
  (∀ x acc, raises_only P (body x acc)) → raises_only P (for_set b body acc).
Proof.
  intros HP Hbody. unfold for_set. apply raises_only_bind; [by intros st e|].
  intros s. generalize (length s). intros n. revert acc.
  induction s as [|x s IH]; intros acc; simpl.
  - apply raises_only_ret.
  - apply raises_only_bind; [apply Hbody|]. intros acc'.
    apply raises_only_bind; [by apply raises_only_check_size|]. intros _. apply IH.
Qed.

Lemma raises_only_add_result (P : exn → Prop) a t changed :
  raises_only P (add_result a t changed).
Proof. by intros st e. Qed.

Section UnboundOperations.

Variable prog : fid → IRFunction.
Variable fields : Ty → list (string * (Ty * Ty)).
Variable R : fid → list Ty → M (PyVal * PyVal).
Variable ctx : InferContext.

(** No operation is bound, and only operations have a constraint. *)
Hypothesis ops_unbound : ∀ id, dict_get (ctx_context ctx) (NOp id) = None.
Hypothesis ops_tagged :
  ∀ n C, dict_get (ctx_constraints ctx) n = Some C → ∃ id, n = NOp id.

(** The visit of a node with a constraint stops at the lookup of the
    node's own type set, and the flow transfer of the other nodes has no
    typed failure to raise. *)
Lemma infer_node_unbound node :
  raises_only (λ e, is_InferError e = false) (infer_node prog fields R ctx node).
Proof using ops_unbound ops_tagged.
  destruct (dict_get (ctx_constraints ctx) node) as [C|] eqn:EC.
  - destruct (ops_tagged node C EC) as [id ->]. intros st e Hrun.
    unfold infer_node in Hrun. cbv zeta in Hrun.
    rewrite (bind_Raise _ _ st (KeyError (NOp id))) in Hrun; [by injection Hrun as <-|].
    unfold context_get, lift. by rewrite ops_unbound.
  - unfold infer_node. rewrite EC. cbn [from_option id default].
    apply raises_only_bind.
    { destruct node; try (by apply raises_only_lift). by intros st e. }
    intros a. apply raises_only_bind.
    { unfold graph_predecessors. case_decide;
        [apply raises_only_ret|by apply raises_only_raise]. }
    intros incoming.
    rewrite (decide_False (P := "flow" = "pointer")) by done.
    rewrite (decide_True (P := "flow" = "flow")) by done.
    apply raises_only_for_list. intros neighbor changed.
    apply raises_only_bind; [by apply raises_only_lift|]. intros b.
    apply raises_only_for_set; [done|]. intros t ch. apply raises_only_add_result.
Qed.

Lemma worklist_unbound fuel : ∀ W,
  raises_only (λ e, is_InferError e = false) (worklist prog fields R fuel ctx W).
Proof using ops_unbound ops_tagged.
  induction fuel as [|fuel IH]; intros [|node W]; simpl;
    try apply raises_only_ret; [by intros st e|].
  apply raises_only_bind; [apply infer_node_unbound|]. intros [|]; apply IH.
Qed.

End UnboundOperations.

(** On a cache without a template for the function, the solver works on
    the template of [build_graph], in which no operation is bound: no run
    of [infer] raises the typed failure. *)
Lemma infer_fresh_template prog fields promote fuel func argtypes st tmpl e :
  lookup (cache st) func argtypes = None →
  lookup_ctx (cache st) func = None →
  build_graph func (prog func) = Done tmpl →
  (∀ id, NOp id ∉ f_args (prog func)) →
  infer prog fields promote fuel func argtypes st = Raise e →
  is_InferError e = false.
Proof.
  intros Hl Hc Hb Hargs Hrun. destruct fuel as [|fuel]; [discriminate|].
  simpl in Hrun. unfold infer_body in Hrun.
  rewrite (bind_step _ _ st (cache st) st eq_refl), Hl, Hc in Hrun.
  set (st1 := mkState (heap st)
                (mkCache (dict_set (ctxs (cache st)) func tmpl) (typings (cache st)))).
  rewrite (bind_step _ _ st tmpl st1) in Hrun
    by (unfold bind, liftO; by rewrite Hb).
  pose proof (build_graph_context _ _ _ Hb) as Hctx0.
  pose proof (build_graph_grown _ _ _ Hb) as (_ & Htags & _).
  assert (Hwf : Forall (λ a, a < length (heap st1)) (ctx_context tmpl).*2)
    by (rewrite Hctx0; constructor).
  rewrite (bind_step _ _ st1 _ _ (Context_copy_spec tmpl st1 Hwf)) in Hrun.
  rewrite Hctx0 in Hrun. cbn [fmap list_fmap zip zip_with length seq fst] in Hrun.
  match type of Hrun with
  | bind (seed_context _ ?c _) _ ?s = _ =>
      destruct (seed_loop (zip (f_args (prog (ctx_func c))) argtypes) c s)
        as (ctx2 & Hseed & (_ & _ & HC & _) & Hother & _)
  end.
  unfold seed_context in Hrun.
  rewrite (bind_step _ _ _ _ _ Hseed) in Hrun. cbn [ctx_func ctx_context] in *.
  refine ((_ : raises_only (λ e, is_InferError e = false)
            (do! infer_graph prog fields (infer prog fields promote fuel) (S fuel) ctx2 in
             let! a := context_get ctx2 return_node in
             let! typeset := read_set a in
             let! restype := liftO (reduce promote typeset) in
             let signature := Function restype argtypes in
             do! set_typings func argtypes (VType signature, VContext ctx2) in
             ret (VContext ctx2, VType signature))) _ _ Hrun).
  apply raises_only_bind.
  - apply worklist_unbound.
    + intros id. rewrite Hother; [done|]. rewrite zip_fst_take.
      intros Hin%subseteq_take. revert Hin.
      replace (ctx_func tmpl) with func; [apply Hargs|].
      unfold build_graph in Hb.
      destruct (generate_constraints _ _) as [[[c m] G]| |]; [|done..].
      by injection Hb as <-.
    + intros n C HnC. rewrite HC in HnC. cbn [ctx_constraints] in HnC.
      destruct (Htags n C HnC) as (op & _ & -> & _). by eexists.
  - intros _. apply raises_only_bind; [by apply raises_only_lift|]. intros a.
    apply raises_only_bind; [by intros s e'|]. intros typeset.
    apply raises_only_bind.
    { intros s e'. unfold liftO, reduce. destruct typeset; [|done]. by intros [= <-]. }
    intros restype. apply raises_only_bind; [by intros s e'|]. intros _.
    apply raises_only_ret.
Qed.

(** ** C5: a missing field, on the templates of [build_graph] *)

(** C5. The typed failure for a missing field is out of reach.  On a
    cache that has no template for the function, [infer] works on the
    template of [build_graph], which binds no operation: the visit of
    every node that has a constraint stops with [KeyError] at the lookup
    of the node's own type set, so that no run of [infer] raises
    [InferError], whatever the type sets hold.  For [getq], whose
    operation 0 is an ['attr'] node with the argument as its single
    predecessor, called with [Point], which has no field [q]: the run
    raises [KeyError] for the operation, not the typed failure. *)
Theorem missing_field_is_never_reported :
  (∀ prog fields promote fuel func argtypes st tmpl e,
     lookup (cache st) func argtypes = None →
     lookup_ctx (cache st) func = None →
     build_graph func (prog func) = Done tmpl →
     (∀ id, NOp id ∉ f_args (prog func)) →
     infer prog fields promote fuel func argtypes st = Raise e →
     is_InferError e = false) ∧
  build_graph 0 MoreExamples.getq =
    Done (mkContext 0 [] [(NOp 0, "attr")]
            (mkGraph [NOp 0; NFuncArg 0; NOp 1; return_node]
                     [(NFuncArg 0, NOp 0); (NOp 0, return_node)])
            [(NOp 0, MetaAttr (ANode (NStr "q")))]) ∧
  lacks_field Examples.fields (NStr "q") Examples.Point = true ∧
  ∀ fuel,
    infer MoreExamples.getq_prog Examples.fields Examples.promote (S fuel) 0
      [Examples.Point] Examples.fresh = Raise (KeyError (NOp 0)).
Proof.
  split; [|split; [|split]].
  - intros prog fields promote fuel func argtypes st tmpl e. apply infer_fresh_template.
  - reflexivity.
  - reflexivity.
  - intros fuel. reflexivity.
Qed.
